(** * KLStream: a shallow embedding of the execution engine

    The development follows the C++ sources of the repository:
    - [event.hpp]      : [Payload], [EventMetadata], [Event];
    - [queue.hpp]      : [BoundedQueue] (ring buffer, closed flag, statistics);
    - [operator.hpp]   : [OperatorContext] (emit), [FunctionOperator];
    - [map.hpp]        : [MapOperator];
    - [sink.hpp]       : [AggregatingSink];
    - [scheduler.hpp]  : [OperatorInstance], [RoundRobinScheduler];
    - [runtime.hpp], [runtime.cpp] : [StreamGraphBuilder], [Runtime].

    Conventions.  Unsigned machine integers are values of [Z] with the
    wrap-around written out ([wrap64]).  A [std::shared_ptr<Queue>] is an
    index into a store of queues, so that the producer side and the consumer
    side of an edge alias the same queue.  Every queue operation runs under
    the queue's mutex, hence is one atomic step of the model; an operation
    that has to wait on a condition variable ends its step in [Parked] and is
    continued by a separate resume step once it is woken up. *)

From Stdlib Require Import ZArith Lia Bool List String.
From Stdlib Require Import Floats.SpecFloat.
From stdpp Require Import base option list gmap strings.

Open Scope Z_scope.

(** ** Machine integers *)

Module Ints.

Definition wrap64 (x : Z) : Z := x mod 2 ^ 64.

(** [x++] on a [std::uint64_t] or [std::size_t]. *)
Definition incr64 (x : Z) : Z := wrap64 (x + 1).

(** [x--] on a [std::size_t]. *)
Definition decr64 (x : Z) : Z := wrap64 (x - 1).

Definition int64_min : Z := - 2 ^ 63.
Definition int64_max : Z := 2 ^ 63 - 1.

(** Two's complement reduction of a mathematical integer to [std::int64_t]. *)
Definition wrap_s64 (x : Z) : Z := (x + 2 ^ 63) mod 2 ^ 64 - 2 ^ 63.

Definition in_int64 (x : Z) : Prop := int64_min <= x <= int64_max.

End Ints.
Import Ints.

(** ** Events ([event.hpp]) *)

(** [Timestamp] is a reading of the steady clock. *)
Definition Timestamp := Z.
Definition EventKey := Z.
Definition SequenceNumber := Z.
Definition Blob := list Byte.byte.

(** [std::variant<std::monostate, std::int64_t, double, std::string, Blob>].
    A [double] is a binary64 datum, given by its IEEE 754 decomposition. *)
Inductive Payload : Type :=
| PMonostate
| PInt (v : Z)
| PDouble (d : spec_float)
| PString (s : string)
| PBlob (b : Blob).

Record EventMetadata : Type := mkEventMetadata {
  key : option EventKey;
  sequence : option SequenceNumber;
  timestamp : Timestamp;
  source_operator : option string
}.

(** [EventMetadata()]: the time stamp is the clock reading [now] taken by the
    constructor, every other field is empty. *)
Definition EventMetadata_default (now : Timestamp) : EventMetadata :=
  {| key := None; sequence := None; timestamp := now; source_operator := None |}.

(** [explicit EventMetadata(EventKey k)]. *)
Definition EventMetadata_of_key (k : EventKey) (now : Timestamp) : EventMetadata :=
  {| key := Some k; sequence := None; timestamp := now; source_operator := None |}.

Record Event : Type := mkEvent {
  payload : Payload;
  metadata : EventMetadata
}.

(** [Event() = default]. *)
Definition Event_default (now : Timestamp) : Event :=
  {| payload := PMonostate; metadata := EventMetadata_default now |}.

(** [explicit Event(Payload data)]: the metadata member is default
    constructed. *)
Definition Event_of_payload (data : Payload) (now : Timestamp) : Event :=
  {| payload := data; metadata := EventMetadata_default now |}.

(** [Event(Payload data, EventKey key)]. *)
Definition Event_of_payload_key (data : Payload) (k : EventKey) (now : Timestamp) : Event :=
  {| payload := data; metadata := EventMetadata_of_key k now |}.

(** [Event(Payload data, EventMetadata meta)]. *)
Definition Event_of_payload_meta (data : Payload) (meta : EventMetadata) : Event :=
  {| payload := data; metadata := meta |}.

(** [event.get_if<std::int64_t>()] and [event.get_if<double>()]. *)
Definition get_if_int64 (e : Event) : option Z :=
  match payload e with PInt v => Some v | _ => None end.

Definition get_if_double (e : Event) : option spec_float :=
  match payload e with PDouble d => Some d | _ => None end.

(** ** The bounded queue ([queue.hpp]) *)

Record QueueStats : Type := mkQueueStats {
  push_count : Z;
  pop_count : Z;
  push_blocked_count : Z;
  pop_blocked_count : Z;
  current_size : Z;
  capacity : Z;
  high_watermark : Z
}.

Definition QueueStats_default : QueueStats :=
  mkQueueStats 0 0 0 0 0 0 0.

Record BoundedQueue : Type := mkBoundedQueue {
  buffer_ : list Event;
  head_ : Z;
  tail_ : Z;
  size_ : Z;
  closed_ : bool;
  stats_ : QueueStats
}.

(** The outcome of one atomic step of a queue operation: either the call
    returns [r], or the caller waits on a condition variable (the mutex is
    released, the state is as the step left it). *)
Inductive Step (A : Type) : Type :=
| Done (r : A) (q : BoundedQueue)
| Parked (q : BoundedQueue).
Arguments Done {A} r q.
Arguments Parked {A} q.

Definition step_state {A : Type} (s : Step A) : BoundedQueue :=
  match s with Done _ q => q | Parked q => q end.

Definition set_stats (q : BoundedQueue) (s : QueueStats) : BoundedQueue :=
  mkBoundedQueue (buffer_ q) (head_ q) (tail_ q) (size_ q) (closed_ q) s.

Definition with_push_count (s : QueueStats) (v : Z) : QueueStats :=
  mkQueueStats v (pop_count s) (push_blocked_count s) (pop_blocked_count s)
    (current_size s) (capacity s) (high_watermark s).

Definition with_pop_count (s : QueueStats) (v : Z) : QueueStats :=
  mkQueueStats (push_count s) v (push_blocked_count s) (pop_blocked_count s)
    (current_size s) (capacity s) (high_watermark s).

Definition with_push_blocked_count (s : QueueStats) (v : Z) : QueueStats :=
  mkQueueStats (push_count s) (pop_count s) v (pop_blocked_count s)
    (current_size s) (capacity s) (high_watermark s).

Definition with_pop_blocked_count (s : QueueStats) (v : Z) : QueueStats :=
  mkQueueStats (push_count s) (pop_count s) (push_blocked_count s) v
    (current_size s) (capacity s) (high_watermark s).

Definition with_current_size (s : QueueStats) (v : Z) : QueueStats :=
  mkQueueStats (push_count s) (pop_count s) (push_blocked_count s)
    (pop_blocked_count s) v (capacity s) (high_watermark s).

Definition with_capacity (s : QueueStats) (v : Z) : QueueStats :=
  mkQueueStats (push_count s) (pop_count s) (push_blocked_count s)
    (pop_blocked_count s) (current_size s) v (high_watermark s).

Definition with_high_watermark (s : QueueStats) (v : Z) : QueueStats :=
  mkQueueStats (push_count s) (pop_count s) (push_blocked_count s)
    (pop_blocked_count s) (current_size s) (capacity s) v.

(** [stats_.push_count++] and its three siblings. *)
Definition count_push (q : BoundedQueue) : BoundedQueue :=
  set_stats q (with_push_count (stats_ q) (incr64 (push_count (stats_ q)))).

Definition count_pop (q : BoundedQueue) : BoundedQueue :=
  set_stats q (with_pop_count (stats_ q) (incr64 (pop_count (stats_ q)))).

Definition count_push_blocked (q : BoundedQueue) : BoundedQueue :=
  set_stats q
    (with_push_blocked_count (stats_ q) (incr64 (push_blocked_count (stats_ q)))).

Definition count_pop_blocked (q : BoundedQueue) : BoundedQueue :=
  set_stats q
    (with_pop_blocked_count (stats_ q) (incr64 (pop_blocked_count (stats_ q)))).

(** The slot [buffer_[i]].  The index is below the capacity in every state
    the operations produce ([wf_index] below); the default covers the
    remaining, undefined, case. *)
Definition buffer_at (q : BoundedQueue) (i : Z) : Event :=
  default (Event_default 0) (buffer_ q !! Z.to_nat i).

Module BQ.

Section Queue.

(** [template<std::size_t Capacity> class BoundedQueue]. *)
Variable Capacity : Z.

(** A freshly constructed queue: [Capacity] default constructed slots. *)
Definition BoundedQueue_new (now : Timestamp) : BoundedQueue :=
  {| buffer_ := replicate (Z.to_nat Capacity) (Event_default now);
     head_ := 0; tail_ := 0; size_ := 0; closed_ := false;
     stats_ := QueueStats_default |}.

(** The common tail of [push], [try_push] and [push_for]:
      buffer_[tail_] = std::move(event);
      tail_ = (tail_ + 1) & (Capacity - 1);
      size_++;
      if (size_ > stats_.high_watermark) stats_.high_watermark = size_;
      stats_.current_size = size_;                                       *)
Definition store_event (event : Event) (q : BoundedQueue) : BoundedQueue :=
  let buffer' := <[Z.to_nat (tail_ q) := event]> (buffer_ q) in
  let tail' := Z.land (wrap64 (tail_ q + 1)) (Capacity - 1) in
  let size' := incr64 (size_ q) in
  let s := stats_ q in
  let s1 := if high_watermark s <? size' then with_high_watermark s size' else s in
  let s2 := with_current_size s1 size' in
  mkBoundedQueue buffer' (head_ q) tail' size' (closed_ q) s2.

(** The common tail of [pop], [try_pop] and [pop_for]:
      Event event = std::move(buffer_[head_]);
      head_ = (head_ + 1) & (Capacity - 1);
      size_--;
      stats_.current_size = size_;
    The slot that was moved from is not read again before it is
    overwritten, so the model leaves it as it is. *)
Definition take_event (q : BoundedQueue) : Event * BoundedQueue :=
  let event := buffer_at q (head_ q) in
  let head' := Z.land (wrap64 (head_ q + 1)) (Capacity - 1) in
  let size' := decr64 (size_ q) in
  (event,
   mkBoundedQueue (buffer_ q) head' (tail_ q) size' (closed_ q)
     (with_current_size (stats_ q) size')).

(** *** push *)

(** The loop of [push] and what follows it, entered with the mutex held:
      while (size_ == Capacity && !closed_) { push_blocked_count++; wait }
      if (closed_) return false;
      ... store ...; return true;                                         *)
Definition push_loop (event : Event) (q : BoundedQueue) : Step bool :=
  if (size_ q =? Capacity) && negb (closed_ q) then
    Parked (count_push_blocked q)
  else if closed_ q then Done false q
  else Done true (store_event event q).

Definition push (event : Event) (q : BoundedQueue) : Step bool :=
  push_loop event (count_push q).

(** A pusher that was parked wakes up and tests the loop condition again. *)
Definition push_resume (event : Event) (q : BoundedQueue) : Step bool :=
  push_loop event q.

Definition try_push (event : Event) (q : BoundedQueue) : bool * BoundedQueue :=
  if (size_ q =? Capacity) || closed_ q then (false, q)
  else (true, store_event event (count_push q)).

(** [push_for]: [wait_for (lock, timeout, pred)] evaluates [pred] first and
    returns at once when it holds; otherwise the caller waits.  When it is
    woken with the deadline passed it returns the value of [pred]; when it
    is woken before the deadline it returns if [pred] holds and waits again
    if not. *)
Definition push_for_pred (q : BoundedQueue) : bool :=
  (size_ q <? Capacity) || closed_ q.

Definition push_for_finish (event : Event) (q : BoundedQueue) : Step bool :=
  if closed_ q then Done false q else Done true (store_event event q).

Definition push_for (event : Event) (q : BoundedQueue) : Step bool :=
  let q1 := count_push q in
  if push_for_pred q1 then push_for_finish event q1 else Parked q1.

Definition push_for_wake (event : Event) (timed_out : bool) (q : BoundedQueue)
  : Step bool :=
  if push_for_pred q then push_for_finish event q
  else if timed_out then Done false (count_push_blocked q)
  else Parked q.

(** *** pop *)

Definition pop_loop (q : BoundedQueue) : Step (option Event) :=
  if (size_ q =? 0) && negb (closed_ q) then
    Parked (count_pop_blocked q)
  else if size_ q =? 0 then Done None q
  else let '(event, q') := take_event q in Done (Some event) q'.

Definition pop (q : BoundedQueue) : Step (option Event) :=
  pop_loop (count_pop q).

Definition pop_resume (q : BoundedQueue) : Step (option Event) :=
  pop_loop q.

Definition try_pop (q : BoundedQueue) : option Event * BoundedQueue :=
  if size_ q =? 0 then (None, q)
  else let '(event, q') := take_event (count_pop q) in (Some event, q').

Definition pop_for_pred (q : BoundedQueue) : bool :=
  (0 <? size_ q) || closed_ q.

Definition pop_for_finish (q : BoundedQueue) : Step (option Event) :=
  if size_ q =? 0 then Done None q
  else let '(event, q') := take_event q in Done (Some event) q'.

Definition pop_for (q : BoundedQueue) : Step (option Event) :=
  let q1 := count_pop q in
  if pop_for_pred q1 then pop_for_finish q1 else Parked q1.

Definition pop_for_wake (timed_out : bool) (q : BoundedQueue)
  : Step (option Event) :=
  if pop_for_pred q then pop_for_finish q
  else if timed_out then Done None (count_pop_blocked q)
  else Parked q.

(** *** close and the observers *)

Definition close (q : BoundedQueue) : BoundedQueue :=
  mkBoundedQueue (buffer_ q) (head_ q) (tail_ q) (size_ q) true (stats_ q).

Definition is_closed (q : BoundedQueue) : bool := closed_ q.
Definition size (q : BoundedQueue) : Z := size_ q.
Definition empty (q : BoundedQueue) : bool := size_ q =? 0.
Definition full (q : BoundedQueue) : bool := size_ q =? Capacity.
Definition queue_capacity_of (q : BoundedQueue) : Z := Capacity.

(** [stats()]: a copy of the counters with the capacity filled in. *)
Definition stats (q : BoundedQueue) : QueueStats :=
  with_capacity (stats_ q) Capacity.

End Queue.

End BQ.

(** *** Atomic steps of a queue and their histories *)

(** Every atomic step a thread can take on a queue.  Any interleaving of
    calls by any number of threads is a list of such steps. *)
Inductive QueueOp : Type :=
| OpPush (e : Event)
| OpPushResume (e : Event)
| OpTryPush (e : Event)
| OpPushFor (e : Event)
| OpPushForWake (e : Event) (timed_out : bool)
| OpPop
| OpPopResume
| OpTryPop
| OpPopFor
| OpPopForWake (timed_out : bool)
| OpClose.

Definition apply_op (Capacity : Z) (op : QueueOp) (q : BoundedQueue) : BoundedQueue :=
  match op with
  | OpPush e => step_state (BQ.push Capacity e q)
  | OpPushResume e => step_state (BQ.push_resume Capacity e q)
  | OpTryPush e => snd (BQ.try_push Capacity e q)
  | OpPushFor e => step_state (BQ.push_for Capacity e q)
  | OpPushForWake e t => step_state (BQ.push_for_wake Capacity e t q)
  | OpPop => step_state (BQ.pop Capacity q)
  | OpPopResume => step_state (BQ.pop_resume Capacity q)
  | OpTryPop => snd (BQ.try_pop Capacity q)
  | OpPopFor => step_state (BQ.pop_for Capacity q)
  | OpPopForWake t => step_state (BQ.pop_for_wake Capacity t q)
  | OpClose => BQ.close q
  end.

(** The state after a list of steps. *)
Definition run_ops (Capacity : Z) (ops : list QueueOp) (q : BoundedQueue) : BoundedQueue :=
  fold_left (fun q op => apply_op Capacity op q) ops q.

(** The largest value [size_] takes in the states visited by [ops] from [q],
    the state [q] included. *)
Fixpoint max_size_seen (Capacity : Z) (ops : list QueueOp) (q : BoundedQueue) : Z :=
  match ops with
  | [] => size_ q
  | op :: ops' => Z.max (size_ q) (max_size_seen Capacity ops' (apply_op Capacity op q))
  end.

(** The events a queue holds, oldest first: the [size_] slots from [head_]
    on, around the ring. *)
Definition contents (Capacity : Z) (q : BoundedQueue) : list Event :=
  (fun i => buffer_at q ((head_ q + i) mod Capacity)) <$> seqZ 0 (size_ q).

(** The invariant of the ring buffer. *)
Definition wf (Capacity : Z) (q : BoundedQueue) : Prop :=
  length (buffer_ q) = Z.to_nat Capacity /\
  0 <= head_ q < Capacity /\
  0 <= size_ q <= Capacity /\
  tail_ q = (head_ q + size_ q) mod Capacity.

(** [n] successive calls of [pop] by one thread; the run ends early if a
    call has to wait. *)
Fixpoint pop_n (Capacity : Z) (n : nat) (q : BoundedQueue)
  : list (option Event) * BoundedQueue :=
  match n with
  | O => ([], q)
  | S n' =>
      match BQ.pop Capacity q with
      | Done r q' => let '(rs, q'') := pop_n Capacity n' q' in (r :: rs, q'')
      | Parked q' => ([], q')
      end
  end.

(** *** Invariants of the size and of the statistics *)

Definition size_ok (Capacity : Z) (q : BoundedQueue) : Prop :=
  0 <= size_ q <= Capacity.

Definition stats_ok (q : BoundedQueue) : Prop :=
  current_size (stats_ q) = size_ q /\ size_ q <= high_watermark (stats_ q).

(** The step invariant behind the high watermark: the size stays within
    the capacity, [current_size] mirrors [size_], and the watermark after a
    step is the larger of the watermark before it and the size after it. *)
Definition step_ok (Capacity : Z) (q q' : BoundedQueue) : Prop :=
  size_ok Capacity q' /\ stats_ok q' /\
  high_watermark (stats_ q') = Z.max (high_watermark (stats_ q)) (size_ q').

(** *** Timed calls that miss *)

(** A call of [push_for] on [q] that returns false because the deadline
    passed, no other thread having touched the queue meanwhile, and leaves
    the queue as [q']: the caller waits, and is woken by the deadline. *)
Definition push_for_times_out (Capacity : Z) (e : Event) (q q' : BoundedQueue) : Prop :=
  exists q1, BQ.push_for Capacity e q = Parked q1 /\
             BQ.push_for_wake Capacity e true q1 = Done false q'.

Definition pop_for_times_out (Capacity : Z) (q q' : BoundedQueue) : Prop :=
  exists q1, BQ.pop_for Capacity q = Parked q1 /\
             BQ.pop_for_wake Capacity true q1 = Done None q'.

(** The ring, the positions, the size and the closed flag are the same in
    both states. *)
Definition same_ring (q q' : BoundedQueue) : Prop :=
  buffer_ q' = buffer_ q /\ head_ q' = head_ q /\ tail_ q' = tail_ q /\
  size_ q' = size_ q /\ closed_ q' = closed_ q.

(** No effect at all: the statistics are the same too. *)
Definition no_side_effect (q q' : BoundedQueue) : Prop :=
  same_ring q q' /\ stats_ q' = stats_ q.

(** A queue of capacity 1 that holds one event. *)
Definition full_queue_1 : BoundedQueue :=
  snd (BQ.try_push 1 (Event_of_payload (PInt 7) 0) (BQ.BoundedQueue_new 1 0)).

(** ** Queues shared between operators *)

(** [using Queue = BoundedQueue<4096>]. *)
Definition Queue_Capacity : Z := 4096.

(** A [std::shared_ptr<Queue>] is the index of the queue in the store. *)
Definition QueueRef := nat.
Definition QueueStore := list BoundedQueue.

(** ** Operator context ([operator.hpp]) *)

(** What a call that pushes to output queues can end in: it returns, or
    the caller waits inside the blocking push on the first queue of
    [pending] (the calls on the later ones have not started).  [pushes]
    lists the calls of [push] that returned, oldest first, with their
    results.  [EmitFault] stands for the dereference of a handle that owns
    no queue. *)
Inductive EmitOutcome : Type :=
| EmitReturned (count : Z) (pushes : list (QueueRef * bool)) (st : QueueStore)
| EmitParked (count : Z) (pending : list QueueRef)
    (pushes : list (QueueRef * bool)) (st : QueueStore)
| EmitFault.

Module OperatorContext.

Record t : Type := mk {
  name_ : string;
  instance_id_ : Z;
  outputs_ : list QueueRef
}.

(** [explicit OperatorContext(std::string name, std::uint32_t instance_id = 0)]. *)
Definition new (name : string) (instance_id : Z) : t :=
  {| name_ := name; instance_id_ := instance_id; outputs_ := [] |}.

Definition add_output (queue : QueueRef) (ctx : t) : t :=
  {| name_ := name_ ctx; instance_id_ := instance_id_ ctx;
     outputs_ := outputs_ ctx ++ [queue] |}.

(** The loop of [emit] from the output [outs] on:
      for (auto& output : outputs_) if (output->push(event)) count++;
    With [resume] set, the first call is the continuation of a push that
    was parked. *)
Fixpoint emit_from (resume : bool) (event : Event) (outs : list QueueRef)
    (count : Z) (pushes : list (QueueRef * bool)) (st : QueueStore) : EmitOutcome :=
  match outs with
  | [] => EmitReturned count pushes st
  | output :: rest =>
      match st !! output with
      | None => EmitFault
      | Some q =>
          match (if resume then BQ.push_resume Queue_Capacity event q
                 else BQ.push Queue_Capacity event q) with
          | Done accepted q' =>
              emit_from false event rest
                (if accepted then incr64 count else count)
                (pushes ++ [(output, accepted)])
                (<[output := q']> st)
          | Parked q' => EmitParked count outs pushes (<[output := q']> st)
          end
      end
  end.

Definition emit (event : Event) (ctx : t) (st : QueueStore) : EmitOutcome :=
  emit_from false event (outputs_ ctx) 0 [] st.

(** [try_emit]: the same loop over [try_push], which never waits. *)
Fixpoint try_emit_from (event : Event) (outs : list QueueRef)
    (count : Z) (pushes : list (QueueRef * bool)) (st : QueueStore) : EmitOutcome :=
  match outs with
  | [] => EmitReturned count pushes st
  | output :: rest =>
      match st !! output with
      | None => EmitFault
      | Some q =>
          let '(accepted, q') := BQ.try_push Queue_Capacity event q in
          try_emit_from event rest
            (if accepted then incr64 count else count)
            (pushes ++ [(output, accepted)])
            (<[output := q']> st)
      end
  end.

Definition try_emit (event : Event) (ctx : t) (st : QueueStore) : EmitOutcome :=
  try_emit_from event (outputs_ ctx) 0 [] st.

Definition output_count (ctx : t) : Z := Z.of_nat (length (outputs_ ctx)).

End OperatorContext.

(** ** Operators ([operator.hpp], [map.hpp]) *)

Module OperatorState.
Inductive t : Type := Created | Initialized | Running | Paused | ShuttingDown | Stopped.
End OperatorState.

Record OperatorStats : Type := mkOperatorStats {
  events_received : Z;
  events_emitted : Z;
  events_dropped : Z;
  processing_time_ns : Z;
  backpressure_events : Z
}.

(** The dynamic type of an operator, as far as the runtime asks for it
    ([dynamic_cast<SourceOperator*>]). *)
Inductive OperatorKind : Type := IsSource | IsSink | IsOther.

Module Operator.

(** The members of the base class; [stop_requested_] is the flag of
    [SourceOperator] and stays [false] in every other operator. *)
Record t : Type := mk {
  name_ : string;
  state_ : OperatorState.t;
  stats_ : OperatorStats;
  kind : OperatorKind;
  stop_requested_ : bool
}.

Definition new (name : string) (k : OperatorKind) : t :=
  {| name_ := name; state_ := OperatorState.Created;
     stats_ := mkOperatorStats 0 0 0 0 0; kind := k; stop_requested_ := false |}.

Definition set_stats (op : t) (s : OperatorStats) : t :=
  {| name_ := name_ op; state_ := state_ op; stats_ := s; kind := kind op;
     stop_requested_ := stop_requested_ op |}.

Definition record_received (op : t) : t :=
  let s := stats_ op in
  set_stats op (mkOperatorStats (incr64 (events_received s)) (events_emitted s)
                  (events_dropped s) (processing_time_ns s) (backpressure_events s)).

Definition record_emitted (op : t) : t :=
  let s := stats_ op in
  set_stats op (mkOperatorStats (events_received s) (incr64 (events_emitted s))
                  (events_dropped s) (processing_time_ns s) (backpressure_events s)).

Definition record_processing_time (ns : Z) (op : t) : t :=
  let s := stats_ op in
  set_stats op (mkOperatorStats (events_received s) (events_emitted s)
                  (events_dropped s) (wrap64 (processing_time_ns s + ns))
                  (backpressure_events s)).

(** [SourceOperator::request_stop]. *)
Definition request_stop (op : t) : t :=
  {| name_ := name_ op; state_ := state_ op; stats_ := stats_ op; kind := kind op;
     stop_requested_ := true |}.

(** [Operator::init] and [Operator::shutdown]: the base class bodies, which
    no operator of the repository overrides, do nothing. *)
Definition init (ctx : OperatorContext.t) (op : t) : t := op.
Definition shutdown (ctx : OperatorContext.t) (op : t) : t := op.

End Operator.

(** The three readings of the steady clock in a call of [process]: at its
    start, when the emitted event is constructed, and at its end. *)
Record Clock : Type := mkClock {
  t_start : Timestamp;
  t_event : Timestamp;
  t_end : Timestamp
}.

(** How a call of [process] ends.  [ProcessParked] is a call that waits
    inside [emit]; what follows the emit in the body has not run yet. *)
Inductive ProcessOutcome (Op : Type) : Type :=
| ProcessReturned (op : Op) (pushes : list (QueueRef * bool)) (st : QueueStore)
| ProcessParked (op : Op) (count : Z) (pending : list QueueRef)
    (pushes : list (QueueRef * bool)) (st : QueueStore)
| ProcessFault.
Arguments ProcessReturned {Op} op pushes st.
Arguments ProcessParked {Op} op count pending pushes st.
Arguments ProcessFault {Op}.

Module FunctionOperator.

(** The callable, by the branch of [if constexpr] it selects:
    - [FnEventCtx]: invocable with [(Event&, OperatorContext&)]; it emits
      through the context as it likes;
    - [FnOptional]: [const Event&] to [std::optional<Event>];
    - [FnPayload]: anything else, here [const Event&] to a payload. *)
Inductive Func : Type :=
| FnEventCtx (f : Event -> OperatorContext.t -> QueueStore -> EmitOutcome)
| FnOptional (f : Event -> option Event)
| FnPayload (f : Event -> Payload).

Record t : Type := mk {
  base : Operator.t;
  func_ : Func
}.

(** [make_operator(name, func)]. *)
Definition make_operator (name : string) (func : Func) : t :=
  {| base := Operator.new name IsOther; func_ := func |}.

Definition with_base (op : t) (b : Operator.t) : t :=
  {| base := b; func_ := func_ op |}.

(** The end of [process]: the second clock reading and the time record. *)
Definition finish (clk : Clock) (b : Operator.t) : Operator.t :=
  Operator.record_processing_time (wrap64 (t_end clk - t_start clk)) b.

Definition after_emit (op : t) (clk : Clock) (emitted : bool) (b : Operator.t)
    (r : EmitOutcome) : ProcessOutcome t :=
  match r with
  | EmitReturned _ pushes st =>
      let b1 := if emitted then Operator.record_emitted b else b in
      ProcessReturned (with_base op (finish clk b1)) pushes st
  | EmitParked count pending pushes st =>
      ProcessParked (with_base op b) count pending pushes st
  | EmitFault => ProcessFault
  end.

Definition process (clk : Clock) (event : Event) (ctx : OperatorContext.t)
    (st : QueueStore) (op : t) : ProcessOutcome t :=
  let b := Operator.record_received (base op) in
  match func_ op with
  | FnEventCtx f => after_emit op clk false b (f event ctx st)
  | FnOptional f =>
      match f event with
      | Some result => after_emit op clk true b (OperatorContext.emit result ctx st)
      | None => ProcessReturned (with_base op (finish clk b)) [] st
      end
  | FnPayload f =>
      let result := f event in
      after_emit op clk true b
        (OperatorContext.emit (Event_of_payload result (t_event clk)) ctx st)
  end.

End FunctionOperator.

Module MapOperator.

Inductive MapFunc : Type :=
| MapPayload (f : Payload -> Payload)
| MapEvent (f : Event -> Event)
| MapEventCtx (f : Event -> OperatorContext.t -> QueueStore -> EmitOutcome).

Record t : Type := mk {
  base : Operator.t;
  func_ : MapFunc
}.

Definition make_map (name : string) (func : MapFunc) : t :=
  {| base := Operator.new name IsOther; func_ := func |}.

Definition with_base (op : t) (b : Operator.t) : t :=
  {| base := b; func_ := func_ op |}.

Definition after_emit (op : t) (clk : Clock) (emitted : bool) (b : Operator.t)
    (r : EmitOutcome) : ProcessOutcome t :=
  match r with
  | EmitReturned _ pushes st =>
      let b1 := if emitted then Operator.record_emitted b else b in
      ProcessReturned (with_base op (FunctionOperator.finish clk b1)) pushes st
  | EmitParked count pending pushes st =>
      ProcessParked (with_base op b) count pending pushes st
  | EmitFault => ProcessFault
  end.

Definition process (clk : Clock) (event : Event) (ctx : OperatorContext.t)
    (st : QueueStore) (op : t) : ProcessOutcome t :=
  let b := Operator.record_received (base op) in
  match func_ op with
  | MapPayload f =>
      let result := f (payload event) in
      let output := Event_of_payload_meta result (metadata event) in
      after_emit op clk true b (OperatorContext.emit output ctx st)
  | MapEvent f =>
      after_emit op clk true b (OperatorContext.emit (f event) ctx st)
  | MapEventCtx f => after_emit op clk false b (f event ctx st)
  end.

End MapOperator.

(** ** The aggregating sink ([sink.hpp]) *)

(** The integer part of a binary64 value, rounding toward zero; infinities
    and NaN have none.  [S754_finite s m e] is [(-1)^s * m * 2^e]. *)
Definition trunc_float (d : spec_float) : option Z :=
  match d with
  | S754_zero _ => Some 0
  | S754_finite s m e =>
      let mag := if 0 <=? e then Z.pos m * 2 ^ e else Z.pos m / 2 ^ (- e) in
      Some (if s then - mag else mag)
  | S754_infinity _ | S754_nan => None
  end.

(** [static_cast<std::int64_t>(double)]: the truncated value when it fits.
    The language leaves the other cases undefined; they get the value the
    x86-64 conversion instruction delivers there. *)
Definition static_cast_int64 (d : spec_float) : Z :=
  match trunc_float d with
  | Some z => if (int64_min <=? z) && (z <=? int64_max) then z else int64_min
  | None => int64_min
  end.

Module AggregatingSink.

Record t : Type := mk {
  sum_ : Z;
  count_ : Z;
  min_ : Z;
  max_ : Z
}.

(** The member initialisers: [min_] starts at the largest [std::int64_t],
    [max_] at the smallest. *)
Definition new : t :=
  {| sum_ := 0; count_ := 0; min_ := int64_max; max_ := int64_min |}.

(** [consume], under the sink's mutex.  [sum_ += v] is the two's complement
    sum. *)
Definition consume (event : Event) (s : t) : t :=
  match get_if_int64 event with
  | Some value =>
      {| sum_ := wrap_s64 (sum_ s + value);
         count_ := incr64 (count_ s);
         min_ := if value <? min_ s then value else min_ s;
         max_ := if max_ s <? value then value else max_ s |}
  | None =>
      match get_if_double event with
      | Some dvalue =>
          {| sum_ := wrap_s64 (sum_ s + static_cast_int64 dvalue);
             count_ := incr64 (count_ s);
             min_ := min_ s;
             max_ := max_ s |}
      | None => s
      end
  end.

Definition sum (s : t) : Z := sum_ s.
Definition count (s : t) : Z := count_ s.
Definition min (s : t) : Z := min_ s.
Definition max (s : t) : Z := max_ s.

End AggregatingSink.

(** ** Operator instances and schedulers ([scheduler.hpp]) *)

Module OperatorInstance.

Record t : Type := mk {
  operator_ : Operator.t;
  input_queue_ : option QueueRef;
  context_ : OperatorContext.t
}.

(** The constructor: the context takes the operator's name. *)
Definition new (op : Operator.t) (input : option QueueRef) (instance_id : Z) : t :=
  {| operator_ := op; input_queue_ := input;
     context_ := OperatorContext.new (Operator.name_ op) instance_id |}.

Definition with_context (i : t) (ctx : OperatorContext.t) : t :=
  {| operator_ := operator_ i; input_queue_ := input_queue_ i; context_ := ctx |}.

Definition with_operator (i : t) (op : Operator.t) : t :=
  {| operator_ := op; input_queue_ := input_queue_ i; context_ := context_ i |}.

(** [has_work]: [input_queue_ && !input_queue_->empty()]. *)
Definition has_work (st : QueueStore) (i : t) : bool :=
  match input_queue_ i with
  | None => false
  | Some r =>
      match st !! r with
      | Some q => negb (BQ.empty q)
      | None => false
      end
  end.

End OperatorInstance.

(** An [OperatorInstance*] is the index of the instance in the runtime's
    list of instances. *)
Definition InstanceRef := nat.

Definition instance_has_work (insts : list OperatorInstance.t) (st : QueueStore)
    (i : InstanceRef) : bool :=
  match insts !! i with
  | Some inst => OperatorInstance.has_work st inst
  | None => false
  end.

Inductive SchedulingPolicy : Type := RoundRobin | WorkStealing | Priority | LoadAware.

Record SchedulerStats : Type := mkSchedulerStats {
  total_scheduled : Z;
  idle_cycles : Z;
  work_stolen : Z;
  backpressure_waits : Z
}.

Definition count_scheduled (s : SchedulerStats) : SchedulerStats :=
  mkSchedulerStats (incr64 (total_scheduled s)) (idle_cycles s) (work_stolen s)
    (backpressure_waits s).

Definition count_idle (s : SchedulerStats) : SchedulerStats :=
  mkSchedulerStats (total_scheduled s) (incr64 (idle_cycles s)) (work_stolen s)
    (backpressure_waits s).

Definition count_stolen (s : SchedulerStats) : SchedulerStats :=
  mkSchedulerStats (total_scheduled s) (idle_cycles s) (incr64 (work_stolen s))
    (backpressure_waits s).

Module RoundRobinScheduler.

Record t : Type := mk {
  instances_ : list InstanceRef;
  positions_ : gmap Z Z;
  stats_ : SchedulerStats
}.

Definition new (instances : list InstanceRef) : t :=
  {| instances_ := instances; positions_ := ∅;
     stats_ := mkSchedulerStats 0 0 0 0 |}.

(** The loop of [next], with [fuel = instances_.size() - checked]:
      auto* instance = instances_[pos % instances_.size()];
      pos++; checked++;
      if (instance->has_work()) return instance;
    It returns the instance found, if any, and the cursor. *)
Fixpoint scan (ready : InstanceRef -> bool) (instances : list InstanceRef)
    (pos : Z) (fuel : nat) : option InstanceRef * Z :=
  match fuel with
  | O => (None, pos)
  | S fuel' =>
      let instance := instances !!! Z.to_nat (pos mod Z.of_nat (length instances)) in
      let pos' := incr64 pos in
      if ready instance then (Some instance, pos')
      else scan ready instances pos' fuel'
  end.

(** [next (worker_id)].  [positions_[worker_id]] inserts a cursor 0 for a
    worker the map has not seen; [pos] is a reference into the map, so the
    cursor the loop ends with is the one the map holds afterwards. *)
Definition next (ready : InstanceRef -> bool) (worker_id : Z) (s : t)
  : option InstanceRef * t :=
  match instances_ s with
  | [] => (None, s)
  | _ :: _ =>
      let stats1 := count_scheduled (stats_ s) in
      let pos := default 0 (positions_ s !! worker_id) in
      let '(found, pos') :=
        scan ready (instances_ s) pos (length (instances_ s)) in
      let positions' := <[worker_id := pos']> (positions_ s) in
      match found with
      | Some instance =>
          (Some instance,
           {| instances_ := instances_ s; positions_ := positions'; stats_ := stats1 |})
      | None =>
          (None,
           {| instances_ := instances_ s; positions_ := positions';
              stats_ := count_idle stats1 |})
      end
  end.

Definition stats (s : t) : SchedulerStats := stats_ s.
Definition policy (s : t) : SchedulingPolicy := RoundRobin.

End RoundRobinScheduler.

Module WorkStealingScheduler.

(** The generator [rng_] is not part of the record: the victims it draws
    are an argument of [next]. *)
Record t : Type := mk {
  per_worker_ : list (list InstanceRef);
  num_workers_ : Z;
  stats_ : SchedulerStats
}.

Definition new (per_worker_instances : list (list InstanceRef)) (num_workers : Z) : t :=
  {| per_worker_ := per_worker_instances; num_workers_ := num_workers;
     stats_ := mkSchedulerStats 0 0 0 0 |}.

Definition with_stats (s : t) (st : SchedulerStats) : t :=
  {| per_worker_ := per_worker_ s; num_workers_ := num_workers_ s; stats_ := st |}.

Definition first_ready (ready : InstanceRef -> bool) (l : list InstanceRef)
  : option InstanceRef :=
  List.find ready l.

(** The stealing loop over the victims drawn, one per attempt. *)
Fixpoint steal (ready : InstanceRef -> bool) (worker_id : Z)
    (per_worker : list (list InstanceRef)) (victims : list Z) : option InstanceRef :=
  match victims with
  | [] => None
  | victim :: rest =>
      if victim =? worker_id then steal ready worker_id per_worker rest
      else
        match first_ready ready (per_worker !!! Z.to_nat victim) with
        | Some instance => Some instance
        | None => steal ready worker_id per_worker rest
        end
  end.

(** [next (worker_id)]; [victims] are the [num_workers_] draws of the
    generator. *)
Definition next (ready : InstanceRef -> bool) (victims : list Z) (worker_id : Z) (s : t)
  : option InstanceRef * t :=
  let stats1 := count_scheduled (stats_ s) in
  match first_ready ready (per_worker_ s !!! Z.to_nat worker_id) with
  | Some instance => (Some instance, with_stats s stats1)
  | None =>
      match steal ready worker_id (per_worker_ s)
              (take (Z.to_nat (num_workers_ s)) victims) with
      | Some instance => (Some instance, with_stats s (count_stolen stats1))
      | None => (None, with_stats s (count_idle stats1))
      end
  end.

End WorkStealingScheduler.

(** What the statistics of a scheduler are claimed to do over one call of
    [next] that takes them from [s] to [s'] and returns [r]: one more call
    scheduled, and one more idle cycle exactly when nothing is returned. *)
Definition next_counts (s s' : SchedulerStats) (r : option InstanceRef) : Prop :=
  total_scheduled s' = incr64 (total_scheduled s) /\
  idle_cycles s' = match r with
                   | None => incr64 (idle_cycles s)
                   | Some _ => idle_cycles s
                   end.

Inductive Scheduler : Type :=
| SchedRoundRobin (s : RoundRobinScheduler.t)
| SchedWorkStealing (s : WorkStealingScheduler.t).

Module SchedulerFactory.

(** [per_worker[i % num_workers].push_back(instances[i])] for [i] from
    [from] on. *)
Fixpoint distribute (num_workers : Z) (from : Z) (instances : list InstanceRef)
    (per_worker : list (list InstanceRef)) : list (list InstanceRef) :=
  match instances with
  | [] => per_worker
  | inst :: rest =>
      let w := Z.to_nat (from mod num_workers) in
      distribute num_workers (from + 1) rest
        (<[w := (per_worker !!! w) ++ [inst]]> per_worker)
  end.

Definition create (policy : SchedulingPolicy) (instances : list InstanceRef)
    (num_workers : Z) : Scheduler :=
  match policy with
  | RoundRobin => SchedRoundRobin (RoundRobinScheduler.new instances)
  | WorkStealing =>
      SchedWorkStealing
        (WorkStealingScheduler.new
           (distribute num_workers 0 instances (replicate (Z.to_nat num_workers) []))
           num_workers)
  | _ => SchedRoundRobin (RoundRobinScheduler.new instances)
  end.

End SchedulerFactory.

(** ** The worker pool ([worker_pool.hpp]) *)

(** A worker, as far as the caller of [start] and [stop] sees it: its
    [running_] flag and whether its thread is alive. *)
Record Worker : Type := mkWorker {
  worker_id : Z;
  worker_running : bool;
  worker_thread : bool
}.

Module WorkerPool.

Record t : Type := mk {
  num_workers_ : Z;
  policy_ : SchedulingPolicy;
  workers_ : list Worker;
  running_ : bool
}.

(** The constructor; [hw] is [std::thread::hardware_concurrency()]. *)
Definition new (num_workers : Z) (policy : SchedulingPolicy) (hw : Z) : t :=
  {| num_workers_ :=
       if num_workers =? 0 then (if hw =? 0 then 4 else hw) else num_workers;
     policy_ := policy; workers_ := []; running_ := false |}.

Definition init (p : t) : t :=
  {| num_workers_ := num_workers_ p; policy_ := policy_ p;
     workers_ := workers_ p ++
                 ((fun i => mkWorker i false false) <$> seqZ 0 (num_workers_ p));
     running_ := running_ p |}.

Definition start (p : t) : t :=
  {| num_workers_ := num_workers_ p; policy_ := policy_ p;
     workers_ := (fun w => mkWorker (worker_id w) true true) <$> workers_ p;
     running_ := true |}.

(** [stop]: the flags are cleared and the threads joined. *)
Definition stop (p : t) : t :=
  if running_ p then
    {| num_workers_ := num_workers_ p; policy_ := policy_ p;
       workers_ := (fun w => mkWorker (worker_id w) false false) <$> workers_ p;
       running_ := false |}
  else p.

End WorkerPool.

(** ** The runtime ([runtime.hpp], [runtime.cpp]) *)

Record RuntimeConfig : Type := mkRuntimeConfig {
  num_workers : Z;
  default_queue_capacity : Z;
  scheduling_policy : SchedulingPolicy;
  enable_metrics : bool;
  metrics_interval : Z
}.

Definition RuntimeConfig_default : RuntimeConfig :=
  {| num_workers := 0; default_queue_capacity := 4096;
     scheduling_policy := RoundRobin; enable_metrics := true;
     metrics_interval := 1000 |}.

Module RuntimeState.
Inductive t : Type := Created | Initialized | Running | ShuttingDown | Stopped.

Definition eqb (a b : t) : bool :=
  match a, b with
  | Created, Created | Initialized, Initialized | Running, Running
  | ShuttingDown, ShuttingDown | Stopped, Stopped => true
  | _, _ => false
  end.
End RuntimeState.

Record Edge : Type := mkEdge {
  from_operator : string;
  to_operator : string;
  queue_capacity : Z
}.

Module StreamGraphBuilder.

(** [operators_] is a [std::unordered_map] keyed by operator name. *)
Record t : Type := mk {
  operators_ : gmap string Operator.t;
  edges_ : list Edge;
  sources_ : list string;
  sinks_ : list string
}.

Definition new : t :=
  {| operators_ := ∅; edges_ := []; sources_ := []; sinks_ := [] |}.

Definition add_operator (op : Operator.t) (b : t) : t :=
  {| operators_ := <[Operator.name_ op := op]> (operators_ b);
     edges_ := edges_ b; sources_ := sources_ b; sinks_ := sinks_ b |}.

Definition add_source (source : Operator.t) (b : t) : t :=
  {| operators_ := <[Operator.name_ source := source]> (operators_ b);
     edges_ := edges_ b; sources_ := sources_ b ++ [Operator.name_ source];
     sinks_ := sinks_ b |}.

Definition add_sink (sink : Operator.t) (b : t) : t :=
  {| operators_ := <[Operator.name_ sink := sink]> (operators_ b);
     edges_ := edges_ b; sources_ := sources_ b;
     sinks_ := sinks_ b ++ [Operator.name_ sink] |}.

(** [connect (from, to, queue_capacity = 4096)]. *)
Definition connect (from to : string) (queue_capacity : Z) (b : t) : t :=
  {| operators_ := operators_ b;
     edges_ := edges_ b ++ [mkEdge from to queue_capacity];
     sources_ := sources_ b; sinks_ := sinks_ b |}.


End StreamGraphBuilder.

(** The counters of the metrics collector the runtime owns. *)
Record MetricsCollector : Type := mkMetricsCollector {
  events_processed_ : Z;
  events_dropped_ : Z;
  backpressure_ : Z
}.

Module Runtime.

(** A [SourceOperator*] is the index of the instance that owns the
    operator; a source thread is represented by the source it serves. *)
Record t : Type := mk {
  config_ : RuntimeConfig;
  state_ : RuntimeState.t;
  instances_ : list OperatorInstance.t;
  queues_ : QueueStore;
  source_operators_ : list InstanceRef;
  source_threads_ : list InstanceRef;
  scheduler_ : option Scheduler;
  worker_pool_ : option WorkerPool.t;
  metrics_ : MetricsCollector;
  running_ : bool
}.

(** How a call on the runtime ends: it returns, it throws
    [std::runtime_error (what)], or the caller waits for other threads.  The
    runtime is given as the call leaves it. *)
Inductive Outcome : Type :=
| Returned (rt : t)
| Threw (what : string) (rt : t)
| Waits (rt : t).

(** [Runtime (RuntimeConfig config)]. *)
Definition new (config : RuntimeConfig) : t :=
  {| config_ := config; state_ := RuntimeState.Created; instances_ := [];
     queues_ := []; source_operators_ := []; source_threads_ := [];
     scheduler_ := None; worker_pool_ := None;
     metrics_ := mkMetricsCollector 0 0 0; running_ := false |}.

(** The tables [init] builds while it walks the edges. *)
Record Wiring : Type := mkWiring {
  w_queues : QueueStore;
  output_queues : gmap string (list QueueRef);
  input_queues : gmap string QueueRef
}.

(** One turn of the loop over the edges:
      auto queue = std::make_shared<Queue>();
      queues_.push_back(queue);
      output_queues[edge.from_operator].push_back(queue);
      input_queues[edge.to_operator] = queue;                            *)
Definition add_edge (now : Timestamp) (w : Wiring) (edge : Edge) : Wiring :=
  let queue : QueueRef := length (w_queues w) in
  {| w_queues := w_queues w ++ [BQ.BoundedQueue_new Queue_Capacity now];
     output_queues :=
       <[from_operator edge :=
           default [] (output_queues w !! from_operator edge) ++ [queue]]>
         (output_queues w);
     input_queues := <[to_operator edge := queue]> (input_queues w) |}.

Definition wire_edges (now : Timestamp) (edges : list Edge) (queues : QueueStore)
  : Wiring :=
  fold_left (add_edge now) edges
    {| w_queues := queues; output_queues := ∅; input_queues := ∅ |}.

(** The instance [init] builds for the operator [op] stored under [name]. *)
Definition make_instance (w : Wiring) (name : string) (op : Operator.t)
  : OperatorInstance.t :=
  let input := input_queues w !! name in
  let instance := OperatorInstance.new op input 0 in
  let outs := default [] (output_queues w !! name) in
  OperatorInstance.with_context instance
    (fold_left (fun ctx out_queue => OperatorContext.add_output out_queue ctx)
       outs (OperatorInstance.context_ instance)).

(** What the loop over the operators accumulates. *)
Record Built : Type := mkBuilt {
  b_instances : list OperatorInstance.t;
  b_sources : list InstanceRef;
  b_all : list InstanceRef
}.

Definition add_instance (w : Wiring) (acc : Built) (entry : string * Operator.t)
  : Built :=
  let '(name, op) := entry in
  let this : InstanceRef := length (b_instances acc) in
  {| b_instances := b_instances acc ++ [make_instance w name op];
     b_sources :=
       match Operator.kind op with
       | IsSource => b_sources acc ++ [this]
       | _ => b_sources acc
       end;
     b_all := b_all acc ++ [this] |}.

(** [init (builder)].  The operators are visited in the order the map
    enumerates them; [hw] is the hardware concurrency and [now] the clock
    reading at which the queues are constructed. *)
Definition init (builder : StreamGraphBuilder.t) (hw : Z) (now : Timestamp) (rt : t)
  : Outcome :=
  if negb (RuntimeState.eqb (state_ rt) RuntimeState.Created) then
    Threw "Runtime already initialized" rt
  else
    let w := wire_edges now (StreamGraphBuilder.edges_ builder) (queues_ rt) in
    let built :=
      fold_left (add_instance w) (map_to_list (StreamGraphBuilder.operators_ builder))
        {| b_instances := instances_ rt; b_sources := source_operators_ rt;
           b_all := [] |} in
    let n0 := num_workers (config_ rt) in
    let n := if n0 =? 0 then (if hw =? 0 then 4 else hw) else n0 in
    let policy := scheduling_policy (config_ rt) in
    let scheduler := SchedulerFactory.create policy (b_all built) n in
    let pool := WorkerPool.init (WorkerPool.new n policy hw) in
    let instances :=
      (fun i => OperatorInstance.with_operator i
                  (Operator.init (OperatorInstance.context_ i)
                     (OperatorInstance.operator_ i)))
        <$> b_instances built in
    Returned
      {| config_ := config_ rt; state_ := RuntimeState.Initialized;
         instances_ := instances; queues_ := w_queues w;
         source_operators_ := b_sources built;
         source_threads_ := source_threads_ rt;
         scheduler_ := Some scheduler; worker_pool_ := Some pool;
         metrics_ := metrics_ rt; running_ := running_ rt |}.

(** [start ()]: one thread is spawned for every source. *)
Definition start (rt : t) : Outcome :=
  if negb (RuntimeState.eqb (state_ rt) RuntimeState.Initialized) then
    Threw "Runtime not initialized" rt
  else
    Returned
      {| config_ := config_ rt; state_ := RuntimeState.Running;
         instances_ := instances_ rt; queues_ := queues_ rt;
         source_operators_ := source_operators_ rt;
         source_threads_ := source_threads_ rt ++ source_operators_ rt;
         scheduler_ := scheduler_ rt;
         worker_pool_ := WorkerPool.start <$> worker_pool_ rt;
         metrics_ := metrics_ rt; running_ := true |}.

(** [source->request_stop ()] for every source. *)
Definition request_stops (sources : list InstanceRef)
    (instances : list OperatorInstance.t) : list OperatorInstance.t :=
  fold_left
    (fun insts src =>
       match insts !! src with
       | Some i =>
           <[src := OperatorInstance.with_operator i
                      (Operator.request_stop (OperatorInstance.operator_ i))]> insts
       | None => insts
       end)
    sources instances.

(** The first part of [stop]: the state moves to [ShuttingDown], the sources
    are told to stop and their threads joined. *)
Definition stop_sources (rt : t) : t :=
  {| config_ := config_ rt; state_ := RuntimeState.ShuttingDown;
     instances_ := request_stops (source_operators_ rt) (instances_ rt);
     queues_ := queues_ rt; source_operators_ := source_operators_ rt;
     source_threads_ := [];
     scheduler_ := scheduler_ rt; worker_pool_ := worker_pool_ rt;
     metrics_ := metrics_ rt; running_ := running_ rt |}.

(** The test of [drain_queues]: some queue is not empty. *)
Definition has_work (rt : t) : bool :=
  existsb (fun q => negb (BQ.empty q)) (queues_ rt).

(** The last part of [stop], after the drain. *)
Definition stop_finish (rt : t) : t :=
  {| config_ := config_ rt; state_ := RuntimeState.Stopped;
     instances_ :=
       (fun i => OperatorInstance.with_operator i
                   (Operator.shutdown (OperatorInstance.context_ i)
                      (OperatorInstance.operator_ i)))
         <$> instances_ rt;
     queues_ := BQ.close <$> queues_ rt;
     source_operators_ := source_operators_ rt;
     source_threads_ := source_threads_ rt;
     scheduler_ := scheduler_ rt;
     worker_pool_ := WorkerPool.stop <$> worker_pool_ rt;
     metrics_ := metrics_ rt; running_ := false |}.

(** [stop ()].  While a queue holds events [drain_queues] sleeps and polls
    again; the queues are emptied by the workers, so the caller waits. *)
Definition stop (rt : t) : Outcome :=
  if negb (RuntimeState.eqb (state_ rt) RuntimeState.Running) then
    Returned rt
  else
    let rt1 := stop_sources rt in
    if has_work rt1 then Waits rt1 else Returned (stop_finish rt1).

End Runtime.

(** ** Runs of calls by one thread *)

(** The calls [push (e)] for the events of [l] in turn; the run ends when a
    call has to wait. *)
Fixpoint push_all (Capacity : Z) (l : list Event) (q : BoundedQueue)
  : list bool * BoundedQueue :=
  match l with
  | [] => ([], q)
  | e :: l' =>
      match BQ.push Capacity e q with
      | Done r q' => let '(rs, q'') := push_all Capacity l' q' in (r :: rs, q'')
      | Parked q' => ([], q')
      end
  end.

(** The calls [try_push (e)] for the events of [l] in turn. *)
Fixpoint try_push_all (Capacity : Z) (l : list Event) (q : BoundedQueue)
  : list bool * BoundedQueue :=
  match l with
  | [] => ([], q)
  | e :: l' =>
      let '(r, q') := BQ.try_push Capacity e q in
      let '(rs, q'') := try_push_all Capacity l' q' in
      (r :: rs, q'')
  end.


(** ** Outputs of a context, seen through the store *)

(** The output [o] is a queue of the store that is not closed. *)
Definition is_open (st : QueueStore) (o : QueueRef) : bool :=
  match st !! o with
  | Some q => negb (closed_ q)
  | None => false
  end.

(** The output [o] is a queue of the store that is neither closed nor
    full: a [try_push] on it succeeds. *)
Definition has_room (st : QueueStore) (o : QueueRef) : bool :=
  match st !! o with
  | Some q => negb (closed_ q) && negb (BQ.full Queue_Capacity q)
  | None => false
  end.

(** How many of the outputs satisfy [p]. *)
Fixpoint count_outputs (p : QueueRef -> bool) (outs : list QueueRef) : Z :=
  match outs with
  | [] => 0
  | o :: rest => (if p o then 1 else 0) + count_outputs p rest
  end.

(** The output [o] is a queue of the store that is not full. *)
Definition not_full (st : QueueStore) (o : QueueRef) : Prop :=
  exists q, st !! o = Some q /\ BQ.full Queue_Capacity q = false.

(** The store after one completed [push (e)] on each of the outputs. *)
Definition pushed (e : Event) (st : QueueStore) (outs : list QueueRef) : QueueStore :=
  fold_left
    (fun st o =>
       match st !! o with
       | Some q => <[o := step_state (BQ.push Queue_Capacity e q)]> st
       | None => st
       end)
    outs st.

(** The store after one [try_push (e)] on each of the outputs. *)
Definition try_pushed (e : Event) (st : QueueStore) (outs : list QueueRef) : QueueStore :=
  fold_left
    (fun st o =>
       match st !! o with
       | Some q => <[o := snd (BQ.try_push Queue_Capacity e q)]> st
       | None => st
       end)
    outs st.


(** A full queue of the runtime's capacity: 4096 events waiting. *)
Definition full_queue_4096 : BoundedQueue :=
  mkBoundedQueue (replicate 4096 (Event_default 0)) 0 0 4096 false
    (mkQueueStats 4096 0 0 0 4096 0 4096).

(** ** The filter operator and the stock predicates ([filter.hpp]) *)

Module FilterOperator.

(** The predicate, by the branch of [if constexpr] it selects: on the
    event, or on its payload. *)
Inductive Predicate : Type :=
| PredEvent (p : Event -> bool)
| PredPayload (p : Payload -> bool).

Record t : Type := mk {
  base : Operator.t;
  predicate_ : Predicate
}.

Definition make_filter (name : string) (pred : Predicate) : t :=
  {| base := Operator.new name IsOther; predicate_ := pred |}.

Definition with_base (op : t) (b : Operator.t) : t :=
  {| base := b; predicate_ := predicate_ op |}.

(** [Operator::record_dropped]. *)
Definition record_dropped (op : Operator.t) : Operator.t :=
  let s := Operator.stats_ op in
  Operator.set_stats op
    (mkOperatorStats (events_received s) (events_emitted s)
       (incr64 (events_dropped s)) (processing_time_ns s) (backpressure_events s)).

Definition passes (pred : Predicate) (event : Event) : bool :=
  match pred with
  | PredEvent p => p event
  | PredPayload p => p (payload event)
  end.

Definition process (clk : Clock) (event : Event) (ctx : OperatorContext.t)
    (st : QueueStore) (op : t) : ProcessOutcome t :=
  let b := Operator.record_received (base op) in
  if passes (predicate_ op) event then
    match OperatorContext.emit event ctx st with
    | EmitReturned _ pushes st' =>
        ProcessReturned
          (with_base op (FunctionOperator.finish clk (Operator.record_emitted b)))
          pushes st'
    | EmitParked count pending pushes st' =>
        ProcessParked (with_base op b) count pending pushes st'
    | EmitFault => ProcessFault
    end
  else
    ProcessReturned (with_base op (FunctionOperator.finish clk (record_dropped b)))
      [] st.

(** [make_int_filter (name, pred)]. *)
Definition make_int_filter (name : string) (pred : Z -> bool) : t :=
  make_filter name
    (PredPayload (fun p => match p with PInt val => pred val | _ => false end)).

End FilterOperator.

Module filters.

(** [*val % 2] is the remainder of the division that truncates. *)
Definition even (p : Payload) : bool :=
  match p with
  | PInt val => Z.rem val 2 =? 0
  | _ => false
  end.

Definition odd (p : Payload) : bool :=
  match p with
  | PInt val => negb (Z.rem val 2 =? 0)
  | _ => false
  end.

Definition positive (p : Payload) : bool :=
  match p with
  | PInt val => 0 <? val
  | PDouble val => SFltb (S754_zero false) val
  | _ => false
  end.

Definition negative (p : Payload) : bool :=
  match p with
  | PInt val => val <? 0
  | PDouble val => SFltb val (S754_zero false)
  | _ => false
  end.

End filters.

(** [make_int_map (name, func)] of [map.hpp]; [func] maps [std::int64_t]
    to [std::int64_t]. *)
Definition make_int_map (name : string) (func : Z -> Z) : MapOperator.t :=
  MapOperator.make_map name
    (MapOperator.MapPayload
       (fun p => match p with PInt val => PInt (func val) | _ => p end)).


(** The store [st'] is [st] with the event [e] delivered to the outputs:
    every output that is open in [st] holds [e] after the events it held,
    every closed one holds what it held. *)
Definition delivered (e : Event) (outs : list QueueRef) (st st' : QueueStore) : Prop :=
  forall o q,
    o ∈ outs -> st !! o = Some q -> wf Queue_Capacity q ->
    exists q', st' !! o = Some q' /\
               contents Queue_Capacity q'
               = contents Queue_Capacity q ++ (if closed_ q then [] else [e]).

(** The record of pushes of a completed [emit]: one push per output, in
    the order of declaration, accepted where the queue is open. *)
Definition pushes_in_order (outs : list QueueRef) (st : QueueStore)
  : list (QueueRef * bool) :=
  (fun o => (o, is_open st o)) <$> outs.


(** A context with one output, and a store in which that output is a fresh
    queue. *)
Definition one_output_ctx : OperatorContext.t := OperatorContext.mk "op" 0 [0%nat].
Definition one_queue_store : QueueStore := [BQ.BoundedQueue_new Queue_Capacity 0].

(** An event that carries 5, with a key, a sequence number and a source. *)
Definition keyed_event : Event :=
  mkEvent (PInt 5) (mkEventMetadata (Some 7) (Some 3) 100 (Some "src")).


(** ** Runs of the aggregating sink *)

(** [consume] on each event of a list in turn. *)
Definition consume_all (events : list Event) (s : AggregatingSink.t)
  : AggregatingSink.t :=
  fold_left (fun s e => AggregatingSink.consume e s) events s.

(** Events that carry the integers of a list, with any metadata. *)
Definition int_events (l : list (Z * EventMetadata)) : list Event :=
  (fun vm => mkEvent (PInt vm.1) vm.2) <$> l.

(** The sum of a list of integers. *)
Definition total (vs : list Z) : Z := foldr Z.add 0 vs.


(** ** Statements about the schedulers *)

(** The instance a round-robin scan probes [j] steps after the cursor
    [pos]. *)
Definition probe (instances : list InstanceRef) (pos : Z) (j : nat) : InstanceRef :=
  instances !!! Z.to_nat ((pos + Z.of_nat j) mod Z.of_nat (length instances)).

(** The instances at the positions [j] of a list with
    [(from + j) mod num_workers = w], in order: the partition of worker [w]. *)
Fixpoint picks (num_workers from : Z) (instances : list InstanceRef) (w : Z)
  : list InstanceRef :=
  match instances with
  | [] => []
  | inst :: rest =>
      if from mod num_workers =? w
      then inst :: picks num_workers (from + 1) rest w
      else picks num_workers (from + 1) rest w
  end.


(** ** Statements about the wiring of a graph *)

(** The handles of the queues of the edges that leave [name], in the order
    of the edges; the queue of the first edge of the list has handle
    [base]. *)
Fixpoint edges_from (name : string) (edges : list Edge) (base : nat) : list QueueRef :=
  match edges with
  | [] => []
  | edge :: rest =>
      if bool_decide (from_operator edge = name)
      then base :: edges_from name rest (S base)
      else edges_from name rest (S base)
  end.

(** The handle of the queue of the last edge that enters [name], if any. *)
Fixpoint last_edge_to (name : string) (edges : list Edge) (base : nat) : option QueueRef :=
  match edges with
  | [] => None
  | edge :: rest =>
      match last_edge_to name rest (S base) with
      | Some r => Some r
      | None => if bool_decide (to_operator edge = name) then Some base else None
      end
  end.

(** The instance of the operator [op] stored under [name], for a graph
    with the edges [edges] wired into an empty store. *)
Definition wired_instance (edges : list Edge) (entry : string * Operator.t)
  : OperatorInstance.t :=
  OperatorInstance.mk entry.2 (last_edge_to entry.1 edges 0)
    (OperatorContext.mk (Operator.name_ entry.2) 0 (edges_from entry.1 edges 0)).

(** The positions, counted from [base], of the source operators among the
    entries. *)
Fixpoint source_positions (entries : list (string * Operator.t)) (base : nat)
  : list InstanceRef :=
  match entries with
  | [] => []
  | entry :: rest =>
      match Operator.kind entry.2 with
      | IsSource => base :: source_positions rest (S base)
      | _ => source_positions rest (S base)
      end
  end.

(** The builder with the capacity of every edge replaced. *)
Definition with_capacities (f : Edge -> Z) (b : StreamGraphBuilder.t)
  : StreamGraphBuilder.t :=
  StreamGraphBuilder.mk (StreamGraphBuilder.operators_ b)
    ((fun e => mkEdge (from_operator e) (to_operator e) (f e))
       <$> StreamGraphBuilder.edges_ b)
    (StreamGraphBuilder.sources_ b) (StreamGraphBuilder.sinks_ b).

(** The configuration with another default queue capacity. *)
Definition with_default_capacity (d : Z) (c : RuntimeConfig) : RuntimeConfig :=
  mkRuntimeConfig (num_workers c) d (scheduling_policy c) (enable_metrics c)
    (metrics_interval c).

(** The worker count [init] settles on. *)
Definition resolved_workers (c : RuntimeConfig) (hw : Z) : Z :=
  if num_workers c =? 0 then (if hw =? 0 then 4 else hw) else num_workers c.




(** The instance with its source told to stop. *)
Definition stop_requested (i : OperatorInstance.t) : OperatorInstance.t :=
  OperatorInstance.with_operator i
    (Operator.request_stop (OperatorInstance.operator_ i)).


(** ** The sequence source ([source.hpp]) and the source thread *)

(** How a call of [generate] ends: it returns a flag, or the caller waits
    inside [emit]. *)
Inductive GenerateOutcome (Src : Type) : Type :=
| GenerateReturned (continue : bool) (src : Src)
    (pushes : list (QueueRef * bool)) (st : QueueStore)
| GenerateParked (src : Src) (count : Z) (pending : list QueueRef)
    (pushes : list (QueueRef * bool)) (st : QueueStore)
| GenerateFault.
Arguments GenerateReturned {Src} continue src pushes st.
Arguments GenerateParked {Src} src count pending pushes st.
Arguments GenerateFault {Src}.

Module SequenceSource.

Record Config : Type := mkConfig {
  start : Z;
  step : Z;
  count : Z;
  delay : Z
}.

(** The default configuration: [count] is the largest [std::uint64_t]. *)
Definition Config_default : Config :=
  {| start := 0; step := 1; count := 2 ^ 64 - 1; delay := 0 |}.

Record t : Type := mk {
  base : Operator.t;
  config_ : Config;
  current_ : Z;
  generated_ : Z
}.

Definition new (name : string) (config : Config) : t :=
  {| base := Operator.new name IsSource; config_ := config;
     current_ := start config; generated_ := 0 |}.

(** [Operator::record_backpressure]. *)
Definition record_backpressure (op : Operator.t) : Operator.t :=
  let s := Operator.stats_ op in
  Operator.set_stats op
    (mkOperatorStats (events_received s) (events_emitted s) (events_dropped s)
       (processing_time_ns s) (incr64 (backpressure_events s))).

Definition should_stop (src : t) : bool := Operator.stop_requested_ (base src).

Definition request_stop (src : t) : t :=
  {| base := Operator.request_stop (base src); config_ := config_ src;
     current_ := current_ src; generated_ := generated_ src |}.

(** [generate (ctx)]; [now] is the clock reading at which the event is
    constructed.  The event carries [current_] and has [generated_] as its
    key.  [current_ += step] is the two's complement sum.  The optional
    sleep between events has no effect on the state. *)
Definition generate (now : Timestamp) (ctx : OperatorContext.t) (st : QueueStore)
    (src : t) : GenerateOutcome t :=
  if should_stop src || (count (config_ src) <=? generated_ src) then
    GenerateReturned false src [] st
  else
    let event := Event_of_payload_key (PInt (current_ src)) (generated_ src) now in
    match OperatorContext.emit event ctx st with
    | EmitReturned n pushes st' =>
        if 0 <? n then
          GenerateReturned true
            {| base := Operator.record_emitted (base src); config_ := config_ src;
               current_ := wrap_s64 (current_ src + step (config_ src));
               generated_ := incr64 (generated_ src) |}
            pushes st'
        else
          GenerateReturned true
            {| base := record_backpressure (base src); config_ := config_ src;
               current_ := current_ src; generated_ := generated_ src |}
            pushes st'
    | EmitParked n pending pushes st' => GenerateParked src n pending pushes st'
    | EmitFault => GenerateFault
    end.

End SequenceSource.

(** How far the loop of a source thread has come after a number of turns:
    it has ended, it is still going, or the thread waits inside [emit]. *)
Inductive LoopOutcome : Type :=
| LoopEnded (src : SequenceSource.t) (st : QueueStore) (metrics : MetricsCollector)
| LoopGoing (src : SequenceSource.t) (st : QueueStore) (metrics : MetricsCollector)
| LoopParked (src : SequenceSource.t) (st : QueueStore) (metrics : MetricsCollector)
| LoopFault.

(** [events_processed ().increment ()]. *)
Definition count_processed (m : MetricsCollector) : MetricsCollector :=
  mkMetricsCollector (incr64 (events_processed_ m)) (events_dropped_ m)
    (backpressure_ m).

(** At most [turns] more turns of the loop of the thread [run_sources]
    starts for a source, while the runtime runs:
      while (running_ && !source->should_stop ()) {
        if (!source->generate (ctx)) break;
        metrics_->events_processed ().increment ();
      }
    [done] turns have been made before; [clock i] is the clock reading in
    turn [i]. *)
Fixpoint source_loop (turns : nat) (done : nat) (clock : nat -> Timestamp)
    (ctx : OperatorContext.t) (st : QueueStore) (metrics : MetricsCollector)
    (src : SequenceSource.t) : LoopOutcome :=
  match turns with
  | O => LoopGoing src st metrics
  | S turns' =>
      if SequenceSource.should_stop src then LoopEnded src st metrics
      else
        match SequenceSource.generate (clock done) ctx st src with
        | GenerateReturned false src' _ st' => LoopEnded src' st' metrics
        | GenerateReturned true src' _ st' =>
            source_loop turns' (S done) clock ctx st' (count_processed metrics) src'
        | GenerateParked src' _ _ _ st' => LoopParked src' st' metrics
        | GenerateFault => LoopFault
        end
  end.

(** The event a sequence source emits as its [i]-th. *)
Definition sequence_event (config : SequenceSource.Config) (now : Timestamp) (i : Z)
  : Event :=
  Event_of_payload_key
    (PInt (wrap_s64 (SequenceSource.start config + i * SequenceSource.step config)))
    i now.


(** Every queue of [st] is in [st'] at the same place with the same ring,
    positions, size and closed flag: at most the statistics differ. *)
Definition only_counted (st st' : QueueStore) : Prop :=
  forall o q, st !! o = Some q -> exists q', st' !! o = Some q' /\ same_ring q q'.

(** Every output is a closed queue of the store. *)
Definition all_closed (st : QueueStore) (outs : list QueueRef) : Prop :=
  forall o, o ∈ outs -> exists q, st !! o = Some q /\ closed_ q = true.


(** * Properties *)

(** ** Machine integers *)

Lemma wrap64_small x : 0 <= x < 2 ^ 64 -> wrap64 x = x.
Proof. intros H. unfold wrap64. now apply Z.mod_small. Qed.

Lemma incr64_small x : 0 <= x < 2 ^ 64 - 1 -> incr64 x = x + 1.
Proof. intros H. unfold incr64. apply wrap64_small. lia. Qed.

Lemma decr64_small x : 0 < x < 2 ^ 64 -> decr64 x = x - 1.
Proof. intros H. unfold decr64. apply wrap64_small. lia. Qed.

Lemma wrap_s64_small x : in_int64 x -> wrap_s64 x = x.
Proof.
  unfold in_int64, int64_min, int64_max, wrap_s64. intros H.
  rewrite Z.mod_small; lia.
Qed.

(** An increment always changes the counter. *)
Lemma incr64_neq x : incr64 x <> x.
Proof.
  unfold incr64, wrap64. intros H.
  assert (Hr : 0 <= x < 2 ^ 64) by (rewrite <- H; apply Z.mod_pos_bound; lia).
  destruct (Z.eq_dec x (2 ^ 64 - 1)) as [-> | Hne].
  - vm_compute in H. discriminate.
  - rewrite Z.mod_small in H; lia.
Qed.

(** ** The bounded queue *)

Section QueueFacts.

Variable Capacity : Z.
Variable k : Z.
(** The two static assertions of the class, for a [std::size_t] capacity. *)
Hypothesis k_range : 0 <= k < 64.
Hypothesis Capacity_pow2 : Capacity = 2 ^ k.

Lemma Capacity_pos : 0 < Capacity.
Proof. rewrite Capacity_pow2. apply Z.pow_pos_nonneg; lia. Qed.

Lemma Capacity_lt : Capacity < 2 ^ 64.
Proof. rewrite Capacity_pow2. apply Z.pow_lt_mono_r; lia. Qed.

(** Masking with [Capacity - 1] is the remainder modulo [Capacity]. *)
Lemma land_mask x : Z.land x (Capacity - 1) = x mod Capacity.
Proof.
  rewrite Capacity_pow2.
  replace (2 ^ k - 1) with (Z.ones k) by (rewrite Z.ones_equiv; lia).
  apply Z.land_ones. lia.
Qed.

Lemma new_size_ok now : size_ok Capacity (BQ.BoundedQueue_new Capacity now).
Proof. pose proof Capacity_pos. unfold size_ok; simpl. lia. Qed.

Lemma new_stats_ok now : stats_ok (BQ.BoundedQueue_new Capacity now).
Proof. unfold stats_ok; simpl. lia. Qed.

(** What a store does to the size and to the statistics. *)
Lemma store_event_stats e q :
  size_ok Capacity q -> size_ q <> Capacity ->
  let q' := BQ.store_event Capacity e q in
  size_ q' = size_ q + 1 /\
  current_size (stats_ q') = size_ q' /\
  high_watermark (stats_ q') = Z.max (high_watermark (stats_ q)) (size_ q').
Proof.
  intros Hs Hne. pose proof Capacity_lt.
  unfold size_ok in Hs. unfold BQ.store_event. cbn [size_ stats_].
  rewrite incr64_small by lia.
  destruct (Z.ltb_spec (high_watermark (stats_ q)) (size_ q + 1)); simpl; lia.
Qed.

Lemma take_event_stats q :
  size_ok Capacity q -> size_ q <> 0 ->
  let q' := snd (BQ.take_event Capacity q) in
  size_ q' = size_ q - 1 /\
  current_size (stats_ q') = size_ q' /\
  high_watermark (stats_ q') = high_watermark (stats_ q).
Proof.
  intros Hs Hne. pose proof Capacity_lt.
  unfold size_ok in Hs. unfold BQ.take_event. cbn [snd size_ stats_].
  rewrite decr64_small by lia. simpl. lia.
Qed.

Lemma step_ok_store e q q0 :
  size_ok Capacity q -> stats_ok q -> size_ q <> Capacity ->
  size_ q0 = size_ q -> high_watermark (stats_ q0) = high_watermark (stats_ q) ->
  step_ok Capacity q0 (BQ.store_event Capacity e q).
Proof.
  intros Hs [Hc Hw] Hne H1 H2.
  destruct (store_event_stats e q Hs Hne) as (Ha & Hb & Hd).
  unfold step_ok, size_ok, stats_ok in *. rewrite H2. lia.
Qed.

Lemma step_ok_take q q0 :
  size_ok Capacity q -> stats_ok q -> size_ q <> 0 ->
  high_watermark (stats_ q0) = high_watermark (stats_ q) ->
  step_ok Capacity q0 (snd (BQ.take_event Capacity q)).
Proof.
  intros Hs [Hc Hw] Hne H2.
  destruct (take_event_stats q Hs Hne) as (Ha & Hb & Hd).
  unfold step_ok, size_ok, stats_ok in *. rewrite H2. lia.
Qed.

Lemma step_ok_same q q' :
  size_ok Capacity q -> stats_ok q ->
  size_ q' = size_ q -> current_size (stats_ q') = current_size (stats_ q) ->
  high_watermark (stats_ q') = high_watermark (stats_ q) ->
  step_ok Capacity q q'.
Proof.
  intros Hs [Hc Hw] H1 H2 H3.
  unfold step_ok, size_ok, stats_ok in *. lia.
Qed.

Ltac same_step := apply step_ok_same; [assumption | assumption | reflexivity ..].

Lemma apply_op_ok op q :
  size_ok Capacity q -> stats_ok q -> step_ok Capacity q (apply_op Capacity op q).
Proof.
  intros Hs Hst.
  assert (Hcp : size_ok Capacity (count_push q) /\ stats_ok (count_push q))
    by (split; [exact Hs | exact Hst]).
  assert (Hcq : size_ok Capacity (count_pop q) /\ stats_ok (count_pop q))
    by (split; [exact Hs | exact Hst]).
  destruct Hcp as [Hsp Hstp], Hcq as [Hsq Hstq].
  destruct op as [e | e | e | e | e t | | | | | t | ]; cbn [apply_op].
  - unfold BQ.push, BQ.push_loop. cbn [size_ closed_ count_push set_stats].
    destruct (Z.eqb_spec (size_ q) Capacity) as [Hf | Hf];
      destruct (closed_ q); cbn [andb negb step_state]; try same_step.
    apply step_ok_store; auto.
  - unfold BQ.push_resume, BQ.push_loop.
    destruct (Z.eqb_spec (size_ q) Capacity) as [Hf | Hf];
      destruct (closed_ q); cbn [andb negb step_state]; try same_step.
    apply step_ok_store; auto.
  - unfold BQ.try_push.
    destruct (Z.eqb_spec (size_ q) Capacity) as [Hf | Hf];
      destruct (closed_ q); cbn [orb snd]; try same_step.
    apply step_ok_store; auto.
  - unfold BQ.push_for, BQ.push_for_pred, BQ.push_for_finish.
    cbn [size_ closed_ count_push set_stats].
    destruct (Z.ltb_spec (size_ q) Capacity) as [Hf | Hf];
      destruct (closed_ q); cbn [orb step_state]; try same_step.
    apply step_ok_store; auto. cbn. lia.
  - unfold BQ.push_for_wake, BQ.push_for_pred, BQ.push_for_finish.
    destruct (Z.ltb_spec (size_ q) Capacity) as [Hf | Hf];
      destruct (closed_ q); destruct t; cbn [orb step_state]; try same_step;
      apply step_ok_store; auto; lia.
  - unfold BQ.pop, BQ.pop_loop. cbn [size_ closed_ count_pop set_stats].
    destruct (Z.eqb_spec (size_ q) 0) as [Hf | Hf];
      destruct (closed_ q); cbn [andb negb step_state]; try same_step;
      destruct (BQ.take_event Capacity (count_pop q)) as [ev q'] eqn:E;
      cbn [step_state]; change q' with (snd (ev, q')); rewrite <- E;
      apply step_ok_take; auto.
  - unfold BQ.pop_resume, BQ.pop_loop.
    destruct (Z.eqb_spec (size_ q) 0) as [Hf | Hf];
      destruct (closed_ q); cbn [andb negb step_state]; try same_step;
      destruct (BQ.take_event Capacity q) as [ev q'] eqn:E;
      cbn [step_state]; change q' with (snd (ev, q')); rewrite <- E;
      apply step_ok_take; auto.
  - unfold BQ.try_pop.
    destruct (Z.eqb_spec (size_ q) 0) as [Hf | Hf]; cbn [snd]; try same_step.
    destruct (BQ.take_event Capacity (count_pop q)) as [ev q'] eqn:E;
      cbn [snd]; change q' with (snd (ev, q')); rewrite <- E;
      apply step_ok_take; auto.
  - unfold BQ.pop_for, BQ.pop_for_pred, BQ.pop_for_finish.
    cbn [size_ closed_ count_pop set_stats].
    destruct (Z.ltb_spec 0 (size_ q)) as [Hf | Hf];
      destruct (Z.eqb_spec (size_ q) 0) as [Hz | Hz];
      destruct (closed_ q); cbn [orb step_state]; try same_step; try lia;
      destruct (BQ.take_event Capacity (count_pop q)) as [ev q'] eqn:E;
      cbn [step_state]; change q' with (snd (ev, q')); rewrite <- E;
      apply step_ok_take; auto.
  - unfold BQ.pop_for_wake, BQ.pop_for_pred, BQ.pop_for_finish.
    destruct (Z.ltb_spec 0 (size_ q)) as [Hf | Hf];
      destruct (Z.eqb_spec (size_ q) 0) as [Hz | Hz];
      destruct (closed_ q); destruct t; cbn [orb step_state];
      try same_step; try lia;
      destruct (BQ.take_event Capacity q) as [ev q'] eqn:E;
      cbn [step_state]; change q' with (snd (ev, q')); rewrite <- E;
      apply step_ok_take; auto.
  - unfold BQ.close. same_step.
Qed.

Lemma max_size_seen_ge ops q : size_ q <= max_size_seen Capacity ops q.
Proof. destruct ops; simpl; lia. Qed.

Lemma run_ops_ok ops q :
  size_ok Capacity q -> stats_ok q ->
  size_ok Capacity (run_ops Capacity ops q) /\ stats_ok (run_ops Capacity ops q) /\
  high_watermark (stats_ (run_ops Capacity ops q))
  = Z.max (high_watermark (stats_ q)) (max_size_seen Capacity ops q).
Proof.
  revert q. induction ops as [| op ops IH]; intros q Hs Hst.
  - simpl. repeat split; try apply Hs; try apply Hst.
    destruct Hst as [_ Hw]. lia.
  - destruct (apply_op_ok op q Hs Hst) as (Hs1 & Hst1 & Hw1).
    destruct (IH _ Hs1 Hst1) as (Hs2 & Hst2 & Hw2).
    change (run_ops Capacity (op :: ops) q)
      with (run_ops Capacity ops (apply_op Capacity op q)).
    repeat split; try apply Hs2; try apply Hst2.
    rewrite Hw2, Hw1. cbn [max_size_seen].
    pose proof (max_size_seen_ge ops (apply_op Capacity op q)).
    destruct Hst as [_ Hw]. lia.
Qed.

Lemma run_ops_app ops more q :
  run_ops Capacity (ops ++ more) q = run_ops Capacity more (run_ops Capacity ops q).
Proof. unfold run_ops. apply fold_left_app. Qed.

(** C10.  Along every sequence of atomic steps from a fresh queue, taken by
    any number of threads, [high_watermark] never decreases, equals the
    largest size the queue has had so far, and is at least [current_size],
    which mirrors the size. *)
Theorem high_watermark_is_max_size (now : Timestamp) (ops : list QueueOp) :
  let q0 := BQ.BoundedQueue_new Capacity now in
  let q := run_ops Capacity ops q0 in
  high_watermark (stats_ q) = max_size_seen Capacity ops q0 /\
  (forall more,
      high_watermark (stats_ q)
      <= high_watermark (stats_ (run_ops Capacity (ops ++ more) q0))) /\
  current_size (stats_ q) = size_ q /\
  current_size (BQ.stats Capacity q) <= high_watermark (BQ.stats Capacity q).
Proof.
  intros q0 q.
  destruct (run_ops_ok ops q0 (new_size_ok now) (new_stats_ok now))
    as (Hs & [Hc Hw] & Hmax).
  fold q in Hs, Hc, Hw, Hmax.
  repeat split.
  - rewrite Hmax. pose proof (max_size_seen_ge ops q0). simpl in *. lia.
  - intros more. rewrite run_ops_app. fold q.
    destruct (run_ops_ok more q Hs (conj Hc Hw)) as (_ & _ & Hm). rewrite Hm. lia.
  - exact Hc.
  - simpl. lia.
Qed.

(** *** The ring buffer holds the events in arrival order *)

Lemma ring_distinct h i j :
  0 <= h < Capacity -> 0 <= i < j -> j < Capacity ->
  (h + i) mod Capacity <> (h + j) mod Capacity.
Proof.
  intros Hh Hi Hj Heq.
  assert (Hd : ((h + j) - (h + i)) mod Capacity = 0).
  { rewrite Zminus_mod, Heq, Z.sub_diag. apply Z.mod_0_l. lia. }
  replace (h + j - (h + i)) with (j - i) in Hd by lia.
  rewrite Z.mod_small in Hd; lia.
Qed.

Lemma seqZ_snoc n : 0 <= n -> seqZ 0 (n + 1) = seqZ 0 n ++ [n].
Proof.
  intros Hn. rewrite seqZ_app by lia. f_equal.
Qed.

Lemma wf_new now : wf Capacity (BQ.BoundedQueue_new Capacity now).
Proof.
  pose proof Capacity_pos. unfold wf; simpl.
  rewrite length_replicate, Z.mod_0_l by lia. repeat split; lia.
Qed.

Lemma contents_new now : contents Capacity (BQ.BoundedQueue_new Capacity now) = [].
Proof. reflexivity. Qed.

Lemma contents_length q :
  length (contents Capacity q) = Z.to_nat (size_ q).
Proof. unfold contents. rewrite length_fmap. apply length_seqZ. Qed.

Lemma store_event_fifo e q :
  wf Capacity q -> size_ q < Capacity ->
  wf Capacity (BQ.store_event Capacity e q) /\
  contents Capacity (BQ.store_event Capacity e q) = contents Capacity q ++ [e].
Proof.
  intros (Hlen & Hh & Hs & Ht) Hlt.
  pose proof Capacity_lt as Hc. pose proof Capacity_pos as Hp.
  assert (Htr : 0 <= tail_ q < Capacity)
    by (rewrite Ht; apply Z.mod_pos_bound; lia).
  split.
  - unfold wf, BQ.store_event. cbn [buffer_ head_ tail_ size_].
    rewrite length_insert, land_mask, wrap64_small, incr64_small by lia.
    repeat split; try lia.
    rewrite Ht, Z.add_mod_idemp_l by lia. f_equal. lia.
  - unfold contents, BQ.store_event. cbn [buffer_ head_ tail_ size_].
    rewrite incr64_small by lia. rewrite seqZ_snoc by lia.
    rewrite fmap_app. f_equal.
    + apply list_fmap_ext. intros n i Hi.
      apply lookup_seqZ in Hi as [-> Hn].
      unfold buffer_at. cbn [buffer_]. f_equal.
      apply list_lookup_insert_ne. rewrite Ht.
      intros Heq. apply Z2Nat.inj in Heq;
        try (apply Z.mod_pos_bound; lia).
      symmetry in Heq. revert Heq. apply ring_distinct; lia.
    + simpl. f_equal. unfold buffer_at. cbn [buffer_].
      rewrite <- Ht. rewrite list_lookup_insert_eq; [reflexivity |].
      rewrite Hlen. lia.
Qed.

Lemma take_event_fifo q :
  wf Capacity q -> 0 < size_ q ->
  wf Capacity (snd (BQ.take_event Capacity q)) /\
  contents Capacity q
  = fst (BQ.take_event Capacity q) :: contents Capacity (snd (BQ.take_event Capacity q)).
Proof.
  intros (Hlen & Hh & Hs & Ht) Hlt.
  pose proof Capacity_lt as Hc. pose proof Capacity_pos as Hp.
  split.
  - unfold wf, BQ.take_event. cbn [snd buffer_ head_ tail_ size_].
    rewrite land_mask, wrap64_small, decr64_small by lia.
    repeat split; try lia; try (apply Z.mod_pos_bound; lia).
    rewrite Ht, Z.add_mod_idemp_l by lia. f_equal. lia.
  - unfold contents, BQ.take_event. cbn [fst snd buffer_ head_ tail_ size_].
    rewrite decr64_small, land_mask, wrap64_small by lia.
    rewrite seqZ_cons by lia. rewrite fmap_cons. f_equal.
    + rewrite Z.add_0_r, Z.mod_small by lia. reflexivity.
    + replace (Z.succ 0) with (1 + 0) by lia.
      rewrite <- fmap_add_seqZ, <- list_fmap_compose.
      replace (Z.pred (size_ q)) with (size_ q - 1) by lia.
      apply list_fmap_ext. intros n i _. simpl. unfold buffer_at. cbn [buffer_].
      rewrite Z.add_mod_idemp_l by lia.
      replace (head_ q + 1 + i) with (head_ q + (1 + i)) by lia. reflexivity.
Qed.

(** Counting a call touches neither the ring nor the flag. *)
Lemma wf_set_stats q s : wf Capacity (set_stats q s) <-> wf Capacity q.
Proof. reflexivity. Qed.

Lemma contents_set_stats q s :
  contents Capacity (set_stats q s) = contents Capacity q.
Proof. reflexivity. Qed.

(** A push on an open queue with room appends the event. *)
Lemma push_open e q :
  wf Capacity q -> closed_ q = false -> size_ q < Capacity ->
  exists q', BQ.push Capacity e q = Done true q' /\ wf Capacity q' /\
             closed_ q' = false /\
             contents Capacity q' = contents Capacity q ++ [e].
Proof.
  intros Hwf Hc Hlt. unfold BQ.push, BQ.push_loop.
  cbn [size_ closed_ count_push set_stats]. rewrite Hc.
  destruct (Z.eqb_spec (size_ q) Capacity) as [Hf | Hf]; [lia |].
  cbn [andb]. eexists. split; [reflexivity |].
  destruct (store_event_fifo e (count_push q)) as [Hw Hcont]; auto.
Qed.

(** A push on a closed queue is refused and leaves the events alone. *)
Lemma push_closed e q :
  closed_ q = true ->
  BQ.push Capacity e q = Done false (count_push q).
Proof.
  intros Hc. unfold BQ.push, BQ.push_loop.
  cbn [size_ closed_ count_push set_stats]. rewrite Hc.
  rewrite andb_false_r. reflexivity.
Qed.

Lemma try_push_closed e q :
  closed_ q = true -> BQ.try_push Capacity e q = (false, q).
Proof. intros Hc. unfold BQ.try_push. rewrite Hc, orb_true_r. reflexivity. Qed.

Lemma push_for_closed e q :
  closed_ q = true -> BQ.push_for Capacity e q = Done false (count_push q).
Proof.
  intros Hc. unfold BQ.push_for, BQ.push_for_pred, BQ.push_for_finish.
  cbn [size_ closed_ count_push set_stats]. rewrite Hc, orb_true_r. reflexivity.
Qed.

(** A pop on a queue that holds events returns the oldest one. *)
Lemma pop_nonempty q x l :
  wf Capacity q -> contents Capacity q = x :: l ->
  exists q', BQ.pop Capacity q = Done (Some x) q' /\ wf Capacity q' /\
             closed_ q' = closed_ q /\ contents Capacity q' = l.
Proof.
  intros Hwf Hcont.
  assert (Hpos : 0 < size_ q).
  { pose proof (contents_length q) as Hl. rewrite Hcont in Hl. simpl in Hl. lia. }
  unfold BQ.pop, BQ.pop_loop. cbn [size_ closed_ count_pop set_stats].
  destruct (Z.eqb_spec (size_ q) 0) as [Hz | Hz]; [lia |]. cbn [andb].
  destruct (take_event_fifo (count_pop q)) as [Hw Hc]; auto.
  change (contents Capacity (count_pop q)) with (contents Capacity q) in Hc.
  rewrite Hcont in Hc.
  assert (Hcl : closed_ (snd (BQ.take_event Capacity (count_pop q))) = closed_ q)
    by reflexivity.
  destruct (BQ.take_event Capacity (count_pop q)) as [ev q'].
  cbn [fst snd] in Hw, Hc, Hcl. injection Hc as Hx Hl.
  exists q'. rewrite Hx.
  split; [reflexivity |]. split; [exact Hw |]. split; [exact Hcl | now symmetry].
Qed.

(** A pop on a closed queue without events returns nothing. *)
Lemma pop_closed_empty q :
  closed_ q = true -> contents Capacity q = [] -> 0 <= size_ q ->
  BQ.pop Capacity q = Done None (count_pop q).
Proof.
  intros Hc Hcont Hs.
  assert (Hz : size_ q = 0).
  { pose proof (contents_length q) as Hl. rewrite Hcont in Hl. simpl in Hl. lia. }
  unfold BQ.pop, BQ.pop_loop. cbn [size_ closed_ count_pop set_stats].
  rewrite Hz, Hc. reflexivity.
Qed.

(** Draining a closed queue yields its events in order, then nothing. *)
Lemma pop_n_closed q :
  wf Capacity q -> closed_ q = true ->
  fst (pop_n Capacity (S (length (contents Capacity q))) q)
  = (Some <$> contents Capacity q) ++ [None].
Proof.
  remember (contents Capacity q) as l eqn:Hl. revert q Hl.
  induction l as [| x l IH]; intros q Hl Hwf Hc.
  - cbn [length pop_n].
    rewrite pop_closed_empty;
      [reflexivity | exact Hc | now symmetry
      | destruct Hwf as (_ & _ & Hs & _); lia].
  - destruct (pop_nonempty q x l Hwf (eq_sym Hl)) as (q' & Hp & Hw' & Hc' & Hcont').
    change (pop_n Capacity (S (length (x :: l))) q)
      with (match BQ.pop Capacity q with
            | Done r q1 =>
                let '(rs, q2) := pop_n Capacity (S (length l)) q1 in (r :: rs, q2)
            | Parked q1 => ([], q1)
            end).
    rewrite Hp.
    specialize (IH q' (eq_sym Hcont') Hw' (eq_trans Hc' Hc)).
    destruct (pop_n Capacity (S (length l)) q') as [rs q2]. cbn [fst] in *.
    rewrite IH. reflexivity.
Qed.

Lemma wf_close q :
  wf Capacity q ->
  wf Capacity (BQ.close q) /\ closed_ (BQ.close q) = true /\
  contents Capacity (BQ.close q) = contents Capacity q.
Proof. intros Hwf. repeat split; apply Hwf. Qed.

(** C4.  Push 1 and 2 into a fresh queue of capacity at least 3 and close
    it: a push of 3 returns false and the pops return 1, then 2, then
    nothing.  In general, closing keeps the events; on a closed queue every
    push is refused and changes no event, a pop returns the oldest event
    while there is one and nothing afterwards; the events of a queue are
    the accepted pushes in arrival order. *)
Theorem close_semantics :
  3 <= Capacity ->
  (forall now m1 m2 m3,
      let e1 := mkEvent (PInt 1) m1 in
      let e2 := mkEvent (PInt 2) m2 in
      let e3 := mkEvent (PInt 3) m3 in
      exists q1 q2 q4 q5 q6 q7,
        BQ.push Capacity e1 (BQ.BoundedQueue_new Capacity now) = Done true q1 /\
        BQ.push Capacity e2 q1 = Done true q2 /\
        BQ.is_closed (BQ.close q2) = true /\
        BQ.push Capacity e3 (BQ.close q2) = Done false q4 /\
        BQ.pop Capacity q4 = Done (Some e1) q5 /\
        BQ.pop Capacity q5 = Done (Some e2) q6 /\
        BQ.pop Capacity q6 = Done None q7) /\
  (forall q e,
      wf Capacity q -> closed_ q = false -> size_ q < Capacity ->
      exists q', BQ.push Capacity e q = Done true q' /\ wf Capacity q' /\
                 closed_ q' = false /\
                 contents Capacity q' = contents Capacity q ++ [e]) /\
  (forall q,
      wf Capacity q ->
      wf Capacity (BQ.close q) /\ closed_ (BQ.close q) = true /\
      contents Capacity (BQ.close q) = contents Capacity q) /\
  (forall q,
      wf Capacity q -> closed_ q = true ->
      (forall e, exists q',
            BQ.push Capacity e q = Done false q' /\ wf Capacity q' /\
            closed_ q' = true /\ contents Capacity q' = contents Capacity q) /\
      (forall e, BQ.try_push Capacity e q = (false, q)) /\
      (forall x l,
          contents Capacity q = x :: l ->
          exists q', BQ.pop Capacity q = Done (Some x) q' /\ wf Capacity q' /\
                     closed_ q' = true /\ contents Capacity q' = l) /\
      (contents Capacity q = [] ->
       exists q', BQ.pop Capacity q = Done None q' /\ wf Capacity q' /\
                  closed_ q' = true /\ contents Capacity q' = []) /\
      fst (pop_n Capacity (S (length (contents Capacity q))) q)
      = (Some <$> contents Capacity q) ++ [None]).
Proof.
  intros Hcap. split; [| split; [| split]].
  - intros now m1 m2 m3 e1 e2 e3.
    destruct (push_open e1 (BQ.BoundedQueue_new Capacity now))
      as (q1 & Hp1 & Hw1 & Hc1 & Hk1);
      [apply wf_new | reflexivity | simpl; lia |].
    rewrite contents_new in Hk1. cbn [app] in Hk1.
    assert (Hs1 : size_ q1 < Capacity).
    { pose proof (contents_length q1) as Hl. rewrite Hk1 in Hl. simpl in Hl.
      destruct Hw1 as (_ & _ & Hs & _). lia. }
    destruct (push_open e2 q1 Hw1 Hc1 Hs1) as (q2 & Hp2 & Hw2 & Hc2 & Hk2).
    rewrite Hk1 in Hk2. cbn [app] in Hk2.
    destruct (wf_close q2 Hw2) as (Hw3 & Hc3 & Hk3). rewrite Hk2 in Hk3.
    pose proof (push_closed e3 (BQ.close q2) Hc3) as Hp3.
    set (q4 := count_push (BQ.close q2)) in *.
    assert (Hw4 : wf Capacity q4) by exact Hw3.
    assert (Hk4 : contents Capacity q4 = [e1; e2]) by exact Hk3.
    assert (Hc4 : closed_ q4 = true) by reflexivity.
    destruct (pop_nonempty q4 e1 [e2] Hw4 Hk4) as (q5 & Hp5 & Hw5 & Hc5 & Hk5).
    destruct (pop_nonempty q5 e2 [] Hw5 Hk5) as (q6 & Hp6 & Hw6 & Hc6 & Hk6).
    exists q1, q2, q4, q5, q6, (count_pop q6).
    repeat split; try assumption.
    apply pop_closed_empty; [congruence | exact Hk6 |].
    destruct Hw6 as (_ & _ & Hs & _). lia.
  - intros q e. apply push_open.
  - apply wf_close.
  - intros q Hwf Hc. split; [| split; [| split; [| split]]].
    + intros e. exists (count_push q). split; [now apply push_closed |].
      split; [exact Hwf |]. split; [exact Hc | reflexivity].
    + intros e. now apply try_push_closed.
    + intros x l Hk.
      destruct (pop_nonempty q x l Hwf Hk) as (q' & Hp & Hw' & Hc' & Hk').
      exists q'. repeat split; try assumption; try apply Hw'. congruence.
    + intros Hk. exists (count_pop q). split.
      * apply pop_closed_empty; auto. destruct Hwf as (_ & _ & Hs & _). lia.
      * split; [exact Hwf |]. split; [exact Hc | exact Hk].
    + now apply pop_n_closed.
Qed.

(** *** The ring invariant along every run *)

Lemma wf_store e q :
  wf Capacity q -> size_ q <> Capacity -> wf Capacity (BQ.store_event Capacity e q).
Proof.
  intros Hwf Hne. apply store_event_fifo; [exact Hwf |].
  destruct Hwf as (_ & _ & Hs & _). lia.
Qed.

Lemma wf_take q :
  wf Capacity q -> size_ q <> 0 -> wf Capacity (snd (BQ.take_event Capacity q)).
Proof.
  intros Hwf Hne. apply take_event_fifo; [exact Hwf |].
  destruct Hwf as (_ & _ & Hs & _). lia.
Qed.

Lemma wf_size q : wf Capacity q -> 0 <= size_ q <= Capacity.
Proof. intros (_ & _ & Hs & _). exact Hs. Qed.

Lemma apply_op_wf op q : wf Capacity q -> wf Capacity (apply_op Capacity op q).
Proof.
  intros Hwf. pose proof (wf_size q Hwf) as Hs.
  assert (Hst : forall e q0, wf Capacity q0 -> size_ q0 = size_ q ->
                  size_ q <> Capacity -> wf Capacity (BQ.store_event Capacity e q0))
    by (intros e q0 H0 Hq Hn; apply wf_store; [exact H0 | congruence]).
  assert (Htk : forall q0, wf Capacity q0 -> size_ q0 = size_ q ->
                  size_ q <> 0 -> wf Capacity (snd (BQ.take_event Capacity q0)))
    by (intros q0 H0 Hq Hn; apply wf_take; [exact H0 | congruence]).
  destruct op as [e | e | e | e | e t | | | | | t | ]; cbn [apply_op].
  - unfold BQ.push, BQ.push_loop. cbn [size_ closed_ count_push set_stats].
    destruct (Z.eqb_spec (size_ q) Capacity) as [Hf | Hf];
      destruct (closed_ q); cbn [andb negb step_state]; try exact Hwf.
    apply Hst; auto.
  - unfold BQ.push_resume, BQ.push_loop.
    destruct (Z.eqb_spec (size_ q) Capacity) as [Hf | Hf];
      destruct (closed_ q); cbn [andb negb step_state]; try exact Hwf.
    apply Hst; auto.
  - unfold BQ.try_push.
    destruct (Z.eqb_spec (size_ q) Capacity) as [Hf | Hf];
      destruct (closed_ q); cbn [orb snd]; try exact Hwf.
    apply Hst; auto.
  - unfold BQ.push_for, BQ.push_for_pred, BQ.push_for_finish.
    cbn [size_ closed_ count_push set_stats].
    destruct (Z.ltb_spec (size_ q) Capacity) as [Hf | Hf];
      destruct (closed_ q); cbn [orb step_state]; try exact Hwf.
    apply Hst; auto; lia.
  - unfold BQ.push_for_wake, BQ.push_for_pred, BQ.push_for_finish.
    destruct (Z.ltb_spec (size_ q) Capacity) as [Hf | Hf];
      destruct (closed_ q); destruct t; cbn [orb step_state]; try exact Hwf;
      apply Hst; auto; lia.
  - unfold BQ.pop, BQ.pop_loop. cbn [size_ closed_ count_pop set_stats].
    destruct (Z.eqb_spec (size_ q) 0) as [Hf | Hf];
      destruct (closed_ q); cbn [andb negb step_state]; try exact Hwf;
      rewrite (surjective_pairing (BQ.take_event Capacity (count_pop q)));
      cbn [step_state]; apply Htk; auto.
  - unfold BQ.pop_resume, BQ.pop_loop.
    destruct (Z.eqb_spec (size_ q) 0) as [Hf | Hf];
      destruct (closed_ q); cbn [andb negb step_state]; try exact Hwf;
      rewrite (surjective_pairing (BQ.take_event Capacity q));
      cbn [step_state]; apply Htk; auto.
  - unfold BQ.try_pop.
    destruct (Z.eqb_spec (size_ q) 0) as [Hf | Hf]; cbn [snd]; try exact Hwf.
    rewrite (surjective_pairing (BQ.take_event Capacity (count_pop q))).
    cbn [snd]. apply Htk; auto.
  - unfold BQ.pop_for, BQ.pop_for_pred, BQ.pop_for_finish.
    cbn [size_ closed_ count_pop set_stats].
    destruct (Z.ltb_spec 0 (size_ q)) as [Hf | Hf];
      destruct (Z.eqb_spec (size_ q) 0) as [Hz | Hz];
      destruct (closed_ q); cbn [orb step_state]; try exact Hwf; try lia;
      rewrite (surjective_pairing (BQ.take_event Capacity (count_pop q)));
      cbn [step_state]; apply Htk; auto.
  - unfold BQ.pop_for_wake, BQ.pop_for_pred, BQ.pop_for_finish.
    destruct (Z.ltb_spec 0 (size_ q)) as [Hf | Hf];
      destruct (Z.eqb_spec (size_ q) 0) as [Hz | Hz];
      destruct (closed_ q); destruct t; cbn [orb step_state];
      try exact Hwf; try lia;
      rewrite (surjective_pairing (BQ.take_event Capacity q));
      cbn [step_state]; apply Htk; auto.
  - exact Hwf.
Qed.

Lemma run_ops_wf ops q : wf Capacity q -> wf Capacity (run_ops Capacity ops q).
Proof.
  revert q. induction ops as [| op ops IH]; intros q Hwf; [exact Hwf |].
  apply IH, apply_op_wf, Hwf.
Qed.

(** X1.  Whatever calls on a queue the threads make, and however they
    interleave, the ring stays consistent: the size is between 0 and the
    capacity, head and tail stay below the capacity with the tail [size]
    slots after the head, and the observers [size], [empty] and [full]
    agree with the events the queue holds. *)
Theorem queue_invariant_along_runs (now : Timestamp) (ops : list QueueOp) :
  let q := run_ops Capacity ops (BQ.BoundedQueue_new Capacity now) in
  wf Capacity q /\
  0 <= BQ.size q <= Capacity /\
  0 <= tail_ q < Capacity /\
  Z.of_nat (length (contents Capacity q)) = BQ.size q /\
  (BQ.empty q = true <-> contents Capacity q = []) /\
  (BQ.full Capacity q = true
   <-> length (contents Capacity q) = Z.to_nat Capacity).
Proof.
  intros q. assert (Hwf : wf Capacity q) by apply run_ops_wf, wf_new.
  pose proof (wf_size q Hwf) as Hs. pose proof Capacity_pos as Hp.
  pose proof (contents_length q) as Hl.
  split; [exact Hwf |]. split; [exact Hs |]. split.
  { destruct Hwf as (_ & _ & _ & ->). apply Z.mod_pos_bound. lia. }
  split; [unfold BQ.size; lia |]. split.
  - unfold BQ.empty. rewrite Z.eqb_eq. split.
    + intros Hz. apply nil_length_inv. lia.
    + intros Hk. rewrite Hk in Hl. simpl in Hl. lia.
  - unfold BQ.full. rewrite Z.eqb_eq. lia.
Qed.

(** *** First in, first out *)

Lemma pop_n_take n q :
  wf Capacity q -> (n <= length (contents Capacity q))%nat ->
  exists q', pop_n Capacity n q = (Some <$> take n (contents Capacity q), q') /\
             wf Capacity q' /\ closed_ q' = closed_ q /\
             contents Capacity q' = drop n (contents Capacity q).
Proof.
  revert q. induction n as [| n IH]; intros q Hwf Hn.
  - exists q. repeat split; try apply Hwf.
  - destruct (contents Capacity q) as [| x l] eqn:Hk; [simpl in Hn; lia |].
    destruct (pop_nonempty q x l Hwf Hk) as (q1 & Hp & Hw1 & Hc1 & Hk1).
    destruct (IH q1 Hw1) as (q' & Hpn & Hw' & Hc' & Hk').
    { rewrite Hk1. simpl in Hn. lia. }
    exists q'. cbn [pop_n]. rewrite Hp, Hpn, Hk1.
    split; [reflexivity |]. split; [exact Hw' |].
    split; [congruence |]. rewrite Hk', Hk1. reflexivity.
Qed.

Lemma push_all_open l q :
  wf Capacity q -> closed_ q = false ->
  size_ q + Z.of_nat (length l) <= Capacity ->
  exists q', push_all Capacity l q = (replicate (length l) true, q') /\
             wf Capacity q' /\ closed_ q' = false /\
             contents Capacity q' = contents Capacity q ++ l.
Proof.
  revert q. induction l as [| e l IH]; intros q Hwf Hc Hroom.
  - exists q. rewrite app_nil_r. repeat split; try apply Hwf; assumption.
  - cbn [length] in Hroom.
    destruct (push_open e q Hwf Hc) as (q1 & Hp & Hw1 & Hc1 & Hk1); [lia |].
    assert (Hs1 : size_ q1 = size_ q + 1).
    { pose proof (contents_length q1) as H1. pose proof (contents_length q) as H0.
      rewrite Hk1, length_app in H1. simpl in H1.
      pose proof (wf_size q Hwf). pose proof (wf_size q1 Hw1). lia. }
    destruct (IH q1 Hw1 Hc1) as (q' & Hpa & Hw' & Hc' & Hk'); [lia |].
    exists q'. cbn [push_all length replicate]. rewrite Hp, Hpa.
    split; [reflexivity |]. split; [exact Hw' |]. split; [exact Hc' |].
    rewrite Hk', Hk1, <- app_assoc. reflexivity.
Qed.

(** X2.  Round trip through a queue: as many events as the capacity allows,
    pushed one after the other into a fresh queue, are all accepted, and
    the same number of pops returns exactly these events in the order they
    were pushed and leaves the queue empty. *)
Theorem push_pop_round_trip (now : Timestamp) (l : list Event) :
  Z.of_nat (length l) <= Capacity ->
  exists q q',
    push_all Capacity l (BQ.BoundedQueue_new Capacity now)
    = (replicate (length l) true, q) /\
    BQ.size q = Z.of_nat (length l) /\
    pop_n Capacity (length l) q = (Some <$> l, q') /\
    BQ.empty q' = true.
Proof.
  intros Hlen.
  destruct (push_all_open l (BQ.BoundedQueue_new Capacity now))
    as (q & Hpa & Hw & Hc & Hk); [apply wf_new | reflexivity | simpl; lia |].
  rewrite contents_new in Hk. cbn [app] in Hk.
  destruct (pop_n_take (length l) q Hw) as (q' & Hpn & Hw' & _ & Hk').
  { rewrite Hk. lia. }
  rewrite Hk, firstn_all in Hpn. rewrite Hk, drop_all in Hk'.
  exists q, q'. split; [exact Hpa |]. split.
  { pose proof (contents_length q) as H. rewrite Hk in H.
    pose proof (wf_size q Hw). unfold BQ.size. lia. }
  split; [exact Hpn |].
  pose proof (contents_length q') as H. rewrite Hk' in H. simpl in H.
  pose proof (wf_size q' Hw'). unfold BQ.empty. apply Z.eqb_eq. lia.
Qed.


(** *** The non-blocking push *)

Lemma try_push_open e q :
  wf Capacity q -> closed_ q = false -> size_ q < Capacity ->
  exists q', BQ.try_push Capacity e q = (true, q') /\
             BQ.push Capacity e q = Done true q' /\ wf Capacity q' /\
             closed_ q' = false /\
             contents Capacity q' = contents Capacity q ++ [e].
Proof.
  intros Hwf Hc Hlt.
  destruct (push_open e q Hwf Hc Hlt) as (q' & Hp & Hw' & Hc' & Hk').
  exists q'. split; [| auto].
  unfold BQ.try_push. rewrite Hc.
  destruct (Z.eqb_spec (size_ q) Capacity) as [Hf | Hf]; [lia |]. cbn [orb].
  unfold BQ.push, BQ.push_loop in Hp. cbn [size_ closed_ count_push set_stats] in Hp.
  rewrite Hc in Hp. destruct (Z.eqb_spec (size_ q) Capacity); [lia |].
  cbn [andb negb] in Hp. injection Hp as <-. reflexivity.
Qed.

Lemma try_push_full e q :
  size_ q = Capacity -> BQ.try_push Capacity e q = (false, q).
Proof. intros Hf. unfold BQ.try_push. rewrite Hf, Z.eqb_refl. reflexivity. Qed.

Lemma try_push_all_full l q :
  size_ q = Capacity ->
  try_push_all Capacity l q = (replicate (length l) false, q).
Proof.
  intros Hf. induction l as [| e l IH]; [reflexivity |].
  cbn [try_push_all length replicate]. rewrite try_push_full, IH by exact Hf.
  reflexivity.
Qed.

Lemma try_push_all_open l q :
  wf Capacity q -> closed_ q = false ->
  let room := Z.to_nat (Capacity - size_ q) in
  exists q',
    try_push_all Capacity l q
    = (replicate (Nat.min (length l) room) true
         ++ replicate (length l - room) false, q') /\
    wf Capacity q' /\ closed_ q' = false /\
    contents Capacity q' = contents Capacity q ++ take room l.
Proof.
  revert q. induction l as [| e l IH]; intros q Hwf Hc room.
  - exists q. rewrite take_nil, !app_nil_r.
    split; [reflexivity |]. split; [exact Hwf |]. split; [exact Hc | reflexivity].
  - pose proof (wf_size q Hwf) as Hs.
    destruct (Z.eq_dec (size_ q) Capacity) as [Hf | Hf].
    + assert (Hr : room = 0%nat) by (unfold room; lia). rewrite Hr.
      exists q. rewrite try_push_all_full by exact Hf.
      rewrite Nat.min_0_r, Nat.sub_0_r, take_0, app_nil_r.
      split; [reflexivity |]. split; [exact Hwf |]. split; [exact Hc | reflexivity].
    + destruct (try_push_open e q Hwf Hc) as (q1 & Htp & _ & Hw1 & Hc1 & Hk1);
        [lia |].
      assert (Hs1 : size_ q1 = size_ q + 1).
      { pose proof (contents_length q1) as H1. pose proof (contents_length q) as H0.
        rewrite Hk1, length_app in H1. simpl in H1.
        pose proof (wf_size q1 Hw1). lia. }
      destruct (IH q1 Hw1 Hc1) as (q' & Hpa & Hw' & Hc' & Hk').
      assert (Hr : room = S (Z.to_nat (Capacity - size_ q1)))
        by (unfold room; lia).
      exists q'. cbn [try_push_all]. rewrite Htp, Hpa, Hr.
      split; [reflexivity |]. split; [exact Hw' |]. split; [exact Hc' |].
      rewrite Hk', Hk1, <- app_assoc. reflexivity.
Qed.

(** X3.  Filling a fresh queue with the non-blocking push: of the events
    offered, the first [Capacity] are accepted and every later one is
    refused; the queue ends up holding the accepted ones, in order. *)
Theorem try_push_fills_to_capacity (now : Timestamp) (l : list Event) :
  let cap := Z.to_nat Capacity in
  exists q,
    try_push_all Capacity l (BQ.BoundedQueue_new Capacity now)
    = (replicate (Nat.min (length l) cap) true
         ++ replicate (length l - cap) false, q) /\
    contents Capacity q = take cap l /\
    BQ.size q = Z.of_nat (Nat.min (length l) cap).
Proof.
  intros cap.
  destruct (try_push_all_open l (BQ.BoundedQueue_new Capacity now))
    as (q & Hpa & Hw & _ & Hk); [apply wf_new | reflexivity |].
  cbn [size_ BQ.BoundedQueue_new] in Hpa, Hk.
  rewrite Z.sub_0_r in Hpa, Hk. rewrite contents_new in Hk. cbn [app] in Hk.
  exists q. split; [exact Hpa |]. split; [exact Hk |].
  pose proof (contents_length q) as H. rewrite Hk, length_take in H.
  pose proof (wf_size q Hw). unfold BQ.size. fold cap in H. lia.
Qed.

(** *** Blocking, and what ends it *)


(** X5.  Closing wakes the waiters: a pusher parked on a full queue and
    woken after [close] returns false and its event is not stored; a popper
    parked on an empty queue and woken after [close] returns nothing.
    Closing twice is closing once. *)
Theorem close_releases_waiters (e : Event) (q : BoundedQueue) :
  closed_ q = false ->
  (size_ q = Capacity ->
   exists q1, BQ.push Capacity e q = Parked q1 /\
              BQ.push_resume Capacity e (BQ.close q1) = Done false (BQ.close q1) /\
              contents Capacity (BQ.close q1) = contents Capacity q) /\
  (size_ q = 0 ->
   exists q1, BQ.pop Capacity q = Parked q1 /\
              BQ.pop_resume Capacity (BQ.close q1) = Done None (BQ.close q1)) /\
  BQ.close (BQ.close q) = BQ.close q.
Proof.
  intros Hc. split; [| split].
  - intros Hf. exists (count_push_blocked (count_push q)). split; [| split].
    + unfold BQ.push, BQ.push_loop. cbn [size_ closed_ count_push set_stats].
      rewrite Hf, Hc, Z.eqb_refl. reflexivity.
    + unfold BQ.push_resume, BQ.push_loop. cbn [closed_ BQ.close].
      rewrite andb_false_r. reflexivity.
    + reflexivity.
  - intros Hz. exists (count_pop_blocked (count_pop q)). split.
    + unfold BQ.pop, BQ.pop_loop. cbn [size_ closed_ count_pop set_stats].
      rewrite Hz, Hc. reflexivity.
    + unfold BQ.pop_resume, BQ.pop_loop.
      cbn [size_ closed_ BQ.close count_pop_blocked count_pop set_stats].
      rewrite Hz. reflexivity.
  - reflexivity.
Qed.

(** X6.  The three pushes agree whenever none has to wait or refuse: on an
    open queue with room, [push], [try_push] and [push_for] all return true
    and leave the same queue.  On a closed queue all three return false,
    but [push] and [push_for] have counted the call while [try_push] leaves
    the queue untouched, and on a full open queue [try_push] returns false
    at once and leaves the queue untouched. *)
Theorem push_variants_agree (e : Event) (q : BoundedQueue) :
  (closed_ q = false -> size_ q < Capacity ->
   BQ.push Capacity e q
   = Done true (BQ.store_event Capacity e (count_push q)) /\
   BQ.push_for Capacity e q
   = Done true (BQ.store_event Capacity e (count_push q)) /\
   BQ.try_push Capacity e q
   = (true, BQ.store_event Capacity e (count_push q))) /\
  (closed_ q = true ->
   BQ.push Capacity e q = Done false (count_push q) /\
   BQ.push_for Capacity e q = Done false (count_push q) /\
   BQ.try_push Capacity e q = (false, q)) /\
  (closed_ q = false -> size_ q = Capacity ->
   BQ.try_push Capacity e q = (false, q)).
Proof.
  clear k k_range Capacity_pow2.
  split; [| split].
  - intros Hc Hlt.
    unfold BQ.push, BQ.push_loop, BQ.push_for, BQ.push_for_pred,
      BQ.push_for_finish, BQ.try_push.
    cbn [size_ closed_ count_push set_stats]. rewrite Hc.
    destruct (Z.eqb_spec (size_ q) Capacity); [lia |].
    destruct (Z.ltb_spec (size_ q) Capacity); [| lia].
    repeat split.
  - intros Hc. split; [now apply push_closed |].
    split; [now apply push_for_closed | now apply try_push_closed].
  - intros _ Hf. now apply try_push_full.
Qed.


(** X7.  The three pops agree when the queue holds an event: [pop],
    [try_pop] and [pop_for] return the oldest event and leave the same
    queue, closed or not.  On an empty queue [try_pop] returns nothing at
    once and leaves the queue untouched, statistics included. *)
Theorem pop_variants_agree (q : BoundedQueue) :
  (forall x l,
      wf Capacity q -> contents Capacity q = x :: l ->
      exists q', BQ.pop Capacity q = Done (Some x) q' /\
                 BQ.pop_for Capacity q = Done (Some x) q' /\
                 BQ.try_pop Capacity q = (Some x, q') /\
                 contents Capacity q' = l /\
                 pop_count (stats_ q') = incr64 (pop_count (stats_ q))) /\
  (size_ q = 0 -> BQ.try_pop Capacity q = (None, q)).
Proof.
  split.
  - intros x l Hwf Hk.
    destruct (pop_nonempty q x l Hwf Hk) as (q' & Hp & Hw' & Hc' & Hk').
    assert (Hpos : 0 < size_ q).
    { pose proof (contents_length q) as Hl. rewrite Hk in Hl. simpl in Hl. lia. }
    exists q'. split; [exact Hp |].
    unfold BQ.pop, BQ.pop_loop in Hp.
    unfold BQ.pop_for, BQ.pop_for_pred, BQ.pop_for_finish, BQ.try_pop.
    cbn [size_ closed_ count_pop set_stats] in *.
    destruct (Z.eqb_spec (size_ q) 0) as [Hz | Hz]; [lia |].
    destruct (Z.ltb_spec 0 (size_ q)); [| lia].
    cbn [andb orb] in *.
    destruct (BQ.take_event Capacity (count_pop q)) as [ev q1] eqn:E.
    injection Hp as -> ->.
    split; [reflexivity |]. split; [reflexivity |]. split; [exact Hk' |].
    unfold BQ.take_event in E. injection E as _ <-. reflexivity.
  - intros Hz. unfold BQ.try_pop. rewrite Hz. reflexivity.
Qed.


End QueueFacts.

Lemma high_watermark_is_max_size_witness :
  0 <= 2 < 64 /\ 4 = 2 ^ 2 /\
  let ops := [OpPush (Event_of_payload (PInt 1) 0); OpTryPush (Event_of_payload (PInt 2) 0);
              OpPop; OpPopFor; OpPopFor; OpPopForWake true; OpClose;
              OpPushFor (Event_of_payload (PInt 3) 0)] in
  let q0 := BQ.BoundedQueue_new 4 0 in
  let q := run_ops 4 ops q0 in
  high_watermark (stats_ q) = max_size_seen 4 ops q0 /\
  (forall more,
      high_watermark (stats_ q)
      <= high_watermark (stats_ (run_ops 4 (ops ++ more) q0))) /\
  current_size (stats_ q) = size_ q /\
  current_size (BQ.stats 4 q) <= high_watermark (BQ.stats 4 q).
Proof.
  split; [lia |]. split; [reflexivity |].
  apply (high_watermark_is_max_size 4 2); [lia | reflexivity].
Defined.

Lemma close_semantics_witness :
  0 <= 2 < 64 /\ 4 = 2 ^ 2 /\ 3 <= 4 /\
  exists q1 q2 q4 q5 q6 q7,
    BQ.push 4 (Event_of_payload (PInt 1) 10) (BQ.BoundedQueue_new 4 0) = Done true q1 /\
    BQ.push 4 (Event_of_payload (PInt 2) 11) q1 = Done true q2 /\
    BQ.is_closed (BQ.close q2) = true /\
    BQ.push 4 (Event_of_payload (PInt 3) 12) (BQ.close q2) = Done false q4 /\
    BQ.pop 4 q4 = Done (Some (Event_of_payload (PInt 1) 10)) q5 /\
    BQ.pop 4 q5 = Done (Some (Event_of_payload (PInt 2) 11)) q6 /\
    BQ.pop 4 q6 = Done None q7.
Proof.
  split; [lia |]. split; [reflexivity |]. split; [lia |].
  apply (proj1 (close_semantics 4 2 ltac:(lia) eq_refl ltac:(lia))
           0 (EventMetadata_default 10) (EventMetadata_default 11)
           (EventMetadata_default 12)).
Defined.

(** *** Timed calls *)

(** [push_for] makes the caller wait exactly when the queue is full and
    open; the call has then counted itself. *)
Lemma push_for_parks Capacity e q :
  BQ.push_for_pred Capacity q = false ->
  BQ.push_for Capacity e q = Parked (count_push q).
Proof.
  intros H. unfold BQ.push_for.
  change (BQ.push_for_pred Capacity (count_push q)) with (BQ.push_for_pred Capacity q).
  now rewrite H.
Qed.

Lemma push_for_parked_inv Capacity e q q1 :
  BQ.push_for Capacity e q = Parked q1 ->
  q1 = count_push q /\ BQ.push_for_pred Capacity q = false.
Proof.
  unfold BQ.push_for, BQ.push_for_finish.
  change (BQ.push_for_pred Capacity (count_push q)) with (BQ.push_for_pred Capacity q).
  destruct (BQ.push_for_pred Capacity q); [| intros [= <-]; auto].
  destruct (closed_ (count_push q)); discriminate.
Qed.

(** Woken by the deadline with the queue still full and open, the call
    counts the miss and returns false. *)
Lemma push_for_wake_timeout Capacity e q :
  BQ.push_for_pred Capacity q = false ->
  BQ.push_for_wake Capacity e true q = Done false (count_push_blocked q).
Proof. intros H. unfold BQ.push_for_wake. now rewrite H. Qed.

Lemma pop_for_parked_inv Capacity q q1 :
  BQ.pop_for Capacity q = Parked q1 ->
  q1 = count_pop q /\ BQ.pop_for_pred q = false.
Proof.
  unfold BQ.pop_for, BQ.pop_for_finish.
  change (BQ.pop_for_pred (count_pop q)) with (BQ.pop_for_pred q).
  destruct (BQ.pop_for_pred q); [| intros [= <-]; auto].
  destruct (size_ (count_pop q) =? 0); [discriminate |].
  destruct (BQ.take_event Capacity (count_pop q)); discriminate.
Qed.

Lemma pop_for_wake_timeout Capacity q :
  BQ.pop_for_pred q = false ->
  BQ.pop_for_wake Capacity true q = Done None (count_pop_blocked q).
Proof. intros H. unfold BQ.pop_for_wake. now rewrite H. Qed.

(** C8, as stated, fails: a [pop_for] on a fresh queue and a [push_for] on
    a full one both time out, and both leave the statistics changed. *)
Lemma timed_out_call_changes_stats :
  (let q := BQ.BoundedQueue_new 4 0 in
   let q' := count_pop_blocked (count_pop q) in
   pop_for_times_out 4 q q' /\ ~ no_side_effect q q') /\
  (let e := Event_of_payload (PInt 8) 0 in
   let q := full_queue_1 in
   let q' := count_push_blocked (count_push q) in
   push_for_times_out 1 e q q' /\ ~ no_side_effect q q').
Proof.
  split.
  - split.
    + eexists. split; reflexivity.
    + intros [_ H]. vm_compute in H. discriminate.
  - split.
    + eexists. split; reflexivity.
    + intros [_ H]. vm_compute in H. discriminate.
Qed.

(** C8, amended.  A timed call that misses by timeout leaves the ring, the
    head and tail positions, the size and the closed flag as they were; of
    the statistics it changes two: [push_for] has incremented [push_count]
    and [push_blocked_count], [pop_for] has incremented [pop_count] and
    [pop_blocked_count]. *)
Theorem timed_out_call_effects (Capacity : Z) :
  (forall e q q',
      push_for_times_out Capacity e q q' ->
      same_ring q q' /\
      stats_ q'
      = with_push_blocked_count
          (with_push_count (stats_ q) (incr64 (push_count (stats_ q))))
          (incr64 (push_blocked_count (stats_ q)))) /\
  (forall q q',
      pop_for_times_out Capacity q q' ->
      same_ring q q' /\
      stats_ q'
      = with_pop_blocked_count
          (with_pop_count (stats_ q) (incr64 (pop_count (stats_ q))))
          (incr64 (pop_blocked_count (stats_ q)))).
Proof.
  split.
  - intros e q q' (q1 & Hpark & Hwake).
    apply push_for_parked_inv in Hpark as [-> Hpred].
    rewrite push_for_wake_timeout in Hwake by exact Hpred.
    injection Hwake as <-. split; [repeat split |]. reflexivity.
  - intros q q' (q1 & Hpark & Hwake).
    apply pop_for_parked_inv in Hpark as [-> Hpred].
    rewrite pop_for_wake_timeout in Hwake by exact Hpred.
    injection Hwake as <-. split; [repeat split |]. reflexivity.
Qed.

Lemma timed_out_call_effects_witness :
  let q := BQ.BoundedQueue_new 4 0 in
  let q' := count_pop_blocked (count_pop q) in
  pop_for_times_out 4 q q' /\
  same_ring q q' /\
  stats_ q'
  = with_pop_blocked_count
      (with_pop_count (stats_ q) (incr64 (pop_count (stats_ q))))
      (incr64 (pop_blocked_count (stats_ q))).
Proof.
  assert (H : pop_for_times_out 4 (BQ.BoundedQueue_new 4 0)
                (count_pop_blocked (count_pop (BQ.BoundedQueue_new 4 0)))).
  { eexists. split; reflexivity. }
  split; [exact H |].
  exact (proj2 (timed_out_call_effects 4) _ _ H).
Defined.

(** ** The round-robin scheduler *)

Lemma scan_fuel ready instances pos fuel :
  forall found pos',
    RoundRobinScheduler.scan ready instances pos fuel = (found, pos') ->
    match found with
    | Some i => ready i = true
    | None => True
    end.
Proof.
  revert pos. induction fuel as [| fuel IH]; intros pos found pos'; simpl.
  - intros [= <- _]. exact I.
  - destruct (ready _) eqn:Hr.
    + intros [= <- _]. exact Hr.
    + apply IH.
Qed.

(** C5, as stated, fails on a scheduler without instances: [next] returns
    null and counts neither the call nor the idle cycle. *)
Lemma next_on_empty_scheduler_counts_nothing :
  let s := RoundRobinScheduler.new [] in
  let '(r, s') := RoundRobinScheduler.next (fun _ => false) 0 s in
  r = None /\
  ~ next_counts (RoundRobinScheduler.stats_ s) (RoundRobinScheduler.stats_ s') r.
Proof.
  simpl. split; [reflexivity |].
  intros [H _]. vm_compute in H. discriminate.
Qed.

(** C5, amended.  On a round-robin scheduler with at least one instance,
    every call of [next], for every worker and whatever is ready,
    increments [total_scheduled] by one and increments [idle_cycles] by one
    exactly when it returns null; the two other counters and the instance
    list stay as they are.  With no instance the call returns null and
    changes nothing. *)
Theorem next_counts_on_instances
    (ready : InstanceRef -> bool) (worker_id : Z) (s : RoundRobinScheduler.t) :
  (RoundRobinScheduler.instances_ s <> [] ->
   let '(r, s') := RoundRobinScheduler.next ready worker_id s in
   next_counts (RoundRobinScheduler.stats_ s) (RoundRobinScheduler.stats_ s') r /\
   (idle_cycles (RoundRobinScheduler.stats_ s')
    = incr64 (idle_cycles (RoundRobinScheduler.stats_ s)) <-> r = None) /\
   work_stolen (RoundRobinScheduler.stats_ s')
   = work_stolen (RoundRobinScheduler.stats_ s) /\
   backpressure_waits (RoundRobinScheduler.stats_ s')
   = backpressure_waits (RoundRobinScheduler.stats_ s) /\
   RoundRobinScheduler.instances_ s' = RoundRobinScheduler.instances_ s) /\
  (RoundRobinScheduler.instances_ s = [] ->
   RoundRobinScheduler.next ready worker_id s = (None, s)).
Proof.
  split.
  - intros Hne. unfold RoundRobinScheduler.next.
    destruct (RoundRobinScheduler.instances_ s) as [| i0 rest] eqn:Hi;
      [contradiction |].
    destruct (RoundRobinScheduler.scan ready (i0 :: rest)
                (default 0 (RoundRobinScheduler.positions_ s !! worker_id))
                (length (i0 :: rest))) as [found pos'].
    destruct found as [i |]; cbn [RoundRobinScheduler.stats_
      RoundRobinScheduler.instances_ next_counts count_scheduled count_idle
      total_scheduled idle_cycles work_stolen backpressure_waits].
    + repeat split; try reflexivity; try discriminate.
      intros H. symmetry in H. now apply incr64_neq in H.
    + repeat split; reflexivity.
  - intros He. unfold RoundRobinScheduler.next. now rewrite He.
Qed.

Lemma next_counts_on_instances_witness :
  let s := RoundRobinScheduler.new [0%nat; 1%nat] in
  RoundRobinScheduler.instances_ s <> [] /\
  let '(r, s') := RoundRobinScheduler.next (fun i => Nat.eqb i 1) 3 s in
  r = Some 1%nat /\
  next_counts (RoundRobinScheduler.stats_ s) (RoundRobinScheduler.stats_ s') r.
Proof.
  split; [discriminate |].
  pose proof (proj1 (next_counts_on_instances (fun i => Nat.eqb i 1) 3
                       (RoundRobinScheduler.new [0%nat; 1%nat]))
                ltac:(discriminate)) as H.
  destruct (RoundRobinScheduler.next (fun i => Nat.eqb i 1) 3
              (RoundRobinScheduler.new [0%nat; 1%nat])) as [r s'] eqn:E.
  split; [| exact (proj1 H)].
  vm_compute in E. now injection E as <- _.
Defined.

(** ** The lifecycle of the runtime *)

Lemma RuntimeState_eqb_eq a b : RuntimeState.eqb a b = true <-> a = b.
Proof. destruct a, b; simpl; split; intros H; try reflexivity; discriminate. Qed.

Lemma RuntimeState_eqb_neq a b : a <> b -> negb (RuntimeState.eqb a b) = true.
Proof.
  intros H. destruct (RuntimeState.eqb a b) eqn:E; [| reflexivity].
  apply RuntimeState_eqb_eq in E. contradiction.
Qed.

(** C6.  [init] on a runtime that is not [Created] throws, [start] on a
    runtime that is not [Initialized] throws, and [stop] on a runtime that
    is not [Running] returns; in all three cases the runtime is left exactly
    as it was, state and components. *)
Theorem lifecycle_misuse_is_rejected (rt : Runtime.t) :
  (Runtime.state_ rt <> RuntimeState.Created ->
   forall builder hw now,
     Runtime.init builder hw now rt
     = Runtime.Threw "Runtime already initialized" rt) /\
  (Runtime.state_ rt <> RuntimeState.Initialized ->
   Runtime.start rt = Runtime.Threw "Runtime not initialized" rt) /\
  (Runtime.state_ rt <> RuntimeState.Running ->
   Runtime.stop rt = Runtime.Returned rt).
Proof.
  split; [| split].
  - intros H builder hw now. unfold Runtime.init.
    now rewrite RuntimeState_eqb_neq.
  - intros H. unfold Runtime.start. now rewrite RuntimeState_eqb_neq.
  - intros H. unfold Runtime.stop. now rewrite RuntimeState_eqb_neq.
Qed.

Lemma lifecycle_misuse_is_rejected_witness :
  let fresh := Runtime.new RuntimeConfig_default in
  let stopped :=
    Runtime.mk RuntimeConfig_default RuntimeState.Stopped [] [] [] [] None None
      (mkMetricsCollector 0 0 0) false in
  Runtime.init StreamGraphBuilder.new 4 0 stopped
  = Runtime.Threw "Runtime already initialized" stopped /\
  Runtime.start fresh = Runtime.Threw "Runtime not initialized" fresh /\
  Runtime.stop fresh = Runtime.Returned fresh /\
  Runtime.stop stopped = Runtime.Returned stopped.
Proof.
  intros fresh stopped.
  split; [| split; [| split]].
  - apply (proj1 (lifecycle_misuse_is_rejected stopped)). discriminate.
  - apply (proj1 (proj2 (lifecycle_misuse_is_rejected fresh))). discriminate.
  - apply (proj2 (proj2 (lifecycle_misuse_is_rejected fresh))). discriminate.
  - apply (proj2 (proj2 (lifecycle_misuse_is_rejected stopped))). discriminate.
Defined.

(** ** The aggregating sink *)

(** C9.  An event with a [double] payload adds the value, truncated toward
    zero to a signed 64-bit integer, to [sum_] and increments [count_],
    and leaves [min_] and [max_] alone; an event whose payload is neither
    an integer nor a [double] changes nothing. *)
Theorem consume_double_and_other (s : AggregatingSink.t) :
  (forall d m,
      AggregatingSink.consume (mkEvent (PDouble d) m) s
      = AggregatingSink.mk
          (wrap_s64 (AggregatingSink.sum_ s + static_cast_int64 d))
          (incr64 (AggregatingSink.count_ s))
          (AggregatingSink.min_ s) (AggregatingSink.max_ s)) /\
  (forall d z, trunc_float d = Some z -> in_int64 z -> static_cast_int64 d = z) /\
  (forall d z m,
      trunc_float d = Some z -> in_int64 z ->
      in_int64 (AggregatingSink.sum_ s + z) ->
      0 <= AggregatingSink.count_ s < 2 ^ 64 - 1 ->
      let s' := AggregatingSink.consume (mkEvent (PDouble d) m) s in
      AggregatingSink.sum s' = AggregatingSink.sum s + z /\
      AggregatingSink.count s' = AggregatingSink.count s + 1 /\
      AggregatingSink.min s' = AggregatingSink.min s /\
      AggregatingSink.max s' = AggregatingSink.max s) /\
  (forall e,
      get_if_int64 e = None -> get_if_double e = None ->
      AggregatingSink.consume e s = s) /\
  (forall m str blob,
      AggregatingSink.consume (mkEvent PMonostate m) s = s /\
      AggregatingSink.consume (mkEvent (PString str) m) s = s /\
      AggregatingSink.consume (mkEvent (PBlob blob) m) s = s).
Proof.
  assert (Hcast : forall d z,
             trunc_float d = Some z -> in_int64 z -> static_cast_int64 d = z).
  { intros d z Ht [Hlo Hhi]. unfold static_cast_int64. rewrite Ht.
    destruct (Z.leb_spec int64_min z); [| lia].
    destruct (Z.leb_spec z int64_max); [reflexivity | lia]. }
  split; [| split; [| split; [| split]]].
  - reflexivity.
  - exact Hcast.
  - intros d z m Ht Hz Hsum Hcount s'. subst s'.
    unfold AggregatingSink.sum, AggregatingSink.count, AggregatingSink.min,
      AggregatingSink.max, AggregatingSink.consume. simpl.
    rewrite (Hcast d z Ht Hz), wrap_s64_small, incr64_small by assumption.
    repeat split.
  - intros e Hi Hd. unfold AggregatingSink.consume. now rewrite Hi, Hd.
  - intros m str blob. repeat split.
Qed.

(** 2.75 and -2.75 as binary64 data: 11 * 2^-2. *)
Lemma consume_double_and_other_witness :
  let d := S754_finite false 11 (-2) in
  let nd := S754_finite true 11 (-2) in
  let s := AggregatingSink.consume (Event_of_payload (PInt 40) 0) AggregatingSink.new in
  trunc_float d = Some 2 /\ trunc_float nd = Some (-2) /\
  (let s' := AggregatingSink.consume (Event_of_payload (PDouble d) 1) s in
   AggregatingSink.sum s' = AggregatingSink.sum s + 2 /\
   AggregatingSink.count s' = AggregatingSink.count s + 1 /\
   AggregatingSink.min s' = AggregatingSink.min s /\
   AggregatingSink.max s' = AggregatingSink.max s) /\
  AggregatingSink.consume (Event_of_payload (PString "x") 2) s = s.
Proof.
  intros d nd s.
  split; [reflexivity |]. split; [reflexivity |]. split.
  - apply (proj1 (proj2 (proj2 (consume_double_and_other s))) d 2
             (EventMetadata_default 1)).
    + reflexivity.
    + vm_compute. split; discriminate.
    + vm_compute. split; discriminate.
    + vm_compute. split; [discriminate | reflexivity].
  - apply (proj1 (proj2 (proj2 (proj2 (consume_double_and_other s))))
             (Event_of_payload (PString "x") 2)); reflexivity.
Defined.

(** ** Witnesses of the queue properties, at capacity 4 and capacity 1 *)

Lemma queue_invariant_along_runs_witness :
  0 <= 2 < 64 /\ 4 = 2 ^ 2 /\
  let ops := [OpPush (Event_of_payload (PInt 1) 0); OpPop; OpPop; OpClose] in
  let q := run_ops 4 ops (BQ.BoundedQueue_new 4 0) in
  wf 4 q /\ 0 <= BQ.size q <= 4.
Proof.
  split; [lia |]. split; [reflexivity |].
  pose proof (queue_invariant_along_runs 4 2 ltac:(lia) eq_refl 0
                [OpPush (Event_of_payload (PInt 1) 0); OpPop; OpPop; OpClose])
    as (Hwf & Hs & _).
  split; [exact Hwf | exact Hs].
Defined.

Lemma push_pop_round_trip_witness :
  let l := [Event_of_payload (PInt 42) 1; Event_of_payload (PString "x") 2] in
  0 <= 2 < 64 /\ 4 = 2 ^ 2 /\ Z.of_nat (length l) <= 4 /\
  exists q q',
    push_all 4 l (BQ.BoundedQueue_new 4 0) = (replicate (length l) true, q) /\
    BQ.size q = Z.of_nat (length l) /\
    pop_n 4 (length l) q = (Some <$> l, q') /\
    BQ.empty q' = true.
Proof.
  intros l. split; [lia |]. split; [reflexivity |]. split; [simpl; lia |].
  apply (push_pop_round_trip 4 2 ltac:(lia) eq_refl 0 l). simpl. lia.
Defined.

Lemma try_push_fills_to_capacity_witness :
  let l := (fun i => Event_of_payload (PInt i) 0) <$> [0; 1; 2; 3; 99] in
  0 <= 2 < 64 /\ 4 = 2 ^ 2 /\
  exists q,
    try_push_all 4 l (BQ.BoundedQueue_new 4 0)
    = ([true; true; true; true; false], q) /\
    contents 4 q = take 4 l /\ BQ.size q = 4.
Proof.
  intros l. split; [lia |]. split; [reflexivity |].
  exact (try_push_fills_to_capacity 4 2 ltac:(lia) eq_refl 0 l).
Defined.

Lemma full_queue_1_wf : wf 1 full_queue_1.
Proof. unfold wf. repeat split; vm_compute; congruence. Defined.


Lemma close_releases_waiters_witness :
  let e := Event_of_payload (PInt 8) 0 in
  closed_ full_queue_1 = false /\ size_ full_queue_1 = 1 /\
  exists q1, BQ.push 1 e full_queue_1 = Parked q1 /\
             BQ.push_resume 1 e (BQ.close q1) = Done false (BQ.close q1) /\
             contents 1 (BQ.close q1) = contents 1 full_queue_1.
Proof.
  intros e. split; [reflexivity |]. split; [reflexivity |].
  exact (proj1 (close_releases_waiters 1 e full_queue_1 eq_refl) eq_refl).
Defined.

Lemma push_variants_agree_witness :
  let e := Event_of_payload (PInt 8) 0 in
  let q := BQ.BoundedQueue_new 4 0 in
  closed_ q = false /\ size_ q < 4 /\
  BQ.push 4 e q = Done true (BQ.store_event 4 e (count_push q)) /\
  BQ.push_for 4 e q = Done true (BQ.store_event 4 e (count_push q)) /\
  BQ.try_push 4 e q = (true, BQ.store_event 4 e (count_push q)).
Proof.
  intros e q. split; [reflexivity |]. split; [simpl; lia |].
  apply (proj1 (push_variants_agree 4 e q)); [reflexivity | simpl; lia].
Defined.

Lemma pop_variants_agree_witness :
  let x := Event_of_payload (PInt 7) 0 in
  0 <= 0 < 64 /\ 1 = 2 ^ 0 /\ wf 1 full_queue_1 /\
  contents 1 full_queue_1 = [x] /\
  exists q', BQ.pop 1 full_queue_1 = Done (Some x) q' /\
             BQ.pop_for 1 full_queue_1 = Done (Some x) q' /\
             BQ.try_pop 1 full_queue_1 = (Some x, q') /\
             contents 1 q' = [] /\
             pop_count (stats_ q') = incr64 (pop_count (stats_ full_queue_1)).
Proof.
  intros x. split; [lia |]. split; [reflexivity |].
  split; [exact full_queue_1_wf |]. split; [reflexivity |].
  exact (proj1 (pop_variants_agree 1 0 ltac:(lia) eq_refl full_queue_1)
           x [] full_queue_1_wf eq_refl).
Defined.

(** ** Emission *)

Section EmitFacts.

Variable e : Event.

Lemma incr64_wrap64 c : incr64 (wrap64 c) = wrap64 (c + 1).
Proof. unfold incr64, wrap64. now rewrite Zplus_mod_idemp_l. Qed.

Lemma push_room q :
  BQ.full Queue_Capacity q = false ->
  BQ.push Queue_Capacity e q
  = Done (negb (closed_ q)) (step_state (BQ.push Queue_Capacity e q)).
Proof.
  unfold BQ.full, BQ.push, BQ.push_loop. cbn [size_ closed_ count_push set_stats].
  intros ->. destruct (closed_ q); reflexivity.
Qed.

Lemma count_outputs_ext p p' outs :
  (forall o, o ∈ outs -> p o = p' o) ->
  count_outputs p outs = count_outputs p' outs.
Proof.
  induction outs as [| o outs IH]; intros H; [reflexivity |].
  cbn [count_outputs]. rewrite (H o) by left. rewrite IH; [reflexivity |].
  intros o' Ho'. apply H. now right.
Qed.

Lemma count_outputs_bounds p outs :
  0 <= count_outputs p outs <= Z.of_nat (length outs).
Proof.
  induction outs as [| o outs IH]; cbn [count_outputs length]; [lia |].
  destruct (p o); lia.
Qed.

Lemma count_outputs_all p outs :
  count_outputs p outs = Z.of_nat (length outs) -> forall o, o ∈ outs -> p o = true.
Proof.
  induction outs as [| o outs IH]; intros H o' Ho'.
  - inversion Ho'.
  - cbn [count_outputs length] in H.
    pose proof (count_outputs_bounds p outs) as Hb.
    destruct (p o) eqn:Hp; [| lia].
    apply elem_of_cons in Ho' as [-> | Ho']; [exact Hp |].
    apply IH; [lia | exact Ho'].
Qed.

Lemma is_open_insert_ne (st : list BoundedQueue) o o' q :
  o <> o' -> is_open (<[o := q]> st) o' = is_open st o'.
Proof.
  intros H. unfold is_open, QueueRef, QueueStore in *. now rewrite list_lookup_insert_ne.
Qed.

Lemma has_room_insert_ne (st : list BoundedQueue) o o' q :
  o <> o' -> has_room (<[o := q]> st) o' = has_room st o'.
Proof.
  intros H. unfold has_room, QueueRef, QueueStore in *. now rewrite list_lookup_insert_ne.
Qed.

Lemma not_full_insert_ne (st : list BoundedQueue) o o' q :
  o <> o' -> not_full st o' -> not_full (<[o := q]> st) o'.
Proof.
  intros H (q0 & Hq & Hf). exists q0. split; [| exact Hf].
  unfold QueueRef, QueueStore in *. now rewrite list_lookup_insert_ne.
Qed.

(** The loop of [emit] over outputs that are distinct and not full. *)
Lemma emit_from_room outs :
  forall rest c pushes (st : list BoundedQueue),
    NoDup outs -> (forall o, o ∈ outs -> not_full st o) ->
    OperatorContext.emit_from false e (outs ++ rest) (wrap64 c) pushes st
    = OperatorContext.emit_from false e rest
        (wrap64 (c + count_outputs (is_open st) outs))
        (pushes ++ ((fun o => (o, is_open st o)) <$> outs))
        (pushed e st outs).
Proof.
  induction outs as [| o outs IH]; intros rest c pushes st Hnd Hroom.
  - cbn. now rewrite Z.add_0_r, app_nil_r.
  - apply NoDup_cons in Hnd as [Hnotin Hnd].
    destruct (Hroom o) as (q & Hq & Hfull); [left |].
    assert (Hne : forall o', o' ∈ outs -> o <> o') by (intros o' Ho' ->; auto).
    cbn [app OperatorContext.emit_from]. rewrite Hq, (push_room q Hfull).
    set (q' := step_state (BQ.push Queue_Capacity e q)).
    assert (Hcount : (if negb (closed_ q) then incr64 (wrap64 c) else wrap64 c)
                     = wrap64 (c + (if is_open st o then 1 else 0))).
    { unfold is_open. rewrite Hq. destruct (closed_ q); cbn [negb].
      - now rewrite Z.add_0_r.
      - apply incr64_wrap64. }
    rewrite Hcount, IH; [| exact Hnd |].
    + cbn [count_outputs fmap list_fmap]. unfold pushed at 2.
      cbn [fold_left]. rewrite Hq. fold q'.
      rewrite (count_outputs_ext (is_open (<[o := q']> st)) (is_open st))
        by (intros o' Ho'; apply is_open_insert_ne; auto).
      rewrite <- app_assoc. cbn [app].
      f_equal; [f_equal; lia |].
      do 2 f_equal; [unfold is_open; now rewrite Hq |].
      apply list_fmap_ext. intros i o' Ho'. f_equal.
      apply is_open_insert_ne, Hne. eapply list_elem_of_lookup_2, Ho'.
    + intros o' Ho'. apply not_full_insert_ne; [auto |]. apply Hroom. now right.
Qed.

Lemma pushed_cons (st : list BoundedQueue) o outs :
  pushed e st (o :: outs)
  = pushed e (match st !! o with
              | Some q => <[o := step_state (BQ.push Queue_Capacity e q)]> st
              | None => st
              end) outs.
Proof. reflexivity. Qed.

Lemma pushed_lookup_other outs :
  forall (st : list BoundedQueue) o, o ∉ outs -> pushed e st outs !! o = st !! o.
Proof.
  induction outs as [| o' outs IH]; intros st o Ho; [reflexivity |].
  apply not_elem_of_cons in Ho as [Hne Ho].
  rewrite pushed_cons, IH by exact Ho.
  destruct (st !! o') as [q |] eqn:Hq; [| reflexivity].
  apply list_lookup_insert_ne. congruence.
Qed.

Lemma pushed_lookup outs :
  forall (st : list BoundedQueue) o q,
    NoDup outs -> o ∈ outs -> st !! o = Some q ->
    pushed e st outs !! o = Some (step_state (BQ.push Queue_Capacity e q)).
Proof.
  induction outs as [| o' outs IH]; intros st o q Hnd Ho Hq; [inversion Ho |].
  apply NoDup_cons in Hnd as [Hnotin Hnd]. rewrite pushed_cons.
  apply elem_of_cons in Ho as [-> | Ho].
  - rewrite Hq, pushed_lookup_other by exact Hnotin.
    apply list_lookup_insert_eq. eapply lookup_lt_Some, Hq.
  - assert (Hne : o' <> o) by (intros ->; auto).
    apply IH; [exact Hnd | exact Ho |].
    destruct (st !! o') as [q0 |]; [| exact Hq].
    rewrite list_lookup_insert_ne by exact Hne. exact Hq.
Qed.

Lemma count_outputs_short p outs :
  count_outputs p outs < Z.of_nat (length outs) ->
  exists o, o ∈ outs /\ p o = false.
Proof.
  induction outs as [| o outs IH]; cbn [count_outputs length]; [lia |].
  intros H. destruct (p o) eqn:Hp.
  - destruct IH as (o' & Ho' & Hp'); [lia |]. exists o'. split; [now right | exact Hp'].
  - exists o. split; [left | exact Hp].
Qed.

Lemma Queue_Capacity_pow2 : Queue_Capacity = 2 ^ 12.
Proof. reflexivity. Qed.

(** What a completed push does to the events of a queue with room. *)
Lemma push_room_contents q :
  wf Queue_Capacity q -> BQ.full Queue_Capacity q = false ->
  contents Queue_Capacity (step_state (BQ.push Queue_Capacity e q))
  = contents Queue_Capacity q ++ (if closed_ q then [] else [e]).
Proof.
  intros Hwf Hfull. destruct (closed_ q) eqn:Hc.
  - rewrite push_closed by exact Hc. now rewrite app_nil_r.
  - destruct (push_open Queue_Capacity 12 ltac:(lia) Queue_Capacity_pow2 e q Hwf Hc)
      as (q' & Hp & _ & _ & Hk).
    + unfold BQ.full in Hfull. apply Z.eqb_neq in Hfull.
      destruct Hwf as (_ & _ & Hs & _). lia.
    + now rewrite Hp.
Qed.

Lemma push_closed_flag q :
  closed_ (step_state (BQ.push Queue_Capacity e q)) = closed_ q.
Proof.
  unfold BQ.push, BQ.push_loop. cbn [size_ closed_ count_push set_stats].
  destruct (size_ q =? Queue_Capacity), (closed_ q) eqn:Hc; cbn; congruence.
Qed.

(** X8.  [emit] on a context whose outputs are distinct queues, none of
    them full, returns; the count it returns is the number of outputs that
    are not closed; the pushes were made on the outputs in the order of
    their declaration, each accepted exactly when its queue is open; every
    open output has the event appended to the events it held, every closed
    one holds what it held, and no other queue of the store is touched.  A
    count below the number of outputs shows a closed output. *)
Theorem emit_counts_open_outputs (ctx : OperatorContext.t) (st : list BoundedQueue) :
  let outs := OperatorContext.outputs_ ctx in
  NoDup outs -> Z.of_nat (length outs) < 2 ^ 64 ->
  (forall o, o ∈ outs -> not_full st o) ->
  exists st',
    OperatorContext.emit e ctx st
    = EmitReturned (count_outputs (is_open st) outs)
        ((fun o => (o, is_open st o)) <$> outs) st' /\
    (forall o q,
        o ∈ outs -> st !! o = Some q ->
        exists q', st' !! o = Some q' /\ closed_ q' = closed_ q /\
                   (wf Queue_Capacity q ->
                    contents Queue_Capacity q'
                    = contents Queue_Capacity q ++ (if closed_ q then [] else [e]))) /\
    (forall o, o ∉ outs -> st' !! o = st !! o) /\
    (count_outputs (is_open st) outs < Z.of_nat (length outs) ->
     exists o q, o ∈ outs /\ st !! o = Some q /\ closed_ q = true).
Proof.
  intros outs Hnd Hlen Hroom. exists (pushed e st outs).
  split; [| split; [| split]].
  - unfold OperatorContext.emit. fold outs.
    pose proof (emit_from_room outs [] 0 [] st Hnd Hroom) as H.
    rewrite app_nil_r in H. change (wrap64 0) with 0 in H. rewrite H.
    cbn [OperatorContext.emit_from app]. f_equal.
    pose proof (count_outputs_bounds (is_open st) outs).
    apply wrap64_small. lia.
  - intros o q Ho Hq. eexists. split; [exact (pushed_lookup outs st o q Hnd Ho Hq) |].
    split; [apply push_closed_flag |].
    intros Hwf. apply push_room_contents; [exact Hwf |].
    destruct (Hroom o Ho) as (q0 & Hq0 & Hf).
    unfold QueueStore, QueueRef in *. rewrite Hq in Hq0.
    injection Hq0 as <-. exact Hf.
  - intros o Ho. now apply pushed_lookup_other.
  - intros Hshort.
    destruct (count_outputs_short _ _ Hshort) as (o & Ho & Hp).
    destruct (Hroom o Ho) as (q & Hq & _).
    exists o, q. split; [exact Ho |]. split; [exact Hq |].
    unfold is_open in Hp. rewrite Hq in Hp. now destruct (closed_ q).
Qed.

(** X9.  [emit] is blocking: at the first output that is full and open the
    caller waits inside [push], after the pushes on the outputs declared
    before it and before any push on the outputs declared after it. *)
Theorem emit_blocks_on_full_output
    (ctx : OperatorContext.t) (st : list BoundedQueue)
    (pre post : list QueueRef) (o : QueueRef) (q : BoundedQueue) :
  OperatorContext.outputs_ ctx = pre ++ o :: post ->
  NoDup pre -> o ∉ pre ->
  (forall p, p ∈ pre -> not_full st p) ->
  st !! o = Some q -> BQ.full Queue_Capacity q = true -> closed_ q = false ->
  OperatorContext.emit e ctx st
  = EmitParked (wrap64 (count_outputs (is_open st) pre)) (o :: post)
      ((fun p => (p, is_open st p)) <$> pre)
      (<[o := count_push_blocked (count_push q)]> (pushed e st pre)).
Proof.
  intros Houts Hnd Hnotin Hroom Hq Hfull Hc.
  unfold OperatorContext.emit. rewrite Houts.
  pose proof (emit_from_room pre (o :: post) 0 [] st Hnd Hroom) as H.
  change (wrap64 0) with 0 in H. rewrite H. cbn [app OperatorContext.emit_from].
  rewrite pushed_lookup_other, Hq by exact Hnotin.
  unfold BQ.push, BQ.push_loop. cbn [size_ closed_ count_push set_stats].
  unfold BQ.full in Hfull. rewrite Hfull, Hc. reflexivity.
Qed.


Lemma try_push_result q :
  fst (BQ.try_push Queue_Capacity e q)
  = negb (closed_ q) && negb (BQ.full Queue_Capacity q).
Proof.
  unfold BQ.try_push, BQ.full.
  destruct (size_ q =? Queue_Capacity), (closed_ q); reflexivity.
Qed.

Lemma try_push_no_room q :
  negb (closed_ q) && negb (BQ.full Queue_Capacity q) = false ->
  snd (BQ.try_push Queue_Capacity e q) = q.
Proof.
  unfold BQ.try_push, BQ.full.
  destruct (size_ q =? Queue_Capacity), (closed_ q); cbn; congruence.
Qed.

Lemma try_pushed_cons (st : list BoundedQueue) o outs :
  try_pushed e st (o :: outs)
  = try_pushed e (match st !! o with
                  | Some q => <[o := snd (BQ.try_push Queue_Capacity e q)]> st
                  | None => st
                  end) outs.
Proof. reflexivity. Qed.

Lemma try_pushed_lookup_other outs :
  forall (st : list BoundedQueue) o, o ∉ outs -> try_pushed e st outs !! o = st !! o.
Proof.
  induction outs as [| o' outs IH]; intros st o Ho; [reflexivity |].
  apply not_elem_of_cons in Ho as [Hne Ho].
  rewrite try_pushed_cons, IH by exact Ho.
  destruct (st !! o') as [q |] eqn:Hq; [| reflexivity].
  apply list_lookup_insert_ne. congruence.
Qed.

Lemma try_pushed_lookup outs :
  forall (st : list BoundedQueue) o q,
    NoDup outs -> o ∈ outs -> st !! o = Some q ->
    try_pushed e st outs !! o = Some (snd (BQ.try_push Queue_Capacity e q)).
Proof.
  induction outs as [| o' outs IH]; intros st o q Hnd Ho Hq; [inversion Ho |].
  apply NoDup_cons in Hnd as [Hnotin Hnd]. rewrite try_pushed_cons.
  apply elem_of_cons in Ho as [-> | Ho].
  - rewrite Hq, try_pushed_lookup_other by exact Hnotin.
    apply list_lookup_insert_eq. eapply lookup_lt_Some, Hq.
  - assert (Hne : o' <> o) by (intros ->; auto).
    apply IH; [exact Hnd | exact Ho |].
    destruct (st !! o') as [q0 |]; [| exact Hq].
    rewrite list_lookup_insert_ne by exact Hne. exact Hq.
Qed.

(** The loop of [try_emit] over outputs that are distinct queues. *)
Lemma try_emit_from_spec outs :
  forall c pushes (st : list BoundedQueue),
    NoDup outs -> (forall o, o ∈ outs -> is_Some (st !! o)) ->
    OperatorContext.try_emit_from e outs (wrap64 c) pushes st
    = EmitReturned (wrap64 (c + count_outputs (has_room st) outs))
        (pushes ++ ((fun o => (o, has_room st o)) <$> outs))
        (try_pushed e st outs).
Proof.
  induction outs as [| o outs IH]; intros c pushes st Hnd Hval.
  - cbn. now rewrite Z.add_0_r, app_nil_r.
  - apply NoDup_cons in Hnd as [Hnotin Hnd].
    destruct (Hval o) as (q & Hq); [left |].
    assert (Hne : forall o', o' ∈ outs -> o <> o') by (intros o' Ho' ->; auto).
    cbn [OperatorContext.try_emit_from]. unfold QueueRef, QueueStore in *. rewrite Hq.
    rewrite (surjective_pairing (BQ.try_push Queue_Capacity e q)), try_push_result.
    set (q' := snd (BQ.try_push Queue_Capacity e q)).
    assert (Hroom : has_room st o
                    = negb (closed_ q) && negb (BQ.full Queue_Capacity q))
      by (unfold has_room, QueueRef, QueueStore in *; now rewrite Hq).
    rewrite <- Hroom.
    assert (Hcount : (if has_room st o then incr64 (wrap64 c) else wrap64 c)
                     = wrap64 (c + (if has_room st o then 1 else 0))).
    { destruct (has_room st o); [apply incr64_wrap64 | now rewrite Z.add_0_r]. }
    rewrite Hcount, IH; [| exact Hnd |].
    + rewrite try_pushed_cons. unfold QueueRef, QueueStore in *. rewrite Hq.
      fold q'. cbn [count_outputs fmap list_fmap].
      rewrite (count_outputs_ext (has_room (<[o := q']> st)) (has_room st))
        by (intros o' Ho'; apply has_room_insert_ne; auto).
      rewrite <- app_assoc. cbn [app].
      f_equal; [f_equal; lia |].
      do 2 f_equal.
      apply list_fmap_ext. intros i o' Ho'. f_equal.
      apply has_room_insert_ne, Hne. eapply list_elem_of_lookup_2, Ho'.
    + intros o' Ho'. unfold QueueRef, QueueStore in *.
      rewrite list_lookup_insert_ne by auto. apply Hval. now right.
Qed.

(** X10.  [try_emit] never waits: on distinct outputs it returns, the
    count being the number of outputs that are neither closed nor full;
    those get the event appended, and an output that is closed or full is
    left exactly as it was, statistics included. *)
Theorem try_emit_never_waits (ctx : OperatorContext.t) (st : list BoundedQueue) :
  let outs := OperatorContext.outputs_ ctx in
  NoDup outs -> Z.of_nat (length outs) < 2 ^ 64 ->
  (forall o, o ∈ outs -> is_Some (st !! o)) ->
  exists st',
    OperatorContext.try_emit e ctx st
    = EmitReturned (count_outputs (has_room st) outs)
        ((fun o => (o, has_room st o)) <$> outs) st' /\
    (forall o q,
        o ∈ outs -> st !! o = Some q -> has_room st o = false ->
        st' !! o = Some q) /\
    (forall o q,
        o ∈ outs -> st !! o = Some q -> has_room st o = true ->
        wf Queue_Capacity q ->
        exists q', st' !! o = Some q' /\
                   contents Queue_Capacity q' = contents Queue_Capacity q ++ [e]) /\
    (forall o, o ∉ outs -> st' !! o = st !! o).
Proof.
  intros outs Hnd Hlen Hval. exists (try_pushed e st outs).
  split; [| split; [| split]].
  - unfold OperatorContext.try_emit. fold outs.
    pose proof (try_emit_from_spec outs 0 [] st Hnd Hval) as H.
    change (wrap64 0) with 0 in H. rewrite H. cbn [app]. f_equal.
    pose proof (count_outputs_bounds (has_room st) outs).
    apply wrap64_small. lia.
  - intros o q Ho Hq Hroom.
    rewrite (try_pushed_lookup outs st o q Hnd Ho Hq). f_equal.
    apply try_push_no_room. unfold has_room in Hroom.
    unfold QueueRef, QueueStore in *. now rewrite Hq in Hroom.
  - intros o q Ho Hq Hroom Hwf.
    exists (snd (BQ.try_push Queue_Capacity e q)).
    split; [exact (try_pushed_lookup outs st o q Hnd Ho Hq) |].
    unfold has_room in Hroom. unfold QueueRef, QueueStore in *.
    rewrite Hq in Hroom. apply andb_true_iff in Hroom as [Hc Hf].
    apply negb_true_iff in Hc, Hf. unfold BQ.full in Hf. apply Z.eqb_neq in Hf.
    destruct (try_push_open Queue_Capacity 12 ltac:(lia) Queue_Capacity_pow2 e q Hwf Hc)
      as (q' & Htp & _ & _ & _ & Hk).
    + destruct Hwf as (_ & _ & Hs & _). lia.
    + now rewrite Htp.
  - intros o Ho. now apply try_pushed_lookup_other.
Qed.


End EmitFacts.

(** A store of two queues, the second one closed, and one of a full queue
    beside an open one; a context over the two queues of each. *)
Lemma emit_counts_open_outputs_witness :
  let e := Event_of_payload (PInt 5) 0 in
  let st := [BQ.BoundedQueue_new Queue_Capacity 0;
             BQ.close (BQ.BoundedQueue_new Queue_Capacity 0)] in
  let ctx := OperatorContext.mk "op" 0 [0%nat; 1%nat] in
  NoDup (OperatorContext.outputs_ ctx) /\
  Z.of_nat (length (OperatorContext.outputs_ ctx)) < 2 ^ 64 /\
  (forall o, o ∈ OperatorContext.outputs_ ctx -> not_full st o) /\
  exists st',
    OperatorContext.emit e ctx st
    = EmitReturned 1 [(0%nat, true); (1%nat, false)] st'.
Proof.
  intros e st ctx.
  assert (Hnd : NoDup (OperatorContext.outputs_ ctx))
    by (apply (bool_decide_unpack _); vm_compute; exact I).
  assert (Hlen : Z.of_nat (length (OperatorContext.outputs_ ctx)) < 2 ^ 64)
    by reflexivity.
  assert (Hroom : forall o, o ∈ OperatorContext.outputs_ ctx -> not_full st o).
  { intros o Ho. apply elem_of_cons in Ho as [-> | Ho];
      [| apply list_elem_of_singleton in Ho as ->];
      eexists; split; reflexivity. }
  split; [exact Hnd |]. split; [exact Hlen |]. split; [exact Hroom |].
  destruct (emit_counts_open_outputs e ctx st Hnd Hlen Hroom) as (st' & H & _).
  exists st'. exact H.
Defined.

Lemma emit_blocks_on_full_output_witness :
  let e := Event_of_payload (PInt 5) 0 in
  let st := [BQ.BoundedQueue_new Queue_Capacity 0; full_queue_4096;
             BQ.BoundedQueue_new Queue_Capacity 0] in
  let ctx := OperatorContext.mk "op" 0 [0%nat; 1%nat; 2%nat] in
  exists st',
    OperatorContext.emit e ctx st
    = EmitParked 1 [1%nat; 2%nat] [(0%nat, true)] st' /\
    st' !! 2%nat = Some (BQ.BoundedQueue_new Queue_Capacity 0).
Proof.
  intros e st ctx.
  assert (Hroom : forall p, p ∈ [0%nat] -> not_full st p).
  { intros p Hp. apply list_elem_of_singleton in Hp as ->.
    eexists; split; reflexivity. }
  assert (Hnot : 1%nat ∉ [0%nat])
    by (intros H; apply list_elem_of_singleton in H; discriminate).
  pose proof (emit_blocks_on_full_output e ctx st [0%nat] [2%nat] 1%nat
                full_queue_4096 eq_refl (NoDup_singleton _) Hnot Hroom
                eq_refl eq_refl eq_refl) as H.
  eexists. split; [exact H | reflexivity].
Defined.

Lemma try_emit_never_waits_witness :
  let e := Event_of_payload (PInt 5) 0 in
  let st := [BQ.BoundedQueue_new Queue_Capacity 0; full_queue_4096;
             BQ.close (BQ.BoundedQueue_new Queue_Capacity 0)] in
  let ctx := OperatorContext.mk "op" 0 [0%nat; 1%nat; 2%nat] in
  exists st',
    OperatorContext.try_emit e ctx st
    = EmitReturned 1 [(0%nat, true); (1%nat, false); (2%nat, false)] st' /\
    st' !! 1%nat = Some full_queue_4096.
Proof.
  intros e st ctx.
  assert (Hnd : NoDup (OperatorContext.outputs_ ctx))
    by (apply (bool_decide_unpack _); vm_compute; exact I).
  assert (Hval : forall o, o ∈ OperatorContext.outputs_ ctx -> is_Some (st !! o)).
  { intros o Ho. apply elem_of_cons in Ho as [-> | Ho];
      [| apply elem_of_cons in Ho as [-> | Ho];
         [| apply list_elem_of_singleton in Ho as ->]];
      eexists; reflexivity. }
  destruct (try_emit_never_waits e ctx st Hnd eq_refl Hval)
    as (st' & H & Hsame & _).
  exists st'. split; [exact H |].
  apply (Hsame 1%nat full_queue_4096); [| reflexivity | reflexivity].
  apply elem_of_cons. right. apply elem_of_cons. now left.
Defined.

(** ** Operators *)

Section OperatorFacts.

Variable ctx : OperatorContext.t.
Variable st : list BoundedQueue.

(** The outputs of the context are distinct queues of the store, none of
    them full. *)
Hypothesis outs_distinct : NoDup (OperatorContext.outputs_ ctx).
Hypothesis outs_count : Z.of_nat (length (OperatorContext.outputs_ ctx)) < 2 ^ 64.
Hypothesis outs_room : forall o, o ∈ OperatorContext.outputs_ ctx -> not_full st o.

Lemma emit_room e :
  OperatorContext.emit e ctx st
  = EmitReturned (count_outputs (is_open st) (OperatorContext.outputs_ ctx))
      (pushes_in_order (OperatorContext.outputs_ ctx) st)
      (pushed e st (OperatorContext.outputs_ ctx)).
Proof.
  unfold OperatorContext.emit.
  pose proof (emit_from_room e (OperatorContext.outputs_ ctx) [] 0 [] st
                outs_distinct outs_room) as H.
  rewrite app_nil_r in H. change (wrap64 0) with 0 in H. rewrite H.
  cbn [OperatorContext.emit_from app]. f_equal.
  pose proof (count_outputs_bounds (is_open st) (OperatorContext.outputs_ ctx)).
  apply wrap64_small. lia.
Qed.

Lemma pushed_delivered e :
  delivered e (OperatorContext.outputs_ ctx) st
    (pushed e st (OperatorContext.outputs_ ctx)).
Proof.
  intros o q Ho Hq Hwf. eexists.
  split; [exact (pushed_lookup e _ st o q outs_distinct Ho Hq) |].
  apply push_room_contents; [exact Hwf |].
  destruct (outs_room o Ho) as (q0 & Hq0 & Hf).
  unfold QueueStore, QueueRef in *. rewrite Hq in Hq0.
  injection Hq0 as <-. exact Hf.
Qed.

(** X11.  A function operator built from a callable that returns a payload
    emits, for every input event, one event made of that payload and of
    freshly constructed metadata: no key, no sequence number, no source
    operator, and the clock reading of the construction as its time stamp;
    nothing of the input event's metadata is carried over.  The event goes
    to every open output, and the operator counts one event received and
    one emitted, whether or not an output took it. *)
Theorem function_operator_payload_shape
    (f : Event -> Payload) (op : FunctionOperator.t) (clk : Clock) (event : Event) :
  FunctionOperator.func_ op = FunctionOperator.FnPayload f ->
  let out := mkEvent (f event) (EventMetadata_default (t_event clk)) in
  exists op' st',
    FunctionOperator.process clk event ctx st op
    = ProcessReturned op' (pushes_in_order (OperatorContext.outputs_ ctx) st) st' /\
    delivered out (OperatorContext.outputs_ ctx) st st' /\
    key (metadata out) = None /\ sequence (metadata out) = None /\
    source_operator (metadata out) = None /\
    timestamp (metadata out) = t_event clk /\
    events_received (Operator.stats_ (FunctionOperator.base op'))
    = incr64 (events_received (Operator.stats_ (FunctionOperator.base op))) /\
    events_emitted (Operator.stats_ (FunctionOperator.base op'))
    = incr64 (events_emitted (Operator.stats_ (FunctionOperator.base op))).
Proof.
  intros Hf out. unfold FunctionOperator.process. rewrite Hf.
  change (Event_of_payload (f event) (t_event clk)) with out.
  rewrite emit_room. cbn [FunctionOperator.after_emit].
  eexists. eexists. split; [reflexivity |].
  split; [apply pushed_delivered |]. repeat split.
Qed.

(** X12.  A function operator built from a callable that returns an
    optional event emits the event when there is one; when there is none it
    pushes nothing, leaves the store as it is, and counts the event as
    received but not as emitted. *)
Theorem function_operator_optional_shape
    (f : Event -> option Event) (op : FunctionOperator.t) (clk : Clock) (event : Event) :
  FunctionOperator.func_ op = FunctionOperator.FnOptional f ->
  exists op' pushes st',
    FunctionOperator.process clk event ctx st op = ProcessReturned op' pushes st' /\
    events_received (Operator.stats_ (FunctionOperator.base op'))
    = incr64 (events_received (Operator.stats_ (FunctionOperator.base op))) /\
    match f event with
    | Some result =>
        pushes = pushes_in_order (OperatorContext.outputs_ ctx) st /\
        delivered result (OperatorContext.outputs_ ctx) st st' /\
        events_emitted (Operator.stats_ (FunctionOperator.base op'))
        = incr64 (events_emitted (Operator.stats_ (FunctionOperator.base op)))
    | None =>
        pushes = [] /\ st' = st /\
        events_emitted (Operator.stats_ (FunctionOperator.base op'))
        = events_emitted (Operator.stats_ (FunctionOperator.base op))
    end.
Proof.
  intros Hf. unfold FunctionOperator.process. rewrite Hf.
  destruct (f event) as [result |].
  - rewrite emit_room. cbn [FunctionOperator.after_emit].
    do 3 eexists. split; [reflexivity |]. split; [reflexivity |].
    split; [reflexivity |]. split; [apply pushed_delivered | reflexivity].
  - do 3 eexists. split; [reflexivity |]. repeat split.
Qed.

(** X13.  A map operator over payloads emits the transformed payload with
    the metadata of the input event, unchanged: key, sequence number, time
    stamp and source operator are those of the input. *)
Theorem map_operator_keeps_metadata
    (f : Payload -> Payload) (op : MapOperator.t) (clk : Clock) (event : Event) :
  MapOperator.func_ op = MapOperator.MapPayload f ->
  let out := mkEvent (f (payload event)) (metadata event) in
  exists op' st',
    MapOperator.process clk event ctx st op
    = ProcessReturned op' (pushes_in_order (OperatorContext.outputs_ ctx) st) st' /\
    delivered out (OperatorContext.outputs_ ctx) st st' /\
    metadata out = metadata event /\
    events_emitted (Operator.stats_ (MapOperator.base op'))
    = incr64 (events_emitted (Operator.stats_ (MapOperator.base op))).
Proof.
  intros Hf out. unfold MapOperator.process. rewrite Hf.
  change (Event_of_payload_meta (f (payload event)) (metadata event)) with out.
  rewrite emit_room. cbn [MapOperator.after_emit].
  do 2 eexists. split; [reflexivity |].
  split; [apply pushed_delivered |]. split; reflexivity.
Qed.

(** X14.  The integer map applies its function to an integer payload and
    lets every other event through exactly as it came. *)
Theorem int_map_passes_other_payloads
    (name : string) (func : Z -> Z) (clk : Clock) (event : Event) :
  let out := match payload event with
             | PInt val => mkEvent (PInt (func val)) (metadata event)
             | _ => event
             end in
  exists op' st',
    MapOperator.process clk event ctx st (make_int_map name func)
    = ProcessReturned op' (pushes_in_order (OperatorContext.outputs_ ctx) st) st' /\
    delivered out (OperatorContext.outputs_ ctx) st st'.
Proof.
  intros out. unfold MapOperator.process.
  change (MapOperator.func_ (make_int_map name func))
    with (MapOperator.MapPayload
            (fun p => match p with PInt val => PInt (func val) | _ => p end)).
  cbv beta iota. rewrite emit_room. cbn [MapOperator.after_emit].
  do 2 eexists. split; [reflexivity |].
  match goal with
  | |- delivered _ _ _ (pushed ?e _ _) => assert (Hout : e = out)
  end.
  { subst out. destruct event as [p m]. cbn [payload metadata].
    destruct p; reflexivity. }
  rewrite Hout. apply pushed_delivered.
Qed.

(** X15.  A filter lets an event that passes its predicate through
    unchanged, payload and metadata, and counts it as emitted; an event that
    fails is pushed nowhere, the store stays as it is, and the event is
    counted as dropped. *)
Theorem filter_passes_or_drops (op : FilterOperator.t) (clk : Clock) (event : Event) :
  exists op' pushes st',
    FilterOperator.process clk event ctx st op = ProcessReturned op' pushes st' /\
    let s := Operator.stats_ (FilterOperator.base op) in
    let s' := Operator.stats_ (FilterOperator.base op') in
    events_received s' = incr64 (events_received s) /\
    if FilterOperator.passes (FilterOperator.predicate_ op) event then
      pushes = pushes_in_order (OperatorContext.outputs_ ctx) st /\
      delivered event (OperatorContext.outputs_ ctx) st st' /\
      events_emitted s' = incr64 (events_emitted s) /\
      events_dropped s' = events_dropped s
    else
      pushes = [] /\ st' = st /\
      events_emitted s' = events_emitted s /\
      events_dropped s' = incr64 (events_dropped s).
Proof.
  unfold FilterOperator.process.
  destruct (FilterOperator.passes (FilterOperator.predicate_ op) event).
  - rewrite emit_room. do 3 eexists. split; [reflexivity |].
    split; [reflexivity |]. split; [reflexivity |].
    split; [apply pushed_delivered |]. split; reflexivity.
  - do 3 eexists. split; [reflexivity |]. repeat split.
Qed.

End OperatorFacts.

(** X16.  The stock predicates on integers: [even] holds exactly of the
    integer payloads with an even value and [odd] exactly of those with an
    odd value, negative values included; a payload that is not an integer
    satisfies neither, and no payload satisfies both. *)
Theorem even_odd_filters (p : Payload) :
  (filters.even p = true <-> exists v, p = PInt v /\ Z.even v = true) /\
  (filters.odd p = true <-> exists v, p = PInt v /\ Z.odd v = true) /\
  (filters.even p && filters.odd p = false).
Proof.
  assert (Hrem : forall v, (Z.rem v 2 =? 0) = Z.even v).
  { intros v. destruct (Z.even v) eqn:Hev.
    - apply Z.eqb_eq. apply Z.rem_divide; [lia |].
      apply Z.even_spec in Hev as [m ->]. exists m. lia.
    - apply Z.eqb_neq. intros H. apply Z.rem_divide in H as [m ->]; [| lia].
      rewrite Z.mul_comm, Z.even_mul in Hev. discriminate. }
  split; [| split].
  - destruct p; cbn [filters.even]; split;
      try discriminate; try (intros (v0 & [=] & _); fail).
    + intros H. exists v. now rewrite <- Hrem.
    + intros (v0 & [= <-] & H). now rewrite Hrem.
  - destruct p; cbn [filters.odd]; split;
      try discriminate; try (intros (v0 & [=] & _); fail).
    + intros H. exists v. rewrite Hrem in H. split; [reflexivity |].
      now rewrite <- Z.negb_even.
    + intros (v0 & [= <-] & H). rewrite Hrem. now rewrite <- Z.negb_even in H.
  - destruct p; cbn [filters.even filters.odd]; try reflexivity.
    now destruct (Z.rem v 2 =? 0).
Qed.

Lemma one_output_distinct : NoDup (OperatorContext.outputs_ one_output_ctx).
Proof. apply NoDup_singleton. Defined.

Lemma one_output_room :
  forall o, o ∈ OperatorContext.outputs_ one_output_ctx -> not_full one_queue_store o.
Proof.
  intros o Ho. apply list_elem_of_singleton in Ho as ->.
  eexists; split; reflexivity.
Defined.

Lemma function_operator_payload_shape_witness :
  let clk := mkClock 200 201 202 in
  let op := FunctionOperator.make_operator "square"
              (FunctionOperator.FnPayload (fun _ => PInt 25)) in
  exists op' st',
    FunctionOperator.process clk keyed_event one_output_ctx one_queue_store op
    = ProcessReturned op' [(0%nat, true)] st' /\
    delivered (mkEvent (PInt 25) (EventMetadata_default 201)) [0%nat]
      one_queue_store st'.
Proof.
  intros clk op.
  destruct (function_operator_payload_shape one_output_ctx one_queue_store
              one_output_distinct eq_refl one_output_room
              (fun _ => PInt 25) op clk keyed_event eq_refl)
    as (op' & st' & Hp & Hd & _).
  exists op', st'. split; [exact Hp | exact Hd].
Defined.

Lemma function_operator_optional_shape_witness :
  let clk := mkClock 200 201 202 in
  let op := FunctionOperator.make_operator "none"
              (FunctionOperator.FnOptional (fun _ => None)) in
  exists op',
    FunctionOperator.process clk keyed_event one_output_ctx one_queue_store op
    = ProcessReturned op' [] one_queue_store.
Proof.
  intros clk op.
  destruct (function_operator_optional_shape one_output_ctx one_queue_store
              one_output_distinct eq_refl one_output_room
              (fun _ => None) op clk keyed_event eq_refl)
    as (op' & pushes & st' & Hp & _ & Hn & Hs & _).
  exists op'. rewrite Hp. now rewrite Hn, Hs.
Defined.

Lemma map_operator_keeps_metadata_witness :
  let clk := mkClock 200 201 202 in
  let op := MapOperator.make_map "id" (MapOperator.MapPayload (fun p => p)) in
  exists op' st',
    MapOperator.process clk keyed_event one_output_ctx one_queue_store op
    = ProcessReturned op' [(0%nat, true)] st' /\
    delivered keyed_event [0%nat] one_queue_store st'.
Proof.
  intros clk op.
  destruct (map_operator_keeps_metadata one_output_ctx one_queue_store
              one_output_distinct eq_refl one_output_room
              (fun p => p) op clk keyed_event eq_refl)
    as (op' & st' & Hp & Hd & _).
  exists op', st'. split; [exact Hp | exact Hd].
Defined.

Lemma int_map_passes_other_payloads_witness :
  let clk := mkClock 200 201 202 in
  exists op' st',
    MapOperator.process clk keyed_event one_output_ctx one_queue_store
      (make_int_map "square" (fun x => x * x))
    = ProcessReturned op' [(0%nat, true)] st' /\
    delivered (mkEvent (PInt 25) (metadata keyed_event)) [0%nat]
      one_queue_store st'.
Proof.
  intros clk.
  exact (int_map_passes_other_payloads one_output_ctx one_queue_store
           one_output_distinct eq_refl one_output_room
           "square" (fun x => x * x) clk keyed_event).
Defined.

Lemma filter_passes_or_drops_witness :
  let clk := mkClock 200 201 202 in
  let op := FilterOperator.make_filter "even" (FilterOperator.PredPayload filters.even) in
  exists op',
    FilterOperator.process clk keyed_event one_output_ctx one_queue_store op
    = ProcessReturned op' [] one_queue_store /\
    events_dropped (Operator.stats_ (FilterOperator.base op')) = 1.
Proof.
  intros clk op.
  destruct (filter_passes_or_drops one_output_ctx one_queue_store
              one_output_distinct eq_refl one_output_room op clk keyed_event)
    as (op' & pushes & st' & Hp & _ & Hn & Hs & _ & Hd).
  exists op'. rewrite Hp. split; [now rewrite Hn, Hs | exact Hd].
Defined.

(** ** Aggregation over a stream of integers *)

Lemma wrap_s64_add_l a b : wrap_s64 (wrap_s64 a + b) = wrap_s64 (a + b).
Proof.
  unfold wrap_s64. f_equal.
  replace ((a + 2 ^ 63) mod 2 ^ 64 - 2 ^ 63 + b + 2 ^ 63)
    with ((a + 2 ^ 63) mod 2 ^ 64 + b) by lia.
  rewrite Zplus_mod_idemp_l. f_equal. lia.
Qed.

Lemma consume_all_ints l :
  forall s S C,
    AggregatingSink.sum_ s = wrap_s64 S -> AggregatingSink.count_ s = wrap64 C ->
    let s' := consume_all (int_events l) s in
    AggregatingSink.sum_ s' = wrap_s64 (S + total l.*1) /\
    AggregatingSink.count_ s' = wrap64 (C + Z.of_nat (length l)) /\
    AggregatingSink.min_ s' = fold_left Z.min l.*1 (AggregatingSink.min_ s) /\
    AggregatingSink.max_ s' = fold_left Z.max l.*1 (AggregatingSink.max_ s).
Proof.
  induction l as [| [v m] l IH]; intros s S C Hs Hc.
  - cbn. rewrite !Z.add_0_r. auto.
  - cbn [int_events fmap list_fmap consume_all fold_left fst snd length total foldr].
    set (s1 := AggregatingSink.consume (mkEvent (PInt v) m) s).
    destruct (IH s1 (S + v) (C + 1)) as (H1 & H2 & H3 & H4).
    + cbn. rewrite Hs. apply wrap_s64_add_l.
    + cbn. rewrite Hc. apply incr64_wrap64.
    + unfold consume_all, int_events in *. rewrite H1, H2, H3, H4.
      repeat split.
      * f_equal. unfold total. lia.
      * f_equal. lia.
      * f_equal. cbn. destruct (Z.ltb_spec v (AggregatingSink.min_ s)); lia.
      * f_equal. cbn. destruct (Z.ltb_spec (AggregatingSink.max_ s) v); lia.
Qed.

Lemma fold_min_spec vs :
  forall m0,
    let m := fold_left Z.min vs m0 in
    m <= m0 /\ (forall v, v ∈ vs -> m <= v) /\ (m = m0 \/ m ∈ vs).
Proof.
  induction vs as [| v vs IH]; intros m0; cbn [fold_left].
  - split; [lia |]. split; [intros v Hv; inversion Hv | now left].
  - destruct (IH (Z.min m0 v)) as (H1 & H2 & H3).
    split; [lia |]. split.
    + intros v' Hv'. apply elem_of_cons in Hv' as [-> | Hv']; [lia | auto].
    + destruct H3 as [H3 | H3]; [| right; now right].
      destruct (Z.min_spec m0 v) as [[_ Hm] | [_ Hm]].
      * left. congruence.
      * right. rewrite H3, Hm. now left.
Qed.

Lemma fold_max_spec vs :
  forall m0,
    let m := fold_left Z.max vs m0 in
    m0 <= m /\ (forall v, v ∈ vs -> v <= m) /\ (m = m0 \/ m ∈ vs).
Proof.
  induction vs as [| v vs IH]; intros m0; cbn [fold_left].
  - split; [lia |]. split; [intros v Hv; inversion Hv | now left].
  - destruct (IH (Z.max m0 v)) as (H1 & H2 & H3).
    split; [lia |]. split.
    + intros v' Hv'. apply elem_of_cons in Hv' as [-> | Hv']; [lia | auto].
    + destruct H3 as [H3 | H3]; [| right; now right].
      destruct (Z.max_spec m0 v) as [[_ Hm] | [_ Hm]].
      * right. rewrite H3, Hm. now left.
      * left. congruence.
Qed.

(** X17.  A fresh aggregating sink that has consumed events carrying the
    integers [vs] reports their number as count and their sum as sum, both
    reduced to 64 bits, so exactly whenever they fit; its minimum and its
    maximum bound every value and, when the list is not empty, are values
    of the list. *)
Theorem aggregating_sink_totals (l : list (Z * EventMetadata)) :
  let vs := l.*1 in
  let s := consume_all (int_events l) AggregatingSink.new in
  AggregatingSink.sum s = wrap_s64 (total vs) /\
  AggregatingSink.count s = wrap64 (Z.of_nat (length l)) /\
  (in_int64 (total vs) -> AggregatingSink.sum s = total vs) /\
  (Z.of_nat (length l) < 2 ^ 64 -> AggregatingSink.count s = Z.of_nat (length l)) /\
  (Forall in_int64 vs ->
   (forall v, v ∈ vs -> AggregatingSink.min s <= v <= AggregatingSink.max s) /\
   (vs <> [] -> AggregatingSink.min s ∈ vs /\ AggregatingSink.max s ∈ vs)).
Proof.
  intros vs s.
  destruct (consume_all_ints l AggregatingSink.new 0 0 eq_refl eq_refl)
    as (Hs & Hc & Hmin & Hmax).
  fold s vs in Hs, Hc, Hmin, Hmax. cbn [AggregatingSink.min_ AggregatingSink.max_
    AggregatingSink.new] in Hmin, Hmax. rewrite Z.add_0_l in Hs, Hc.
  unfold AggregatingSink.sum, AggregatingSink.count, AggregatingSink.min,
    AggregatingSink.max.
  split; [exact Hs |]. split; [exact Hc |]. split; [| split].
  - intros Hr. rewrite Hs. now apply wrap_s64_small.
  - intros Hr. rewrite Hc. apply wrap64_small. lia.
  - intros Hall. rewrite Hmin, Hmax.
    destruct (fold_min_spec vs int64_max) as (_ & Hlo & Hmem).
    destruct (fold_max_spec vs int64_min) as (_ & Hhi & Hmem').
    split; [intros v Hv; split; auto |].
    intros Hne. destruct vs as [| v0 vs']; [contradiction |].
    assert (Hv0 : in_int64 v0) by (now apply Forall_cons in Hall).
    pose proof (Hlo v0 ltac:(left)) as Hl0. pose proof (Hhi v0 ltac:(left)) as Hh0.
    destruct Hv0 as [Ha Hb]. split.
    + destruct Hmem as [Hm | Hm]; [| exact Hm].
      assert (v0 = int64_max) by lia. subst v0. rewrite Hm. now left.
    + destruct Hmem' as [Hm | Hm]; [| exact Hm].
      assert (v0 = int64_min) by lia. subst v0. rewrite Hm. now left.
Qed.

(** The even squares of 1..20, as the sink of the example pipeline sees
    them. *)
Lemma aggregating_sink_totals_witness :
  let l := (fun v => (v, EventMetadata_default 0))
             <$> [4; 16; 36; 64; 100; 144; 196; 256; 324; 400] in
  let s := consume_all (int_events l) AggregatingSink.new in
  in_int64 (total l.*1) /\ Z.of_nat (length l) < 2 ^ 64 /\
  AggregatingSink.sum s = 1540 /\ AggregatingSink.count s = 10.
Proof.
  intros l s.
  assert (H1 : in_int64 (total l.*1)) by (vm_compute; split; discriminate).
  assert (H2 : Z.of_nat (length l) < 2 ^ 64) by reflexivity.
  split; [exact H1 |]. split; [exact H2 |].
  destruct (aggregating_sink_totals l) as (_ & _ & Hs & Hc & _).
  split; [exact (Hs H1) | exact (Hc H2)].
Defined.

(** ** The schedulers *)

Lemma scan_spec ready (instances : list InstanceRef) fuel :
  forall pos,
    0 <= pos -> pos + Z.of_nat fuel < 2 ^ 64 ->
    match RoundRobinScheduler.scan ready instances pos fuel with
    | (Some i, pos') =>
        exists j, (j < fuel)%nat /\ pos' = pos + Z.of_nat j + 1 /\
                  i = probe instances pos j /\ ready i = true /\
                  forall j', (j' < j)%nat -> ready (probe instances pos j') = false
    | (None, pos') =>
        pos' = pos + Z.of_nat fuel /\
        forall j, (j < fuel)%nat -> ready (probe instances pos j) = false
    end.
Proof.
  induction fuel as [| fuel IH]; intros pos Hpos Hlt.
  - cbn. split; [lia |]. intros j Hj. lia.
  - cbn [RoundRobinScheduler.scan].
    assert (H0 : instances !!! Z.to_nat (pos mod Z.of_nat (length instances))
                 = probe instances pos 0)
      by (unfold probe; now rewrite Z.add_0_r).
    rewrite H0, incr64_small by lia.
    destruct (ready (probe instances pos 0)) eqn:Hr.
    + exists 0%nat. repeat split; try lia; try assumption.
    + specialize (IH (pos + 1) ltac:(lia) ltac:(lia)).
      assert (Hshift : forall j, probe instances (pos + 1) j = probe instances pos (S j)).
      { intros j. unfold probe. do 3 f_equal. lia. }
      destruct (RoundRobinScheduler.scan ready instances (pos + 1) fuel)
        as [[i |] pos'].
      * destruct IH as (j & Hj & Hp & Hi & Hri & Hbefore).
        exists (S j). split; [lia |]. split; [lia |].
        split; [now rewrite <- Hshift |]. split; [exact Hri |].
        intros [| j'] Hj'; [exact Hr |]. rewrite <- Hshift. apply Hbefore. lia.
      * destruct IH as (Hp & Hnone). split; [lia |].
        intros [| j] Hj; [exact Hr |]. rewrite <- Hshift. apply Hnone. lia.
Qed.

Lemma probe_elem_of (instances : list InstanceRef) pos j :
  instances <> [] -> probe instances pos j ∈ instances.
Proof.
  intros Hne. unfold probe. apply list_elem_of_lookup_total_2.
  assert (0 < Z.of_nat (length instances))
    by (destruct instances; [contradiction | cbn; lia]).
  pose proof (Z.mod_pos_bound (pos + Z.of_nat j) (Z.of_nat (length instances))).
  lia.
Qed.

Lemma probe_covers (instances : list InstanceRef) pos i :
  0 <= pos -> i ∈ instances ->
  exists j, (j < length instances)%nat /\ probe instances pos j = i.
Proof.
  intros Hpos Hi. apply list_elem_of_lookup in Hi as [n Hn].
  pose proof (lookup_lt_Some _ _ _ Hn) as Hlt.
  set (N := Z.of_nat (length instances)).
  assert (HN : 0 < N) by (unfold N; lia).
  pose proof (Z.mod_pos_bound (Z.of_nat n - pos) N HN) as Hb.
  exists (Z.to_nat ((Z.of_nat n - pos) mod N)). split; [fold N in Hb; lia |].
  unfold probe. fold N. rewrite Z2Nat.id by lia.
  rewrite Zplus_mod_idemp_r.
  replace (pos + (Z.of_nat n - pos)) with (Z.of_nat n) by lia.
  rewrite Z.mod_small by (unfold N; lia). rewrite Nat2Z.id.
  now apply list_lookup_total_correct.
Qed.

(** X18.  Round-robin selection.  On a scheduler with instances, a worker
    whose cursor is not about to wrap around gets the first ready instance
    in cyclic order from its cursor, and its cursor moves just past it; it
    gets null exactly when no instance at all is ready, the cursor having
    gone once around.  The cursors of the other workers do not move. *)
Theorem round_robin_takes_first_ready
    (ready : InstanceRef -> bool) (worker_id : Z) (s : RoundRobinScheduler.t) :
  let instances := RoundRobinScheduler.instances_ s in
  let pos := default 0 (RoundRobinScheduler.positions_ s !! worker_id) in
  instances <> [] -> 0 <= pos -> pos + Z.of_nat (length instances) < 2 ^ 64 ->
  let '(r, s') := RoundRobinScheduler.next ready worker_id s in
  match r with
  | Some i =>
      i ∈ instances /\ ready i = true /\
      exists j, (j < length instances)%nat /\ i = probe instances pos j /\
                (forall j', (j' < j)%nat -> ready (probe instances pos j') = false) /\
                RoundRobinScheduler.positions_ s' !! worker_id
                = Some (pos + Z.of_nat j + 1)
  | None =>
      (forall i, i ∈ instances -> ready i = false) /\
      RoundRobinScheduler.positions_ s' !! worker_id
      = Some (pos + Z.of_nat (length instances))
  end /\
  (forall w, w <> worker_id ->
     RoundRobinScheduler.positions_ s' !! w = RoundRobinScheduler.positions_ s !! w).
Proof.
  intros instances pos Hne Hpos Hlt. unfold RoundRobinScheduler.next.
  fold instances pos.
  destruct instances as [| i0 rest] eqn:Hi; [contradiction |]. rewrite <- Hi in *.
  pose proof (scan_spec ready instances (length instances) pos Hpos Hlt) as Hscan.
  destruct (RoundRobinScheduler.scan ready instances pos (length instances))
    as [[i |] pos'].
  - destruct Hscan as (j & Hj & Hp & Hij & Hr & Hbefore).
    cbn [RoundRobinScheduler.positions_]. split.
    + split; [rewrite Hij; now apply probe_elem_of |]. split; [exact Hr |].
      exists j. split; [exact Hj |]. split; [exact Hij |].
      split; [exact Hbefore |]. rewrite lookup_insert_eq. now rewrite Hp.
    + intros w Hw. now rewrite lookup_insert_ne.
  - destruct Hscan as (Hp & Hnone). cbn [RoundRobinScheduler.positions_]. split.
    + split.
      * intros i Hin. destruct (probe_covers instances pos i Hpos Hin) as (j & Hj & <-).
        now apply Hnone.
      * rewrite lookup_insert_eq. now rewrite Hp.
    + intros w Hw. now rewrite lookup_insert_ne.
Qed.

Lemma round_robin_takes_first_ready_witness :
  let s := RoundRobinScheduler.mk [10%nat; 11%nat; 12%nat] {[ 0 := 2 ]}
             (mkSchedulerStats 0 0 0 0) in
  let ready := fun i => Nat.eqb i 11 in
  RoundRobinScheduler.instances_ s <> [] /\
  let '(r, s') := RoundRobinScheduler.next ready 0 s in
  r = Some 11%nat /\ RoundRobinScheduler.positions_ s' !! 0 = Some 5 /\
  (forall w, w <> 0 ->
     RoundRobinScheduler.positions_ s' !! w = RoundRobinScheduler.positions_ s !! w).
Proof.
  intros s ready. split; [discriminate |].
  pose proof (round_robin_takes_first_ready ready 0 s ltac:(discriminate)
                ltac:(vm_compute; discriminate) ltac:(reflexivity)) as H.
  destruct (RoundRobinScheduler.next ready 0 s) as [r s'] eqn:E.
  destruct H as [_ Hothers].
  vm_compute in E. injection E as <- <-.
  split; [reflexivity |]. split; [reflexivity | exact Hothers].
Defined.

Lemma first_ready_some ready l i :
  WorkStealingScheduler.first_ready ready l = Some i -> i ∈ l /\ ready i = true.
Proof.
  unfold WorkStealingScheduler.first_ready. intros H.
  apply find_some in H as [Hin Hr]. split; [now apply list_elem_of_In | exact Hr].
Qed.

Lemma first_ready_none ready l :
  WorkStealingScheduler.first_ready ready l = None ->
  forall i, i ∈ l -> ready i = false.
Proof.
  unfold WorkStealingScheduler.first_ready. intros H i Hi.
  eapply find_none; [exact H | now apply list_elem_of_In].
Qed.

Lemma steal_spec ready w (per_worker : list (list InstanceRef)) victims :
  match WorkStealingScheduler.steal ready w per_worker victims with
  | Some i =>
      ready i = true /\
      exists v, v ∈ victims /\ v <> w /\ i ∈ per_worker !!! Z.to_nat v
  | None =>
      forall v, v ∈ victims -> v <> w ->
                forall i, i ∈ per_worker !!! Z.to_nat v -> ready i = false
  end.
Proof.
  induction victims as [| v victims IH]; cbn [WorkStealingScheduler.steal].
  - intros v Hv. inversion Hv.
  - destruct (Z.eqb_spec v w) as [-> | Hne].
    + destruct (WorkStealingScheduler.steal ready w per_worker victims) as [i |].
      * destruct IH as (Hr & v' & Hv' & Hne' & Hi). split; [exact Hr |].
        exists v'. split; [now right | auto].
      * intros v' Hv' Hne'. apply elem_of_cons in Hv' as [-> | Hv'];
          [contradiction | now apply IH].
    + destruct (WorkStealingScheduler.first_ready ready (per_worker !!! Z.to_nat v))
        as [i |] eqn:Hf.
      * apply first_ready_some in Hf as [Hi Hr]. split; [exact Hr |].
        exists v. split; [now left | auto].
      * destruct (WorkStealingScheduler.steal ready w per_worker victims) as [i |].
        -- destruct IH as (Hr & v' & Hv' & Hne' & Hi). split; [exact Hr |].
           exists v'. split; [now right | auto].
        -- intros v' Hv' Hne' i Hi. apply elem_of_cons in Hv' as [-> | Hv'].
           ++ eapply first_ready_none; eauto.
           ++ eapply IH; eauto.
Qed.

(** X19.  Work stealing.  Every call of [next] counts as scheduled.  A
    ready instance of the worker's own partition is preferred and is no
    steal; otherwise the call goes through the victims drawn, skipping the
    worker itself, and an instance found there is ready, belongs to the
    partition of another worker and counts as stolen; the call is idle,
    and returns null, only when neither the own partition nor the
    partition of any other victim drawn has a ready instance. *)
Theorem work_stealing_next
    (ready : InstanceRef -> bool) (victims : list Z) (worker_id : Z)
    (s : WorkStealingScheduler.t) :
  let own := WorkStealingScheduler.per_worker_ s !!! Z.to_nat worker_id in
  let drawn := take (Z.to_nat (WorkStealingScheduler.num_workers_ s)) victims in
  let st0 := WorkStealingScheduler.stats_ s in
  let '(r, s') := WorkStealingScheduler.next ready victims worker_id s in
  let st1 := WorkStealingScheduler.stats_ s' in
  total_scheduled st1 = incr64 (total_scheduled st0) /\
  WorkStealingScheduler.per_worker_ s' = WorkStealingScheduler.per_worker_ s /\
  match r with
  | Some i =>
      ready i = true /\ idle_cycles st1 = idle_cycles st0 /\
      ((i ∈ own /\ work_stolen st1 = work_stolen st0) \/
       ((forall i', i' ∈ own -> ready i' = false) /\
        (exists v, v ∈ drawn /\ v <> worker_id /\
                   i ∈ WorkStealingScheduler.per_worker_ s !!! Z.to_nat v) /\
        work_stolen st1 = incr64 (work_stolen st0)))
  | None =>
      idle_cycles st1 = incr64 (idle_cycles st0) /\
      work_stolen st1 = work_stolen st0 /\
      (forall i, i ∈ own -> ready i = false) /\
      (forall v, v ∈ drawn -> v <> worker_id ->
                 forall i, i ∈ WorkStealingScheduler.per_worker_ s !!! Z.to_nat v ->
                           ready i = false)
  end.
Proof.
  intros own drawn st0. unfold WorkStealingScheduler.next. fold own drawn.
  destruct (WorkStealingScheduler.first_ready ready own) as [i |] eqn:Hown.
  - apply first_ready_some in Hown as [Hi Hr].
    cbn. split; [reflexivity |]. split; [reflexivity |].
    split; [exact Hr |]. split; [reflexivity |]. left. split; [exact Hi | reflexivity].
  - pose proof (first_ready_none _ _ Hown) as Hnone.
    pose proof (steal_spec ready worker_id (WorkStealingScheduler.per_worker_ s) drawn)
      as Hsteal.
    destruct (WorkStealingScheduler.steal ready worker_id
                (WorkStealingScheduler.per_worker_ s) drawn) as [i |].
    + destruct Hsteal as (Hr & Hv). cbn.
      split; [reflexivity |]. split; [reflexivity |].
      split; [exact Hr |]. split; [reflexivity |]. right.
      split; [exact Hnone |]. split; [exact Hv | reflexivity].
    + cbn. split; [reflexivity |]. split; [reflexivity |].
      split; [reflexivity |]. split; [reflexivity |]. split; [exact Hnone | exact Hsteal].
Qed.

Lemma distribute_spec n :
  0 < n ->
  forall instances from (pw : list (list InstanceRef)),
    length pw = Z.to_nat n -> 0 <= from ->
    length (SchedulerFactory.distribute n from instances pw) = Z.to_nat n /\
    forall w, 0 <= w < n ->
      SchedulerFactory.distribute n from instances pw !!! Z.to_nat w
      = pw !!! Z.to_nat w ++ picks n from instances w.
Proof.
  intros Hn. induction instances as [| inst rest IH]; intros from pw Hlen Hfrom.
  - cbn. split; [exact Hlen |]. intros w Hw. now rewrite app_nil_r.
  - cbn [SchedulerFactory.distribute picks].
    pose proof (Z.mod_pos_bound from n Hn) as Hb.
    set (k := Z.to_nat (from mod n)).
    destruct (IH (from + 1) (<[k := pw !!! k ++ [inst]]> pw)) as [Hl Hw];
      [now rewrite length_insert | lia |].
    split; [exact Hl |]. intros w Hwr. rewrite (Hw w Hwr).
    destruct (Z.eqb_spec (from mod n) w) as [Heq | Hne].
    + subst w. fold k. rewrite list_lookup_total_insert_eq by (unfold k; lia).
      now rewrite <- app_assoc.
    + rewrite list_lookup_total_insert_ne by (unfold k; lia). reflexivity.
Qed.

Lemma picks_elem_of n instances :
  forall from i x,
    instances !! i = Some x ->
    x ∈ picks n from instances ((from + Z.of_nat i) mod n).
Proof.
  induction instances as [| inst rest IH]; intros from i x Hi; [inversion Hi |].
  cbn [picks]. destruct i as [| i]; cbn in Hi.
  - injection Hi as ->. rewrite Z.add_0_r, Z.eqb_refl. now left.
  - replace (from + Z.of_nat (S i)) with (from + 1 + Z.of_nat i) by lia.
    destruct (_ =? _); [right |]; now apply IH.
Qed.

Lemma picks_inv n instances :
  forall from w x,
    x ∈ picks n from instances w ->
    exists i, instances !! i = Some x /\ (from + Z.of_nat i) mod n = w.
Proof.
  induction instances as [| inst rest IH]; intros from w x Hx; [inversion Hx |].
  cbn [picks] in Hx. destruct (Z.eqb_spec (from mod n) w) as [Heq | Hne].
  - apply elem_of_cons in Hx as [-> | Hx].
    + exists 0%nat. split; [reflexivity |]. now rewrite Z.add_0_r.
    + destruct (IH _ _ _ Hx) as (i & Hi & Hm). exists (S i).
      split; [exact Hi |]. rewrite <- Hm. f_equal. lia.
  - destruct (IH _ _ _ Hx) as (i & Hi & Hm). exists (S i).
    split; [exact Hi |]. rewrite <- Hm. f_equal. lia.
Qed.

(** X20.  The scheduler factory.  For work stealing the instances are dealt
    to the workers by position: there is one partition per worker, the
    instance at position [i] is in the partition of worker [i mod n] and in
    no other place than where its position puts it, and each partition
    keeps the order of the list.  The two policies without a scheduler of
    their own, [Priority] and [LoadAware], get the round-robin scheduler. *)
Theorem factory_partitions_by_position (instances : list InstanceRef) (n : Z) :
  0 < n ->
  (exists s,
      SchedulerFactory.create WorkStealing instances n = SchedWorkStealing s /\
      WorkStealingScheduler.num_workers_ s = n /\
      length (WorkStealingScheduler.per_worker_ s) = Z.to_nat n /\
      (forall w, 0 <= w < n ->
         WorkStealingScheduler.per_worker_ s !!! Z.to_nat w = picks n 0 instances w) /\
      (forall i x, instances !! i = Some x ->
         x ∈ WorkStealingScheduler.per_worker_ s !!! Z.to_nat (Z.of_nat i mod n)) /\
      (forall w x, 0 <= w < n ->
         x ∈ WorkStealingScheduler.per_worker_ s !!! Z.to_nat w ->
         exists i, instances !! i = Some x /\ Z.of_nat i mod n = w)) /\
  SchedulerFactory.create Priority instances n
  = SchedulerFactory.create RoundRobin instances n /\
  SchedulerFactory.create LoadAware instances n
  = SchedulerFactory.create RoundRobin instances n.
Proof.
  intros Hn. split; [| split; reflexivity].
  eexists. split; [reflexivity |]. cbn [WorkStealingScheduler.new
    WorkStealingScheduler.num_workers_ WorkStealingScheduler.per_worker_].
  destruct (distribute_spec n Hn instances 0 (replicate (Z.to_nat n) []))
    as [Hl Hw]; [apply length_replicate | lia |].
  assert (Hpart : forall w, 0 <= w < n ->
            SchedulerFactory.distribute n 0 instances (replicate (Z.to_nat n) [])
              !!! Z.to_nat w = picks n 0 instances w).
  { intros w Hwr. rewrite (Hw w Hwr).
    rewrite lookup_total_replicate_2 by lia. reflexivity. }
  split; [reflexivity |]. split; [exact Hl |]. split; [exact Hpart |]. split.
  - intros i x Hi. pose proof (Z.mod_pos_bound (Z.of_nat i) n Hn).
    rewrite Hpart by lia.
    pose proof (picks_elem_of n instances 0 i x Hi) as H0.
    now rewrite Z.add_0_l in H0.
  - intros w x Hwr Hx. rewrite Hpart in Hx by exact Hwr.
    destruct (picks_inv n instances 0 w x Hx) as (i & Hi & Hm).
    exists i. split; [exact Hi |]. now rewrite Z.add_0_l in Hm.
Qed.

Lemma factory_partitions_by_position_witness :
  0 < 2 /\
  exists s,
    SchedulerFactory.create WorkStealing [10%nat; 11%nat; 12%nat; 13%nat; 14%nat] 2
    = SchedWorkStealing s /\
    WorkStealingScheduler.per_worker_ s !!! 0%nat = [10%nat; 12%nat; 14%nat] /\
    WorkStealingScheduler.per_worker_ s !!! 1%nat = [11%nat; 13%nat].
Proof.
  split; [lia |].
  destruct (proj1 (factory_partitions_by_position
                     [10%nat; 11%nat; 12%nat; 13%nat; 14%nat] 2 ltac:(lia)))
    as (s & Hs & _ & _ & Hp & _).
  exists s. split; [exact Hs |].
  split; [exact (Hp 0 ltac:(lia)) | exact (Hp 1 ltac:(lia))].
Defined.

(** ** The runtime: wiring a graph *)

Section Wiring.

Variable now : Timestamp.

Lemma wire_spec edges :
  forall w,
    let w' := fold_left (Runtime.add_edge now) edges w in
    Runtime.w_queues w'
    = Runtime.w_queues w
        ++ replicate (length edges) (BQ.BoundedQueue_new Queue_Capacity now) /\
    (forall name,
        default [] (Runtime.output_queues w' !! name)
        = default [] (Runtime.output_queues w !! name)
            ++ edges_from name edges (length (Runtime.w_queues w))) /\
    (forall name,
        Runtime.input_queues w' !! name
        = match last_edge_to name edges (length (Runtime.w_queues w)) with
          | Some r => Some r
          | None => Runtime.input_queues w !! name
          end).
Proof.
  induction edges as [| edge rest IH]; intros w.
  - cbn. rewrite app_nil_r. split; [reflexivity |].
    split; intros name; [now rewrite app_nil_r | reflexivity].
  - cbn [fold_left]. destruct (IH (Runtime.add_edge now w edge)) as (Hq & Ho & Hi).
    assert (Hlen : length (Runtime.w_queues (Runtime.add_edge now w edge))
                   = S (length (Runtime.w_queues w)))
      by (cbn; rewrite length_app; cbn; lia).
    rewrite Hlen in Ho, Hi. split; [| split].
    + rewrite Hq. cbn [Runtime.add_edge Runtime.w_queues length replicate].
      now rewrite <- app_assoc.
    + intros name. rewrite Ho. cbn [Runtime.add_edge Runtime.output_queues edges_from].
      destruct (bool_decide_reflect (from_operator edge = name)) as [Heq | Hne].
      * subst name. rewrite lookup_insert_eq. cbn [from_option id].
        now rewrite <- app_assoc.
      * rewrite lookup_insert_ne by exact Hne. reflexivity.
    + intros name. rewrite Hi. cbn [Runtime.add_edge Runtime.input_queues last_edge_to].
      destruct (last_edge_to name rest (S (length (Runtime.w_queues w)))); [reflexivity |].
      destruct (bool_decide_reflect (to_operator edge = name)) as [Heq | Hne].
      * subst name. now rewrite lookup_insert_eq.
      * now rewrite lookup_insert_ne.
Qed.

Lemma add_outputs outs :
  forall ctx,
    fold_left (fun ctx out_queue => OperatorContext.add_output out_queue ctx) outs ctx
    = OperatorContext.mk (OperatorContext.name_ ctx) (OperatorContext.instance_id_ ctx)
        (OperatorContext.outputs_ ctx ++ outs).
Proof.
  induction outs as [| o outs IH]; intros [n i os]; cbn [fold_left].
  - cbn. now rewrite app_nil_r.
  - rewrite IH. cbn. now rewrite <- app_assoc.
Qed.

Lemma make_instance_wired edges entry :
  Runtime.make_instance (Runtime.wire_edges now edges []) entry.1 entry.2
  = wired_instance edges entry.
Proof.
  unfold Runtime.make_instance, Runtime.wire_edges, wired_instance.
  destruct (wire_spec edges (Runtime.mkWiring [] ∅ ∅)) as (_ & Ho & Hi).
  rewrite add_outputs, Hi, Ho. cbn.
  rewrite lookup_empty. destruct (last_edge_to entry.1 edges 0); reflexivity.
Qed.

Lemma add_instances w entries :
  forall acc,
    let acc' := fold_left (Runtime.add_instance w) entries acc in
    Runtime.b_instances acc'
    = Runtime.b_instances acc
        ++ ((fun entry => Runtime.make_instance w entry.1 entry.2) <$> entries) /\
    Runtime.b_sources acc'
    = Runtime.b_sources acc
        ++ source_positions entries (length (Runtime.b_instances acc)) /\
    Runtime.b_all acc'
    = Runtime.b_all acc
        ++ seq (length (Runtime.b_instances acc)) (length entries).
Proof.
  induction entries as [| [name op] rest IH]; intros acc.
  - cbn. now rewrite !app_nil_r.
  - cbn [fold_left]. destruct (IH (Runtime.add_instance w acc (name, op)))
      as (H1 & H2 & H3).
    assert (Hlen : length (Runtime.b_instances (Runtime.add_instance w acc (name, op)))
                   = S (length (Runtime.b_instances acc)))
      by (cbn; rewrite length_app; cbn; lia).
    rewrite Hlen in H2, H3. split; [| split].
    + rewrite H1. cbn. now rewrite <- app_assoc.
    + rewrite H2. cbn [Runtime.add_instance Runtime.b_sources source_positions snd].
      destruct (Operator.kind op); [now rewrite <- app_assoc | reflexivity ..].
    + rewrite H3. cbn. now rewrite <- app_assoc.
Qed.

End Wiring.

Lemma resolved_workers_nonzero config hw : resolved_workers config hw <> 0.
Proof.
  unfold resolved_workers.
  destruct (Z.eqb_spec (num_workers config) 0); [| assumption].
  destruct (Z.eqb_spec hw 0); [lia | assumption].
Qed.

(** What [init] makes of a new runtime, in full. *)
Lemma init_fresh config builder hw now :
  let edges := StreamGraphBuilder.edges_ builder in
  let entries := map_to_list (StreamGraphBuilder.operators_ builder) in
  let n := resolved_workers config hw in
  Runtime.init builder hw now (Runtime.new config)
  = Runtime.Returned
      (Runtime.mk config RuntimeState.Initialized
         (wired_instance edges <$> entries)
         (replicate (length edges) (BQ.BoundedQueue_new Queue_Capacity now))
         (source_positions entries 0) []
         (Some (SchedulerFactory.create (scheduling_policy config)
                  (seq 0 (length entries)) n))
         (Some (WorkerPool.mk n (scheduling_policy config)
                  ((fun i => mkWorker i false false) <$> seqZ 0 n) false))
         (mkMetricsCollector 0 0 0) false).
Proof.
  intros edges entries n. unfold Runtime.init.
  cbn [Runtime.new Runtime.state_ RuntimeState.eqb negb Runtime.config_
       Runtime.instances_ Runtime.queues_ Runtime.source_operators_
       Runtime.source_threads_ Runtime.metrics_ Runtime.running_].
  fold edges entries. fold (resolved_workers config hw). fold n.
  destruct (add_instances (Runtime.wire_edges now edges []) entries
              (Runtime.mkBuilt [] [] [])) as (Hi & Hs & Ha).
  cbn [Runtime.b_instances Runtime.b_sources Runtime.b_all app length] in Hi, Hs, Ha.
  rewrite Hi, Hs, Ha.
  destruct (wire_spec now edges (Runtime.mkWiring [] ∅ ∅)) as (Hq & _).
  cbn [Runtime.w_queues app] in Hq.
  change (fold_left (Runtime.add_edge now) edges (Runtime.mkWiring [] ∅ ∅))
    with (Runtime.wire_edges now edges []) in Hq.
  rewrite Hq.
  f_equal. f_equal.
  - rewrite <- list_fmap_compose. apply list_fmap_ext. intros i entry _.
    cbn. rewrite make_instance_wired. reflexivity.
  - unfold WorkerPool.init, WorkerPool.new. cbn.
    destruct (Z.eqb_spec n 0) as [H0 | _];
      [exfalso; now apply (resolved_workers_nonzero config hw) | reflexivity].
Qed.

Lemma last_edge_to_spec name edges :
  forall base r,
    last_edge_to name edges base = Some r ->
    exists k e, r = (base + k)%nat /\ edges !! k = Some e /\ to_operator e = name /\
                forall k' e', (k < k')%nat -> edges !! k' = Some e' ->
                              to_operator e' <> name.
Proof.
  induction edges as [| edge rest IH]; intros base r H; [discriminate |].
  cbn [last_edge_to] in H.
  destruct (last_edge_to name rest (S base)) as [r' |] eqn:Hrest.
  - injection H as <-. destruct (IH _ _ Hrest) as (k & e & Hr & Hk & Hto & Hlast).
    exists (S k), e. split; [lia |]. split; [exact Hk |]. split; [exact Hto |].
    intros [| k'] e' Hlt Hk'; [lia |]. apply (Hlast k' e'); [lia | exact Hk'].
  - destruct (bool_decide_reflect (to_operator edge = name)) as [Hto | Hto];
      [| discriminate].
    injection H as <-. exists 0%nat, edge. split; [lia |]. split; [reflexivity |].
    split; [exact Hto |]. intros [| k'] e' Hlt Hk'; [lia |].
    cbn in Hk'. clear IH Hlt. revert base k' Hrest Hk'.
    induction rest as [| e0 rest IHr]; intros base k' Hrest Hk'; [inversion Hk' |].
    cbn [last_edge_to] in Hrest.
    destruct (last_edge_to name rest (S (S base))) eqn:Hr2; [discriminate |].
    destruct (bool_decide_reflect (to_operator e0 = name)) as [| Hne]; [discriminate |].
    destruct k' as [| k']; cbn in Hk'.
    + injection Hk' as <-. exact Hne.
    + eapply (IHr (S base)); eauto.
Qed.

Lemma last_edge_to_none name edges :
  forall base,
    last_edge_to name edges base = None ->
    forall k e, edges !! k = Some e -> to_operator e <> name.
Proof.
  induction edges as [| e0 rest IH]; intros base H k e Hk; [inversion Hk |].
  cbn [last_edge_to] in H.
  destruct (last_edge_to name rest (S base)) eqn:Hr; [discriminate |].
  destruct (bool_decide_reflect (to_operator e0 = name)) as [| Hne]; [discriminate |].
  destruct k as [| k]; cbn in Hk.
  - injection Hk as <-. exact Hne.
  - eapply IH; eauto.
Qed.

Lemma last_edge_to_last name edges k e :
  edges !! k = Some e -> to_operator e = name ->
  (forall k' e', (k < k')%nat -> edges !! k' = Some e' -> to_operator e' <> name) ->
  last_edge_to name edges 0 = Some k.
Proof.
  intros Hk Hto Hlast.
  destruct (last_edge_to name edges 0) as [r |] eqn:Hr.
  - destruct (last_edge_to_spec _ _ _ _ Hr) as (k0 & e0 & -> & Hk0 & Hto0 & Hlast0).
    cbn. f_equal.
    destruct (Nat.lt_trichotomy k0 k) as [Hlt | [Heq | Hgt]]; [| exact Heq |].
    + exfalso. exact (Hlast0 k e Hlt Hk Hto).
    + exfalso. exact (Hlast k0 e0 Hgt Hk0 Hto0).
  - exfalso. exact (last_edge_to_none _ _ _ Hr k e Hk Hto).
Qed.

Lemma edges_from_elem name edges :
  forall base r,
    r ∈ edges_from name edges base
    <-> exists k e, r = (base + k)%nat /\ edges !! k = Some e /\ from_operator e = name.
Proof.
  induction edges as [| edge rest IH]; intros base r; cbn [edges_from].
  - split; [intros H; inversion H | intros (k & e & _ & Hk & _); inversion Hk].
  - destruct (bool_decide_reflect (from_operator edge = name)) as [Hf | Hf].
    + rewrite elem_of_cons, IH. split.
      * intros [-> | (k & e & -> & Hk & He)].
        -- exists 0%nat, edge. split; [lia | auto].
        -- exists (S k), e. split; [lia | auto].
      * intros ([| k] & e & -> & Hk & He).
        -- left. lia.
        -- right. exists k, e. split; [lia | auto].
    + rewrite IH. split.
      * intros (k & e & -> & Hk & He). exists (S k), e. split; [lia | auto].
      * intros ([| k] & e & -> & Hk & He).
        -- cbn in Hk. injection Hk as <-. contradiction.
        -- exists k, e. split; [lia | auto].
Qed.

Lemma edges_from_recap f name edges :
  forall base,
    edges_from name
      ((fun e => mkEdge (from_operator e) (to_operator e) (f e)) <$> edges) base
    = edges_from name edges base.
Proof.
  induction edges as [| edge rest IH]; intros base; [reflexivity |].
  cbn [fmap list_fmap edges_from from_operator]. rewrite IH. reflexivity.
Qed.

Lemma last_edge_to_recap f name edges :
  forall base,
    last_edge_to name
      ((fun e => mkEdge (from_operator e) (to_operator e) (f e)) <$> edges) base
    = last_edge_to name edges base.
Proof.
  induction edges as [| edge rest IH]; intros base; [reflexivity |].
  cbn [fmap list_fmap last_edge_to to_operator]. rewrite IH. reflexivity.
Qed.




(** X22.  The capacity an edge declares, and the default capacity of the
    configuration, have no effect on what [init] builds: with any other
    capacities the runtime gets the same queues, instances, sources,
    scheduler and worker pool.  Every queue is a [Queue], whose capacity is
    4096 slots. *)
Theorem init_ignores_declared_capacities
    (config : RuntimeConfig) (builder : StreamGraphBuilder.t) (hw : Z) (now : Timestamp)
    (f : Edge -> Z) (d : Z) :
  exists rt1 rt2,
    Runtime.init builder hw now (Runtime.new config) = Runtime.Returned rt1 /\
    Runtime.init (with_capacities f builder) hw now
      (Runtime.new (with_default_capacity d config)) = Runtime.Returned rt2 /\
    Runtime.queues_ rt2 = Runtime.queues_ rt1 /\
    Runtime.instances_ rt2 = Runtime.instances_ rt1 /\
    Runtime.source_operators_ rt2 = Runtime.source_operators_ rt1 /\
    Runtime.scheduler_ rt2 = Runtime.scheduler_ rt1 /\
    Runtime.worker_pool_ rt2 = Runtime.worker_pool_ rt1 /\
    (forall q, q ∈ Runtime.queues_ rt1 ->
               length (buffer_ q) = 4096%nat /\
               capacity (BQ.stats Queue_Capacity q) = 4096).
Proof.
  do 2 eexists. split; [apply init_fresh |]. split; [apply init_fresh |].
  cbn [Runtime.queues_ Runtime.instances_ Runtime.source_operators_
       Runtime.scheduler_ Runtime.worker_pool_ with_capacities
       StreamGraphBuilder.edges_ StreamGraphBuilder.operators_
       with_default_capacity scheduling_policy].
  split; [now rewrite length_fmap |]. split.
  { apply list_fmap_ext. intros i entry _. unfold wired_instance.
    now rewrite edges_from_recap, last_edge_to_recap. }
  split; [reflexivity |]. split; [reflexivity |]. split; [reflexivity |].
  intros q Hq. apply elem_of_replicate in Hq as [-> _].
  split; reflexivity.
Qed.



(** X24.  An edge that is the last one into its target links its two ends:
    its queue is the input of the instance of the target operator and of
    no other instance, and it is an output of the instance of the operator
    at its source and of no other instance. *)
Theorem edge_queue_links_its_ends
    (config : RuntimeConfig) (builder : StreamGraphBuilder.t) (hw : Z) (now : Timestamp)
    (k : nat) (e : Edge) :
  let edges := StreamGraphBuilder.edges_ builder in
  let ops := StreamGraphBuilder.operators_ builder in
  edges !! k = Some e ->
  (forall k' e', (k < k')%nat -> edges !! k' = Some e' ->
                 to_operator e' <> to_operator e) ->
  exists rt',
    Runtime.init builder hw now (Runtime.new config) = Runtime.Returned rt' /\
    Runtime.queues_ rt' !! k = Some (BQ.BoundedQueue_new Queue_Capacity now) /\
    (forall inst,
        inst ∈ Runtime.instances_ rt' /\ OperatorInstance.input_queue_ inst = Some k
        <-> exists op, ops !! to_operator e = Some op /\
                       inst = wired_instance edges (to_operator e, op)) /\
    (forall inst,
        inst ∈ Runtime.instances_ rt' /\
        k ∈ OperatorContext.outputs_ (OperatorInstance.context_ inst)
        <-> exists op, ops !! from_operator e = Some op /\
                       inst = wired_instance edges (from_operator e, op)).
Proof.
  intros edges ops Hk Hlast. eexists. split; [apply init_fresh |].
  cbn [Runtime.instances_ Runtime.queues_]. fold edges ops.
  split; [| split].
  - apply lookup_replicate_2. eapply lookup_lt_Some, Hk.
  - intros inst. split.
    + intros [Hin Hinput].
      apply list_elem_of_fmap in Hin as ([name op] & -> & Hentry).
      apply elem_of_map_to_list in Hentry.
      cbn [wired_instance OperatorInstance.input_queue_ fst] in Hinput.
      destruct (last_edge_to_spec _ _ _ _ Hinput) as (k0 & e0 & Hk0 & He0 & Hname & _).
      cbn in Hk0. subst k0. unfold QueueRef in *. fold edges in He0.
      rewrite Hk in He0. injection He0 as <-. subst name. exists op. auto.
    + intros (op & Hop & ->). split.
      * apply list_elem_of_fmap. eexists. split; [reflexivity |].
        now apply elem_of_map_to_list.
      * cbn [wired_instance OperatorInstance.input_queue_ fst].
        now apply (last_edge_to_last _ _ k e).
  - intros inst. split.
    + intros [Hin Hout].
      apply list_elem_of_fmap in Hin as ([name op] & -> & Hentry).
      apply elem_of_map_to_list in Hentry.
      cbn [wired_instance OperatorInstance.context_ OperatorContext.outputs_ fst] in Hout.
      apply edges_from_elem in Hout as (k0 & e0 & Hk0 & He0 & Hname).
      cbn in Hk0. subst k0. unfold QueueRef in *. fold edges in He0.
      rewrite Hk in He0. injection He0 as <-. subst name. exists op. auto.
    + intros (op & Hop & ->). split.
      * apply list_elem_of_fmap. eexists. split; [reflexivity |].
        now apply elem_of_map_to_list.
      * cbn [wired_instance OperatorInstance.context_ OperatorContext.outputs_ fst].
        apply edges_from_elem. exists k, e. auto.
Qed.

Lemma edge_queue_links_its_ends_witness :
  let src := Operator.new "src" IsSource in
  let snk := Operator.new "snk" IsSink in
  let builder :=
    StreamGraphBuilder.connect "src" "snk" 16
      (StreamGraphBuilder.add_sink snk
         (StreamGraphBuilder.add_source src StreamGraphBuilder.new)) in
  exists rt',
    Runtime.init builder 4 0 (Runtime.new RuntimeConfig_default) = Runtime.Returned rt' /\
    Runtime.queues_ rt' !! 0%nat = Some (BQ.BoundedQueue_new Queue_Capacity 0).
Proof.
  intros src snk builder.
  destruct (edge_queue_links_its_ends RuntimeConfig_default builder 4 0 0%nat
              (mkEdge "src" "snk" 16) eq_refl) as (rt' & Hinit & Hq & _).
  - intros [| k'] e' Hlt Hk'; [lia | destruct k'; discriminate Hk'].
  - exists rt'. split; [exact Hinit | exact Hq].
Defined.

(** ** The runtime: start and stop *)

Lemma stop_requested_idem i : stop_requested (stop_requested i) = stop_requested i.
Proof. reflexivity. Qed.







(** ** The sequence source *)

Lemma delivered_none_open e outs (st st' : list BoundedQueue) :
  count_outputs (is_open st) outs = 0 ->
  delivered e outs st st' ->
  forall o q, o ∈ outs -> st !! o = Some q -> wf Queue_Capacity q ->
              exists q', st' !! o = Some q' /\
                         contents Queue_Capacity q' = contents Queue_Capacity q.
Proof.
  intros Hzero Hd o q Ho Hq Hwf.
  destruct (Hd o q Ho Hq Hwf) as (q' & Hq' & Hk). exists q'. split; [exact Hq' |].
  assert (Hclosed : is_open st o = false).
  { clear -Hzero Ho. induction outs as [| o' outs IH]; [inversion Ho |].
    cbn [count_outputs] in Hzero.
    pose proof (count_outputs_bounds (is_open st) outs).
    apply elem_of_cons in Ho as [-> | Ho].
    - destruct (is_open st o'); [lia | reflexivity].
    - apply IH; [destruct (is_open st o'); lia | exact Ho]. }
  unfold is_open in Hclosed. unfold QueueRef, QueueStore in *. rewrite Hq in Hclosed.
  apply negb_false_iff in Hclosed. rewrite Hclosed in Hk. now rewrite app_nil_r in Hk.
Qed.

(** X28.  One call of [generate] on a sequence source whose outputs are
    distinct queues with room.  If a stop was requested or the configured
    count is reached it returns false and touches nothing.  Otherwise it
    returns true: when at least one output is open, the event that carries
    the current value, with the number of events generated so far as its
    key, goes to every open output, the value advances by the step and the
    number by one; when every output is closed, no queue gets an event,
    value and number stay, and the call is counted as backpressure. *)
Theorem sequence_source_generate
    (ctx : OperatorContext.t) (st : list BoundedQueue)
    (now : Timestamp) (src : SequenceSource.t) :
  let outs := OperatorContext.outputs_ ctx in
  let cfg := SequenceSource.config_ src in
  let event := mkEvent (PInt (SequenceSource.current_ src))
                 (mkEventMetadata (Some (SequenceSource.generated_ src)) None now None) in
  NoDup outs -> Z.of_nat (length outs) < 2 ^ 64 ->
  (forall o, o ∈ outs -> not_full st o) ->
  if SequenceSource.should_stop src
     || (SequenceSource.count cfg <=? SequenceSource.generated_ src)
  then SequenceSource.generate now ctx st src = GenerateReturned false src [] st
  else
    exists src' st',
      SequenceSource.generate now ctx st src
      = GenerateReturned true src' (pushes_in_order outs st) st' /\
      delivered event outs st st' /\
      SequenceSource.config_ src' = cfg /\
      if 0 <? count_outputs (is_open st) outs then
        SequenceSource.current_ src'
        = wrap_s64 (SequenceSource.current_ src + SequenceSource.step cfg) /\
        SequenceSource.generated_ src' = incr64 (SequenceSource.generated_ src) /\
        SequenceSource.base src' = Operator.record_emitted (SequenceSource.base src)
      else
        SequenceSource.current_ src' = SequenceSource.current_ src /\
        SequenceSource.generated_ src' = SequenceSource.generated_ src /\
        SequenceSource.base src'
        = SequenceSource.record_backpressure (SequenceSource.base src) /\
        (forall o q, o ∈ outs -> st !! o = Some q -> wf Queue_Capacity q ->
                     exists q', st' !! o = Some q' /\
                                contents Queue_Capacity q' = contents Queue_Capacity q).
Proof.
  intros outs cfg event Hnd Hlen Hroom. unfold SequenceSource.generate. fold cfg.
  destruct (SequenceSource.should_stop src
            || (SequenceSource.count cfg <=? SequenceSource.generated_ src));
    [reflexivity |].
  change (Event_of_payload_key (PInt (SequenceSource.current_ src))
            (SequenceSource.generated_ src) now) with event.
  rewrite (emit_room ctx st Hnd Hlen Hroom event). fold outs.
  pose proof (pushed_delivered ctx st Hnd Hroom event) as Hd. fold outs in Hd.
  destruct (0 <? count_outputs (is_open st) outs) eqn:Hopen.
  - do 2 eexists. split; [reflexivity |]. split; [exact Hd |]. repeat split.
  - do 2 eexists. split; [reflexivity |]. split; [exact Hd |].
    split; [reflexivity |]. split; [reflexivity |]. split; [reflexivity |].
    split; [reflexivity |].
    apply (delivered_none_open event outs st); [| exact Hd].
    pose proof (count_outputs_bounds (is_open st) outs).
    apply Z.ltb_ge in Hopen. lia.
Qed.

Lemma sequence_source_generate_witness :
  let src := SequenceSource.new "seq" (SequenceSource.mkConfig 1 1 20 0) in
  exists src' st',
    SequenceSource.generate 9 one_output_ctx one_queue_store src
    = GenerateReturned true src' [(0%nat, true)] st' /\
    delivered (mkEvent (PInt 1) (mkEventMetadata (Some 0) None 9 None)) [0%nat]
      one_queue_store st' /\
    SequenceSource.current_ src' = 2 /\ SequenceSource.generated_ src' = 1.
Proof.
  intros src.
  pose proof (sequence_source_generate one_output_ctx one_queue_store 9 src
                one_output_distinct eq_refl one_output_room) as H.
  cbn [SequenceSource.should_stop SequenceSource.new SequenceSource.base
       Operator.new Operator.stop_requested_ orb] in H.
  destruct H as (src' & st' & Hg & Hd & _ & Hc & Hn & _).
  exists src', st'. split; [exact Hg |]. split; [exact Hd |].
  split; [exact Hc | exact Hn].
Defined.

Lemma only_counted_refl (st : list BoundedQueue) : only_counted st st.
Proof. intros o q Hq. exists q. split; [exact Hq |]. repeat split. Qed.

Lemma only_counted_trans (st1 st2 st3 : list BoundedQueue) :
  only_counted st1 st2 -> only_counted st2 st3 -> only_counted st1 st3.
Proof.
  intros H12 H23 o q Hq.
  destruct (H12 o q Hq) as (q2 & Hq2 & (Hb & Hh & Ht & Hs & Hc)).
  destruct (H23 o q2 Hq2) as (q3 & Hq3 & (Hb' & Hh' & Ht' & Hs' & Hc')).
  exists q3. split; [exact Hq3 |]. repeat split; congruence.
Qed.

Lemma all_closed_counted (st st' : list BoundedQueue) outs :
  only_counted st st' -> all_closed st outs -> all_closed st' outs.
Proof.
  intros Hoc Hall o Ho. destruct (Hall o Ho) as (q & Hq & Hc).
  destruct (Hoc o q Hq) as (q' & Hq' & (_ & _ & _ & _ & Hc')).
  exists q'. split; [exact Hq' | congruence].
Qed.

(** [emit] on outputs that are all closed: every push is refused. *)
Lemma emit_from_closed e outs :
  forall c pushes (st : list BoundedQueue),
    all_closed st outs ->
    exists st',
      OperatorContext.emit_from false e outs c pushes st
      = EmitReturned c (pushes ++ ((fun o => (o, false)) <$> outs)) st' /\
      only_counted st st'.
Proof.
  induction outs as [| o outs IH]; intros c pushes st Hall.
  - exists st. cbn. rewrite app_nil_r. split; [reflexivity | apply only_counted_refl].
  - destruct (Hall o) as (q & Hq & Hc); [left |].
    assert (Hstep : only_counted st (<[o := count_push q]> st)).
    { intros o' q' Hq'. unfold QueueRef, QueueStore in *.
      destruct (decide (o = o')) as [<- | Hne].
      - rewrite Hq in Hq'. injection Hq' as <-. exists (count_push q).
        split; [apply list_lookup_insert_eq; eapply lookup_lt_Some, Hq |].
        repeat split.
      - exists q'. rewrite list_lookup_insert_ne by exact Hne.
        split; [exact Hq' |]. repeat split. }
    destruct (IH c (pushes ++ [(o, false)]) (<[o := count_push q]> st))
      as (st' & Hem & Hoc).
    { apply (all_closed_counted st); [exact Hstep |].
      intros o' Ho'. apply Hall. now right. }
    exists st'. split; [| eapply only_counted_trans; eauto].
    cbn [OperatorContext.emit_from]. unfold QueueRef, QueueStore in *.
    rewrite Hq, (push_closed Queue_Capacity e q Hc), Hem.
    cbn [fmap list_fmap]. now rewrite <- app_assoc.
Qed.

(** X29.  A sequence source whose outputs are all closed never finishes on
    its own.  As long as no stop is requested, every turn of its thread
    calls [generate], which returns true without generating: the value and
    the number of events generated stay where they were, below the
    configured count, no queue receives an event, and the turn is still
    counted in [events_processed]. *)
Theorem source_spins_on_closed_outputs
    (ctx : OperatorContext.t) (clock : nat -> Timestamp) (turns : nat) :
  forall (done : nat) (st : list BoundedQueue) (metrics : MetricsCollector)
         (src : SequenceSource.t),
    all_closed st (OperatorContext.outputs_ ctx) ->
    SequenceSource.should_stop src = false ->
    SequenceSource.generated_ src < SequenceSource.count (SequenceSource.config_ src) ->
    exists src' st' metrics',
      source_loop turns done clock ctx st metrics src = LoopGoing src' st' metrics' /\
      SequenceSource.generated_ src' = SequenceSource.generated_ src /\
      SequenceSource.current_ src' = SequenceSource.current_ src /\
      SequenceSource.should_stop src' = false /\
      only_counted st st' /\
      events_processed_ metrics' = Nat.iter turns incr64 (events_processed_ metrics).
Proof.
  induction turns as [| turns IH]; intros done st metrics src Hall Hstop Hlt.
  - exists src, st, metrics. split; [reflexivity |].
    split; [reflexivity |]. split; [reflexivity |]. split; [exact Hstop |].
    split; [apply only_counted_refl | reflexivity].
  - cbn [source_loop]. rewrite Hstop. unfold SequenceSource.generate.
    rewrite Hstop. cbn [orb].
    destruct (Z.leb_spec (SequenceSource.count (SequenceSource.config_ src))
                (SequenceSource.generated_ src)) as [Hle | _]; [lia |].
    unfold OperatorContext.emit.
    destruct (emit_from_closed
                (Event_of_payload_key (PInt (SequenceSource.current_ src))
                   (SequenceSource.generated_ src) (clock done))
                (OperatorContext.outputs_ ctx) 0 [] st Hall) as (st1 & Hem & Hoc).
    rewrite Hem. cbn [Z.ltb Z.compare].
    destruct (IH (S done) st1 (count_processed metrics)
                (SequenceSource.mk
                   (SequenceSource.record_backpressure (SequenceSource.base src))
                   (SequenceSource.config_ src) (SequenceSource.current_ src)
                   (SequenceSource.generated_ src)))
      as (src' & st' & m' & Hloop & Hg & Hc & Hs & Hoc' & Hm).
    + apply (all_closed_counted st); assumption.
    + exact Hstop.
    + exact Hlt.
    + exists src', st', m'. split; [exact Hloop |].
      split; [exact Hg |]. split; [exact Hc |]. split; [exact Hs |].
      split; [eapply only_counted_trans; eauto |].
      rewrite Hm. cbn [count_processed events_processed_].
      rewrite Nat.iter_succ_r. reflexivity.
Qed.

Lemma source_spins_on_closed_outputs_witness :
  let st := [BQ.close (BQ.BoundedQueue_new Queue_Capacity 0)] in
  let src := SequenceSource.new "seq" (SequenceSource.mkConfig 1 1 20 0) in
  all_closed st (OperatorContext.outputs_ one_output_ctx) /\
  exists src' st' metrics',
    source_loop 1000 0 (fun _ => 0) one_output_ctx st (mkMetricsCollector 0 0 0) src
    = LoopGoing src' st' metrics' /\
    SequenceSource.generated_ src' = 0.
Proof.
  intros st src.
  assert (Hall : all_closed st (OperatorContext.outputs_ one_output_ctx)).
  { intros o Ho. apply list_elem_of_singleton in Ho as ->.
    eexists. split; reflexivity. }
  split; [exact Hall |].
  destruct (source_spins_on_closed_outputs one_output_ctx (fun _ => 0) 1000 0%nat st
              (mkMetricsCollector 0 0 0) src Hall eq_refl eq_refl)
    as (src' & st' & m' & Hloop & Hg & _).
  exists src', st', m'. split; [exact Hloop | exact Hg].
Defined.

(** [turns] turns of the loop of a source that has [g] events behind it and
    at least [turns] to go, on one open output with room for them. *)
Lemma source_loop_progress (ctx : OperatorContext.t) (clock : nat -> Timestamp)
    (r : nat) (turns : nat) :
  forall (extra done : nat) (st : list BoundedQueue) (metrics : MetricsCollector)
         (src : SequenceSource.t) (q : BoundedQueue) (g : Z),
    let cfg := SequenceSource.config_ src in
    OperatorContext.outputs_ ctx = [r] ->
    SequenceSource.should_stop src = false ->
    SequenceSource.generated_ src = g -> 0 <= g ->
    g + Z.of_nat turns <= SequenceSource.count cfg ->
    SequenceSource.count cfg < 2 ^ 64 ->
    SequenceSource.current_ src
    = wrap_s64 (SequenceSource.start cfg + g * SequenceSource.step cfg) ->
    st !! r = Some q -> wf Queue_Capacity q -> closed_ q = false ->
    size_ q + Z.of_nat turns <= Queue_Capacity ->
    exists src' st' q' metrics',
      source_loop (turns + extra) done clock ctx st metrics src
      = source_loop extra (done + turns) clock ctx st' metrics' src' /\
      SequenceSource.config_ src' = cfg /\
      SequenceSource.should_stop src' = false /\
      SequenceSource.generated_ src' = g + Z.of_nat turns /\
      SequenceSource.current_ src'
      = wrap_s64 (SequenceSource.start cfg
                  + (g + Z.of_nat turns) * SequenceSource.step cfg) /\
      st' !! r = Some q' /\
      contents Queue_Capacity q'
      = contents Queue_Capacity q
        ++ ((fun j => sequence_event cfg (clock (done + j)%nat) (g + Z.of_nat j))
              <$> seq 0 turns) /\
      (forall o, o <> r -> st' !! o = st !! o) /\
      events_processed_ metrics' = Nat.iter turns incr64 (events_processed_ metrics).
Proof.
  induction turns as [| turns IH];
    intros extra done st metrics src q g cfg Houts Hstop Hg Hg0 Hcount Hmax Hcur
           Hq Hwf Hc Hsize; subst cfg.
  - exists src, st, q, metrics. cbn [Nat.add seq fmap list_fmap Nat.iter nat_rect].
    rewrite Nat.add_0_r, Z.add_0_r, app_nil_r.
    split; [reflexivity |]. split; [reflexivity |]. split; [exact Hstop |].
    split; [exact Hg |]. split; [exact Hcur |]. split; [exact Hq |].
    split; [reflexivity |]. split; [reflexivity | reflexivity].
  - cbn [Nat.add source_loop]. rewrite Hstop. unfold SequenceSource.generate.
    rewrite Hstop. cbn [orb].
    destruct (Z.leb_spec (SequenceSource.count (SequenceSource.config_ src))
                (SequenceSource.generated_ src))
      as [Hle | _]; [lia |].
    unfold OperatorContext.emit. rewrite Houts. cbn [OperatorContext.emit_from].
    unfold QueueRef, QueueStore in *. rewrite Hq.
    destruct (push_open Queue_Capacity 12 ltac:(lia) Queue_Capacity_pow2
                (Event_of_payload_key (PInt (SequenceSource.current_ src))
                   (SequenceSource.generated_ src) (clock done)) q Hwf Hc)
      as (q1 & Hpush & Hwf1 & Hc1 & Hk1); [lia |].
    rewrite Hpush. cbn [OperatorContext.emit_from].
    change (0 <? incr64 0) with true. cbv iota.
    assert (Hsize1 : size_ q1 = size_ q + 1).
    { pose proof (f_equal length Hk1) as Hl.
      rewrite length_app, !contents_length in Hl. cbn [length] in Hl.
      destruct Hwf as (_ & _ & Hs & _), Hwf1 as (_ & _ & Hs1 & _). lia. }
    destruct (IH extra (S done) (<[r := q1]> st) (count_processed metrics)
                (SequenceSource.mk (Operator.record_emitted (SequenceSource.base src))
                   (SequenceSource.config_ src)
                   (wrap_s64 (SequenceSource.current_ src
                              + SequenceSource.step (SequenceSource.config_ src)))
                   (incr64 (SequenceSource.generated_ src)))
                q1 (g + 1))
      as (src' & st' & q' & m' & Hloop & Hcfg & Hstop' & Hg' & Hcur' & Hq' & Hk'
          & Hother & Hm).
    + exact Houts.
    + exact Hstop.
    + cbn [SequenceSource.generated_]. rewrite Hg. apply incr64_small. lia.
    + lia.
    + cbn [SequenceSource.config_]. lia.
    + exact Hmax.
    + cbn [SequenceSource.current_ SequenceSource.config_].
      rewrite Hcur, wrap_s64_add_l. f_equal. lia.
    + apply list_lookup_insert_eq. eapply lookup_lt_Some, Hq.
    + exact Hwf1.
    + exact Hc1.
    + lia.
    + exists src', st', q', m'.
      split.
      { rewrite Hloop. f_equal. lia. }
      split; [exact Hcfg |]. split; [exact Hstop' |].
      split; [rewrite Hg'; lia |].
      split; [rewrite Hcur'; cbn [SequenceSource.config_]; f_equal; lia |].
      split; [exact Hq' |].
      split.
      { rewrite Hk', Hk1, <- app_assoc. f_equal.
        cbn [seq fmap list_fmap app SequenceSource.config_]. f_equal.
        - unfold sequence_event. rewrite Hcur, Hg, Nat.add_0_r.
          change (Z.of_nat 0) with 0. rewrite Z.add_0_r. reflexivity.
        - rewrite <- fmap_S_seq, <- list_fmap_compose.
          apply list_fmap_ext. intros i j _. cbn [compose].
          f_equal; [f_equal; lia | lia]. }
      split.
      { intros o Ho. rewrite Hother by exact Ho.
        apply list_lookup_insert_ne. congruence. }
      rewrite Hm. cbn [count_processed events_processed_].
      rewrite Nat.iter_succ_r. reflexivity.
Qed.

(** X30.  A fresh sequence source configured with a count of [n], whose one
    output is an open queue with room for [n] events, runs to its end: after
    [n] turns its thread leaves the loop, as [generate] returns false.  The
    queue then holds, after what it held, the [n] events of the arithmetic
    progression in order: the [i]-th carries [start + i * step] reduced to a
    64-bit signed integer, and has [i] as its key.  No other queue of the
    store is touched, and every event counts once in [events_processed]. *)
Theorem sequence_source_runs_to_count
    (name : string) (cfg : SequenceSource.Config) (clock : nat -> Timestamp)
    (ctx : OperatorContext.t) (st : list BoundedQueue) (metrics : MetricsCollector)
    (r : nat) (q : BoundedQueue) (n : nat) :
  OperatorContext.outputs_ ctx = [r] ->
  in_int64 (SequenceSource.start cfg) ->
  SequenceSource.count cfg = Z.of_nat n ->
  st !! r = Some q -> wf Queue_Capacity q -> closed_ q = false ->
  size_ q + Z.of_nat n <= Queue_Capacity ->
  exists src' st' q' metrics',
    source_loop (S n) 0 clock ctx st metrics (SequenceSource.new name cfg)
    = LoopEnded src' st' metrics' /\
    st' !! r = Some q' /\
    contents Queue_Capacity q'
    = contents Queue_Capacity q
      ++ ((fun i => sequence_event cfg (clock i) (Z.of_nat i)) <$> seq 0 n) /\
    (forall o, o <> r -> st' !! o = st !! o) /\
    SequenceSource.generated_ src' = Z.of_nat n /\
    events_processed_ metrics' = Nat.iter n incr64 (events_processed_ metrics).
Proof.
  intros Houts Hstart Hn Hq Hwf Hc Hsize.
  assert (Hbound : Z.of_nat n < 2 ^ 64).
  { destruct Hwf as (_ & _ & Hs & _). unfold Queue_Capacity in *. lia. }
  destruct (source_loop_progress ctx clock r n 1 0 st metrics
              (SequenceSource.new name cfg) q 0)
    as (src' & st' & q' & m' & Hloop & Hcfg & Hstop & Hg & _ & Hq' & Hk & Hother & Hm).
  - exact Houts.
  - reflexivity.
  - reflexivity.
  - lia.
  - cbn [SequenceSource.new SequenceSource.config_]. lia.
  - cbn [SequenceSource.new SequenceSource.config_]. lia.
  - cbn [SequenceSource.new SequenceSource.config_ SequenceSource.current_].
    rewrite Z.mul_0_l, Z.add_0_r. symmetry. now apply wrap_s64_small.
  - exact Hq.
  - exact Hwf.
  - exact Hc.
  - exact Hsize.
  - cbn [SequenceSource.new SequenceSource.config_] in *.
    exists src', st', q', m'.
    split.
    { replace (S n) with (n + 1)%nat by lia. rewrite Hloop.
      cbn [source_loop]. rewrite Hstop. unfold SequenceSource.generate.
      rewrite Hstop, Hcfg, Hg, Hn. cbn [orb].
      rewrite Z.add_0_l, Z.leb_refl. reflexivity. }
    split; [exact Hq' |].
    split.
    { rewrite Hk. apply (f_equal (fun l => contents Queue_Capacity q ++ l)).
      apply list_fmap_ext. intros i j _. cbn [Nat.add]. now rewrite Z.add_0_l. }
    split; [exact Hother |]. split; [rewrite Hg; lia | exact Hm].
Qed.

Lemma sequence_source_runs_to_count_witness :
  let cfg := SequenceSource.mkConfig 5 2 3 0 in
  exists src' st' q' metrics',
    source_loop 4 0 (fun _ => 0) one_output_ctx one_queue_store
      (mkMetricsCollector 0 0 0) (SequenceSource.new "seq" cfg)
    = LoopEnded src' st' metrics' /\
    st' !! 0%nat = Some q' /\
    contents Queue_Capacity q'
    = [ Event_of_payload_key (PInt 5) 0 0; Event_of_payload_key (PInt 7) 1 0;
        Event_of_payload_key (PInt 9) 2 0 ] /\
    SequenceSource.generated_ src' = 3.
Proof.
  intros cfg.
  assert (Hwf : wf Queue_Capacity (BQ.BoundedQueue_new Queue_Capacity 0)).
  { unfold wf. repeat split; vm_compute; congruence. }
  assert (Hstart : in_int64 (SequenceSource.start cfg)).
  { split; vm_compute; congruence. }
  assert (Hsize : size_ (BQ.BoundedQueue_new Queue_Capacity 0) + Z.of_nat 3
                  <= Queue_Capacity).
  { vm_compute. congruence. }
  destruct (sequence_source_runs_to_count "seq" cfg (fun _ => 0) one_output_ctx
              one_queue_store (mkMetricsCollector 0 0 0) 0%nat
              (BQ.BoundedQueue_new Queue_Capacity 0) 3
              eq_refl Hstart eq_refl eq_refl Hwf eq_refl Hsize)
    as (src' & st' & q' & m' & Hloop & Hq' & Hk & _ & Hg & _).
  exists src', st', q', m'.
  split; [exact Hloop |]. split; [exact Hq' |]. split; [exact Hk | exact Hg].
Defined.
